(** * Hidden Motif: the per-room session engine (src/server/game.ts)

    A shallow embedding of the [Game] class, of the socket dispatch of
    src/server/server.ts, and of the retry wrapper and the two fallible
    operations of the content-generation service.

    Conventions.
    - A JavaScript [number] that only ever holds a count or an index is a
      [nat]; scores, the countdown and artwork ids are [Z].
    - [Set<string>] is a [gset string], [Map<number, _>] a [gmap Z _].
    - A method that can raise a [TypeError] (reading a property of
      [undefined]) returns an [Outcome]; the state it carries is the state
      at the point where the exception left the method.
    - An [async] method is split at its [await]: the part before it runs
      inside the caller, the part after it is a separate event that the
      event loop delivers later; the awaited value is an argument of that
      event.  [pending] records the continuations still to be delivered.
    - [Math.random] and the external service are oracles: their values are
      arguments of the events that consume them. *)

From stdpp Require Import gmap strings list fin_maps.
From Stdlib Require Import ZArith Lia Permutation Ascii.

Local Open Scope Z_scope.

(** ** Data model (types.ts) *)

Inductive GameState :=
  | JOIN | LOBBY | ROUND_STARTING | BRIEFING | PROMPTING
  | GENERATING | SCORING | GALLERY | REVEAL | GAME_OVER.

Inductive PlayerRole := Artist | Dodger.

#[global] Instance GameState_eq_dec : EqDecision GameState.
Proof. solve_decision. Defined.

#[global] Instance PlayerRole_eq_dec : EqDecision PlayerRole.
Proof. solve_decision. Defined.

(** [Player.id] and [Player.name] are [pid] and [pname]: [id] is also a
    field of [Artwork]. *)
Record Player := mkPlayer {
  pid : string;
  pname : string;
  role : PlayerRole;
  score : Z;
  promptSubmitted : bool
}.

Record Artwork := mkArtwork {
  aid : Z;
  playerId : string;
  prompt : string;
  imageUrl : option string;
  isDodger : bool;
  qualityScore : option Z;
  originalityScore : option Z
}.

Record Vote := mkVote {
  voterId : string;
  artworkId : Z;
  isYes : bool
}.

Record RoundData := mkRoundData {
  theme : string;
  motif1 : string;
  motif2 : string
}.

(** The handle stored in [galleryTimer]: [null], an interval that is still
    scheduled, or one that [clearInterval] has cancelled.  Every
    [setInterval] of the class is preceded by a [clearInterval] of the
    stored handle, so no other interval is ever scheduled. *)
Inductive Timer := TimerNull | TimerLive | TimerCleared.

(** Continuations of the three [async] methods. *)
Inductive Task := TRoundData | TRender | TEvaluate.

#[global] Instance Task_eq_dec : EqDecision Task.
Proof. solve_decision. Defined.

Record Game := mkGame {
  roomId : string;
  players : list Player;
  state : GameState;
  currentRound : nat;
  roundData : option RoundData;
  artworks : list Artwork;
  votes : list Vote;
  galleryIndex : nat;
  galleryTimer : Timer;
  galleryTime : Z;
  dodgerId : option string;
  readyPlayers : gset string;
  pending : list Task
}.

(** Field updates. *)
Definition set_players (v : list Player) (g : Game) : Game :=
  mkGame (roomId g) v (state g) (currentRound g) (roundData g) (artworks g)
    (votes g) (galleryIndex g) (galleryTimer g) (galleryTime g) (dodgerId g)
    (readyPlayers g) (pending g).
Definition set_state (v : GameState) (g : Game) : Game :=
  mkGame (roomId g) (players g) v (currentRound g) (roundData g) (artworks g)
    (votes g) (galleryIndex g) (galleryTimer g) (galleryTime g) (dodgerId g)
    (readyPlayers g) (pending g).
Definition set_currentRound (v : nat) (g : Game) : Game :=
  mkGame (roomId g) (players g) (state g) v (roundData g) (artworks g)
    (votes g) (galleryIndex g) (galleryTimer g) (galleryTime g) (dodgerId g)
    (readyPlayers g) (pending g).
Definition set_roundData (v : option RoundData) (g : Game) : Game :=
  mkGame (roomId g) (players g) (state g) (currentRound g) v (artworks g)
    (votes g) (galleryIndex g) (galleryTimer g) (galleryTime g) (dodgerId g)
    (readyPlayers g) (pending g).
Definition set_artworks (v : list Artwork) (g : Game) : Game :=
  mkGame (roomId g) (players g) (state g) (currentRound g) (roundData g) v
    (votes g) (galleryIndex g) (galleryTimer g) (galleryTime g) (dodgerId g)
    (readyPlayers g) (pending g).
Definition set_votes (v : list Vote) (g : Game) : Game :=
  mkGame (roomId g) (players g) (state g) (currentRound g) (roundData g)
    (artworks g) v (galleryIndex g) (galleryTimer g) (galleryTime g)
    (dodgerId g) (readyPlayers g) (pending g).
Definition set_galleryIndex (v : nat) (g : Game) : Game :=
  mkGame (roomId g) (players g) (state g) (currentRound g) (roundData g)
    (artworks g) (votes g) v (galleryTimer g) (galleryTime g) (dodgerId g)
    (readyPlayers g) (pending g).
Definition set_galleryTimer (v : Timer) (g : Game) : Game :=
  mkGame (roomId g) (players g) (state g) (currentRound g) (roundData g)
    (artworks g) (votes g) (galleryIndex g) v (galleryTime g) (dodgerId g)
    (readyPlayers g) (pending g).
Definition set_galleryTime (v : Z) (g : Game) : Game :=
  mkGame (roomId g) (players g) (state g) (currentRound g) (roundData g)
    (artworks g) (votes g) (galleryIndex g) (galleryTimer g) v (dodgerId g)
    (readyPlayers g) (pending g).
Definition set_dodgerId (v : option string) (g : Game) : Game :=
  mkGame (roomId g) (players g) (state g) (currentRound g) (roundData g)
    (artworks g) (votes g) (galleryIndex g) (galleryTimer g) (galleryTime g)
    v (readyPlayers g) (pending g).
Definition set_readyPlayers (v : gset string) (g : Game) : Game :=
  mkGame (roomId g) (players g) (state g) (currentRound g) (roundData g)
    (artworks g) (votes g) (galleryIndex g) (galleryTimer g) (galleryTime g)
    (dodgerId g) v (pending g).
Definition set_pending (v : list Task) (g : Game) : Game :=
  mkGame (roomId g) (players g) (state g) (currentRound g) (roundData g)
    (artworks g) (votes g) (galleryIndex g) (galleryTimer g) (galleryTime g)
    (dodgerId g) (readyPlayers g) v.

Definition set_score (v : Z) (p : Player) : Player :=
  mkPlayer (pid p) (pname p) (role p) v (promptSubmitted p).
Definition set_role (v : PlayerRole) (p : Player) : Player :=
  mkPlayer (pid p) (pname p) v (score p) (promptSubmitted p).
Definition set_promptSubmitted (v : bool) (p : Player) : Player :=
  mkPlayer (pid p) (pname p) (role p) (score p) v.
Definition set_imageUrl (v : option string) (a : Artwork) : Artwork :=
  mkArtwork (aid a) (playerId a) (prompt a) v (isDodger a)
    (qualityScore a) (originalityScore a).

(** What a method call leaves behind: it returned, or a [TypeError]
    escaped it. *)
Inductive Outcome :=
  | Returned (g : Game)
  | Raised (g : Game).

Definition final (o : Outcome) : Game :=
  match o with Returned g | Raised g => g end.

Definition raised (o : Outcome) : bool :=
  match o with Returned _ => false | Raised _ => true end.

Definition is_dodger_role (p : Player) : bool :=
  bool_decide (role p = Dodger).

(** [v.voterId === p && v.artworkId === a], the test of every
    [votes.some] and [votes.find] of the class. *)
Definition vote_matches (p : string) (a : Z) (v : Vote) : bool :=
  String.eqb (voterId v) p && Z.eqb (artworkId v) a.

(** ** The content-generation service (geminiService, as bundled after
    game.ts; the variant under services/ reads the response differently
    and has the same retry and try/catch structure)

    A promise settles to a value or to a thrown value.  The SDK is an
    oracle: [sdk k] is what the [k]-th call of the round trip settles to
    (calls are counted from 0).  Promises that never settle are outside
    this model. *)

Module Gemini.

(** A thrown value, as far as [withRetry] inspects it.
    - [ErrorObj m]: an [Error] whose [message] is the string [m]
      ([JSON.stringify] of an [Error] is the string of an empty object);
    - [Plain j]: a value with no truthy [message]; [j] is
      [JSON.stringify(error)], [None] when that is [undefined];
    - [BadMessage]: a value with a truthy [message] that is not a string. *)
Inductive Thrown :=
  | ErrorObj (message : string)
  | Plain (json : option string)
  | BadMessage.

Inductive Settled (A : Type) :=
  | Resolved (a : A)
  | Rejected (e : Thrown).
Arguments Resolved {A} a.
Arguments Rejected {A} e.

Definition lower_ascii (c : ascii) : ascii :=
  let n := nat_of_ascii c in
  if (65 <=? n)%nat && (n <=? 90)%nat then ascii_of_nat (n + 32) else c.

(** [String.prototype.toLowerCase] on the ASCII range. *)
Fixpoint toLowerCase (s : string) : string :=
  match s with
  | EmptyString => EmptyString
  | String c s' => String (lower_ascii c) (toLowerCase s')
  end.

Definition includes (needle hay : string) : bool :=
  match String.index 0 needle hay with
  | Some _ => true
  | None => false
  end.

(** [(error?.message || JSON.stringify(error)).toLowerCase()]; [None] when
    the expression itself raises a [TypeError]. *)
Definition errorMessage (error : Thrown) : option string :=
  match error with
  | ErrorObj m =>
      if String.eqb m EmptyString then Some (toLowerCase "{}") else Some (toLowerCase m)
  | Plain (Some j) => Some (toLowerCase j)
  | Plain None => None
  | BadMessage => None
  end.

Definition maxRetries : nat := 3.

(** The [while (attempt < maxRetries)] loop of [withRetry];
    [remaining = maxRetries - attempt], so the loop test is
    [remaining > 0] and the code after the loop is the [0] case. *)
Fixpoint retryLoop {T} (remaining attempt : nat) (apiCall : nat -> Settled T) : Settled T :=
  match remaining with
  | O => Rejected (ErrorObj "API call failed after all retries.")
  | S remaining' =>
      match apiCall attempt with
      | Resolved v => Resolved v
      | Rejected error =>
          let attempt' := S attempt in
          match errorMessage error with
          | None => Rejected (ErrorObj "TypeError")
          | Some msg =>
              let isRateLimitError :=
                includes "429" msg || includes "resource_exhausted" msg in
              if isRateLimitError && (attempt' <? maxRetries)%nat
              then retryLoop remaining' attempt' apiCall
              else Rejected error
          end
      end
  end.

Definition withRetry {T} (apiCall : nat -> Settled T) : Settled T :=
  retryLoop maxRetries 0 apiCall.

(** The part of the [generateImages] response that [generateImage] reads. *)
Record Image := mkImage { imageBytes : option string }.
Record GeneratedImage := mkGeneratedImage { image : option Image }.
Record ImagesResponse := mkImagesResponse {
  generatedImages : option (list GeneratedImage)
}.

(** The body of the callback after its [await]; an empty string is falsy. *)
Definition firstImageBytes (response : ImagesResponse) : option string :=
  match generatedImages response with
  | Some (firstImage :: _) =>
      match image firstImage with
      | Some im =>
          match imageBytes im with
          | Some b => if String.eqb b EmptyString then None else Some b
          | None => None
          end
      | None => None
      end
  | _ => None
  end.

Definition imageCall (sdk : nat -> Settled ImagesResponse) (k : nat)
    : Settled (option string) :=
  match sdk k with
  | Resolved response => Resolved (firstImageBytes response)
  | Rejected e => Rejected e
  end.

(** [generateImage(prompt)]; [sdk prompt] is the SDK's behaviour on that
    prompt. *)
Definition generateImage (sdk : string -> nat -> Settled ImagesResponse)
    (prompt : string) : Settled (option string) :=
  match withRetry (imageCall (sdk prompt)) with
  | Resolved v => Resolved v
  | Rejected _ => Resolved None
  end.

Definition fallbackRoundData : RoundData :=
  mkRoundData "A Cyberpunk Megacity During a Rainstorm" "Dragon" "Compass".

(** The callback of [generateRoundData]: [response.text] absent or empty
    throws; [parse] stands for [JSON.parse(response.text.trim())],
    rejected with the [SyntaxError] it throws, whose message quotes the
    text. *)
Definition roundDataCall (parse : string -> Settled RoundData)
    (sdk : nat -> Settled (option string)) (k : nat) : Settled RoundData :=
  match sdk k with
  | Resolved None => Rejected (ErrorObj "AI response text is undefined.")
  | Resolved (Some text) =>
      if String.eqb text EmptyString
      then Rejected (ErrorObj "AI response text is undefined.")
      else parse text
  | Rejected e => Rejected e
  end.

Definition generateRoundData (parse : string -> Settled RoundData)
    (sdk : nat -> Settled (option string)) : Settled RoundData :=
  match withRetry (roundDataCall parse sdk) with
  | Resolved rd => Resolved rd
  | Rejected _ => Resolved fallbackRoundData
  end.

End Gemini.

(** ** The engine (class [Game])

    constants.ts is not part of the sources at hand; its three exports are
    parameters of the engine. *)
Class Constants := mkConstants {
  TOTAL_ROUNDS : nat;
  TOTAL_PLAYERS : nat;
  GALLERY_TIMER_SECONDS : Z
}.

Section Engine.

Context {constants : Constants}.

(** [new Game(roomId, broadcastUpdate)] *)
Definition newGame (room : string) : Game :=
  mkGame room [] LOBBY 0 None [] [] 0 TimerNull GALLERY_TIMER_SECONDS None ∅ [].

Definition addPlayer (id name : string) (g : Game) : Game :=
  if (TOTAL_PLAYERS <=? length (players g))%nat then g
  else set_players (players g ++ [mkPlayer id name Artist 0 false]) g.

Definition clearTimer (g : Game) : Game :=
  match galleryTimer g with
  | TimerNull => g
  | _ => set_galleryTimer TimerCleared g
  end.

Definition removePlayer (id : string) (g : Game) : Game :=
  let g1 := set_players (List.filter (fun p => negb (String.eqb (pid p) id)) (players g)) g in
  if (length (players g1) =? 0)%nat then clearTimer g1 else g1.

Definition isFull (g : Game) : bool :=
  (TOTAL_PLAYERS <=? length (players g))%nat.

(** [startNewRound], up to its [await]. *)
Definition startNewRound (g : Game) : Game :=
  set_pending (pending g ++ [TRoundData]) (set_state ROUND_STARTING g).

Definition startGame (g : Game) : Game :=
  if bool_decide (state g = LOBBY) then
    startNewRound
      (set_players (map (set_score 0) (players g)) (set_currentRound 1%nat g))
  else g.

Definition resetGame (g : Game) : Game :=
  set_players (map (set_score 0) (players g))
    (set_currentRound 0%nat (set_state LOBBY g)).

(** [startNewRound], from the [await] on.  [rd] is the value of
    [gemini.generateRoundData()], [dodgerIndex] the value of
    [Math.floor(Math.random() * this.players.length)]. *)
Definition startNewRound_resume (rd : RoundData) (dodgerIndex : nat) (g : Game) : Outcome :=
  let g1 := set_readyPlayers ∅
              (set_galleryIndex 0%nat
                (set_votes [] (set_artworks [] (set_roundData (Some rd) g)))) in
  let ps := map (fun p => set_promptSubmitted false (set_role Artist p)) (players g1) in
  let g2 := set_players ps g1 in
  match ps !! dodgerIndex with
  | None => Raised g2
  | Some d =>
      Returned
        (set_state BRIEFING
          (set_dodgerId (Some (pid d))
            (set_players (<[dodgerIndex := set_role Dodger d]> ps) g2)))
  end.

Definition handlePlayerReady (player : string) (g : Game) : Game :=
  let g1 := set_readyPlayers ({[player]} ∪ readyPlayers g) g in
  if (size (readyPlayers g1) =? length (players g1))%nat
  then set_state PROMPTING g1 else g1.

(** [generateAllArtworks], up to the first [await]. *)
Definition generateAllArtworks (g : Game) : Game :=
  set_pending (pending g ++ [TRender]) (set_state GENERATING g).

(** [player.promptSubmitted = true] on the object [players.find] returned:
    the first player with that id. *)
Fixpoint mark_submitted (id : string) (ps : list Player) : list Player :=
  match ps with
  | [] => []
  | p :: ps' =>
      if String.eqb (pid p) id then set_promptSubmitted true p :: ps'
      else p :: mark_submitted id ps'
  end.

Definition handlePromptSubmission (player : string) (text : string) (g : Game) : Game :=
  match List.find (fun p => String.eqb (pid p) player) (players g) with
  | None => g
  | Some p =>
      if promptSubmitted p then g
      else
        let g1 := set_players (mark_submitted player (players g)) g in
        let isD := is_dodger_role p in
        let artworkId := Z.of_nat (length (artworks g1)) + 1 in
        let g2 := set_artworks
                    (artworks g1 ++ [mkArtwork artworkId player text None isD None None]) g1 in
        if forallb promptSubmitted (players g2) then generateAllArtworks g2 else g2
  end.

Definition startGalleryTimer (g : Game) : Game :=
  set_galleryTimer TimerLive (set_galleryTime GALLERY_TIMER_SECONDS (clearTimer g)).

(** [runArtEvaluation], up to its [await]; with no round data it returns
    before awaiting anything. *)
Definition runArtEvaluation (g : Game) : Game :=
  let g1 := set_state SCORING g in
  match roundData g1 with
  | None => g1
  | Some _ => set_pending (pending g1 ++ [TEvaluate]) g1
  end.

(** The [players.forEach] of [nextGalleryItem]: each test reads the ledger
    as the previous iterations left it. *)
Definition synthesize (currentArtworkId : Z) (ps : list Player) (vs : list Vote) : list Vote :=
  fold_left
    (fun acc p =>
       if existsb (vote_matches (pid p) currentArtworkId) acc then acc
       else acc ++ [mkVote (pid p) currentArtworkId false])
    ps vs.

Definition nextGalleryItem (g : Game) : Outcome :=
  let g1 := clearTimer g in
  match artworks g1 !! galleryIndex g1 with
  | None => Raised g1
  | Some cur =>
      let g2 := set_votes (synthesize (aid cur) (players g1) (votes g1)) g1 in
      if Z.of_nat (galleryIndex g2) <? Z.of_nat (length (artworks g2)) - 1
      then Returned (startGalleryTimer (set_galleryIndex (S (galleryIndex g2)) g2))
      else Returned (runArtEvaluation g2)
  end.

(** The callback handed to [setInterval]. *)
Definition tick (g : Game) : Outcome :=
  let g1 := set_galleryTime (galleryTime g - 1) g in
  if galleryTime g1 <=? 0 then nextGalleryItem g1 else Returned g1.

Definition handleVote (voter : string) (yes : bool) (g : Game) : Outcome :=
  match artworks g !! galleryIndex g with
  | None => Raised g
  | Some cur =>
      let artworkId := aid cur in
      if existsb (vote_matches voter artworkId) (votes g) then Returned g
      else
        let g1 := set_votes (votes g ++ [mkVote voter artworkId yes]) g in
        let allVotedForThisArt :=
          forallb (fun p => existsb (vote_matches (pid p) artworkId) (votes g1))
                  (players g1) in
        if allVotedForThisArt then nextGalleryItem g1 else Returned g1
  end.

(** [generateAllArtworks], once every render has settled.  [render a] is
    the value [gemini.generateImage] produced for [a]; [shuffled] is the
    array [shuffleArray] returned, some rearrangement of the rendered list
    (see [Enabled] below).  The code writes each handle to the artwork
    object it started the render for; the model writes it to the artworks
    of the list as it is when the renders have settled.  The two differ
    only when the list was replaced in between, and only in [imageUrl],
    which no method of the class reads. *)
Definition generateAllArtworks_resume (shuffled : list Artwork) (g : Game) : Game :=
  startGalleryTimer (set_state GALLERY (set_artworks shuffled g)).

(** The artwork list once every [art.imageUrl = imageUrl] has run. *)
Definition rendered (render : Artwork -> option string) (g : Game) : list Artwork :=
  map (fun a => set_imageUrl (render a) a) (artworks g).

(** *** Scoring *)

Record Bonus := mkBonus { quality : Z; originality : Z }.

Definition pointsByRank : list Z := [3; 2; 1].

(** [artworks.forEach(art => scoreMap.set(art.id, {quality: 0, originality: 0}))] *)
Definition initScoreMap (arts : list Artwork) : gmap Z Bonus :=
  fold_left (fun m art => <[aid art := mkBonus 0 0]> m) arts ∅.

(** [ranking.forEach((artworkId, index) => ...)], started at [index];
    [upd pts] is the assignment to [currentScore.quality] or
    [currentScore.originality]. *)
Fixpoint applyRanking (upd : Z -> Bonus -> Bonus) (ranking : list Z) (index : nat)
    (scoreMap : gmap Z Bonus) : gmap Z Bonus :=
  match ranking with
  | [] => scoreMap
  | artworkId :: rest =>
      let scoreMap' :=
        match pointsByRank !! index with
        | Some pts =>
            match scoreMap !! artworkId with
            | Some currentScore => <[artworkId := upd pts currentScore]> scoreMap
            | None => scoreMap
            end
        | None => scoreMap
        end in
      applyRanking upd rest (S index) scoreMap'
  end.

Definition setQuality (pts : Z) (b : Bonus) : Bonus := mkBonus pts (originality b).
Definition setOriginality (pts : Z) (b : Bonus) : Bonus := mkBonus (quality b) pts.

Definition buildScoreMap (qualityRanking originalityRanking : list Z)
    (arts : list Artwork) : gmap Z Bonus :=
  applyRanking setOriginality originalityRanking 0
    (applyRanking setQuality qualityRanking 0 (initScoreMap arts)).

(** [votedArtwork], then [vote.isYes && votedArtwork && !votedArtwork.isDodger]. *)
Definition countsForDodger (arts : list Artwork) (vote : Vote) : bool :=
  match List.find (fun art => Z.eqb (aid art) (artworkId vote)) arts with
  | Some votedArtwork => isYes vote && negb (isDodger votedArtwork)
  | None => false
  end.

(** [votes.forEach(vote => ... dodgerPoints++ ...)] *)
Definition dodgerPoints (g : Game) : Z :=
  fold_left (fun n vote => if countsForDodger (artworks g) vote then n + 1 else n)
            (votes g) 0.

Definition scoreToAdd (g : Game) (dodgerArtwork : Artwork) (scoreMap : gmap Z Bonus)
    (p : Player) : Z :=
  let correctVote :=
    match List.find (vote_matches (pid p) (aid dodgerArtwork)) (votes g) with
    | Some v => isYes v
    | None => false
    end in
  let s1 := if correctVote then 0 + 1 else 0 in
  let s2 := if is_dodger_role p then s1 + dodgerPoints g else s1 in
  match List.find (fun art => String.eqb (playerId art) (pid p)) (artworks g) with
  | Some playerArtwork =>
      match scoreMap !! aid playerArtwork with
      | Some bonus => s2 + (quality bonus + originality bonus)
      | None => s2
      end
  | None => s2
  end.

(** [art.qualityScore = bonus?.quality ?? 0] and the same for originality. *)
Definition persistBonus (scoreMap : gmap Z Bonus) (art : Artwork) : Artwork :=
  let bonus := scoreMap !! aid art in
  mkArtwork (aid art) (playerId art) (prompt art) (imageUrl art) (isDodger art)
    (Some (from_option quality 0 bonus)) (Some (from_option originality 0 bonus)).

Definition calculateScores (qualityRanking originalityRanking : list Z) (g : Game) : Game :=
  match List.find isDodger (artworks g) with
  | None => g
  | Some dodgerArtwork =>
      let scoreMap := buildScoreMap qualityRanking originalityRanking (artworks g) in
      let ps := map (fun p => set_score (score p + scoreToAdd g dodgerArtwork scoreMap p) p)
                    (players g) in
      set_artworks (map (persistBonus scoreMap) (artworks g)) (set_players ps g)
  end.

(** [runArtEvaluation], from its [await] on; the two lists are the value
    of [gemini.evaluateArtworks]. *)
Definition runArtEvaluation_resume (qualityRanking originalityRanking : list Z)
    (g : Game) : Game :=
  set_state REVEAL (calculateScores qualityRanking originalityRanking g).

Definition nextRound (g : Game) : Game :=
  if bool_decide (state g = REVEAL) then
    if (currentRound g <? TOTAL_ROUNDS)%nat
    then startNewRound (set_currentRound (S (currentRound g)) g)
    else set_state GAME_OVER g
  else g.

(** *** The outward snapshot *)

Record ServerGameState := mkServerGameState {
  s_state : GameState;
  s_players : list Player;
  s_currentRound : nat;
  s_roundData : option RoundData;
  s_artworks : list Artwork;
  s_votes : list Vote;
  s_galleryIndex : nat;
  s_galleryTime : Z;
  roundPoints : nat;
  s_dodgerId : option string
}.

(** [v.isYes && !this.artworks.find(a => a.id === v.artworkId)?.isDodger]:
    with no such artwork the chain is [undefined], whose negation is true. *)
Definition countsForRound (arts : list Artwork) (v : Vote) : bool :=
  isYes v &&
  match List.find (fun a => Z.eqb (aid a) (artworkId v)) arts with
  | Some a => negb (isDodger a)
  | None => true
  end.

Definition getSerializableState (g : Game) : ServerGameState :=
  mkServerGameState (state g) (players g) (currentRound g) (roundData g)
    (artworks g) (votes g) (galleryIndex g) (galleryTime g)
    (length (List.filter (countsForRound (artworks g)) (votes g)))
    (dodgerId g).

(** ** Socket dispatch (server.ts)

    Each handler is given the id of the emitting socket and the game
    [getGame] resolved. *)

Definition isHost (socket : string) (g : Game) : option bool :=
  match players g !! 0%nat with
  | None => None
  | Some host => Some (String.eqb (pid host) socket)
  end.

(** [game.players[0].id === socket.id] raises when the roster is empty. *)
Definition on_startGame (socket : string) (g : Game) : Outcome :=
  match isHost socket g with
  | None => Raised g
  | Some true => Returned (startGame g)
  | Some false => Returned g
  end.

Definition on_playerReady (socket : string) (g : Game) : Outcome :=
  Returned (handlePlayerReady socket g).

Definition on_submitPrompt (socket : string) (text : string) (g : Game) : Outcome :=
  Returned (handlePromptSubmission socket text g).

Definition on_castVote (socket : string) (yes : bool) (g : Game) : Outcome :=
  handleVote socket yes g.

Definition on_nextRound (socket : string) (g : Game) : Outcome :=
  Returned (nextRound g).

Definition on_playAgain (socket : string) (g : Game) : Outcome :=
  match isHost socket g with
  | None => Raised g
  | Some true => Returned (resetGame g)
  | Some false => Returned g
  end.

(** ** The session as a transition system

    Events are the calls the dispatcher and the runtime make on a [Game]:
    the public methods with any arguments, the interval callback, and the
    three continuations.  The host gate of the dispatcher and the capacity
    test of [joinGame] only remove behaviours.  After a [TypeError] the
    session goes on from the state the exception left. *)

Inductive Event :=
  | EAddPlayer (id name : string)
  | ERemovePlayer (id : string)
  | EStartGame
  | EResetGame
  | ENextRound
  | EPlayerReady (id : string)
  | EPromptSubmission (id text : string)
  | EVote (id : string) (yes : bool)
  | ETick
  | ERoundData (rd : RoundData) (dodgerIndex : nat)
  | ERendered (render : Artwork -> option string) (shuffled : list Artwork)
  | ERankings (qualityRanking originalityRanking : list Z).

(** Delivering a continuation removes it from [pending]. *)
Fixpoint dequeue (t : Task) (ts : list Task) : list Task :=
  match ts with
  | [] => []
  | t' :: ts' => if bool_decide (t' = t) then ts' else t' :: dequeue t ts'
  end.

Definition deliver (t : Task) (g : Game) : Game := set_pending (dequeue t (pending g)) g.

Definition step (g : Game) (e : Event) : Outcome :=
  match e with
  | EAddPlayer id name => Returned (addPlayer id name g)
  | ERemovePlayer id => Returned (removePlayer id g)
  | EStartGame => Returned (startGame g)
  | EResetGame => Returned (resetGame g)
  | ENextRound => Returned (nextRound g)
  | EPlayerReady id => Returned (handlePlayerReady id g)
  | EPromptSubmission id text => Returned (handlePromptSubmission id text g)
  | EVote id yes => handleVote id yes g
  | ETick => tick g
  | ERoundData rd dodgerIndex => startNewRound_resume rd dodgerIndex (deliver TRoundData g)
  | ERendered render shuffled =>
      Returned (generateAllArtworks_resume shuffled (deliver TRender g))
  | ERankings q o => Returned (runArtEvaluation_resume q o (deliver TEvaluate g))
  end.

(** When the environment can produce an event: a continuation must be
    outstanding, the interval must be scheduled, [Math.floor(Math.random()
    * n)] lies below [n] (and is [0] for [n = 0]), and [shuffleArray]
    returns a rearrangement of its argument. *)
Definition Enabled (g : Game) (e : Event) : Prop :=
  match e with
  | ETick => galleryTimer g = TimerLive
  | ERoundData _ dodgerIndex =>
      TRoundData ∈ pending g ∧ (dodgerIndex < Nat.max 1 (length (players g)))%nat
  | ERendered render shuffled =>
      TRender ∈ pending g ∧ Permutation (rendered render g) shuffled
  | ERankings _ _ => TEvaluate ∈ pending g
  | _ => True
  end.

Inductive reachable : Game -> Prop :=
  | reachable_new room : reachable (newGame room)
  | reachable_step g e : reachable g -> Enabled g e -> reachable (final (step g e)).

End Engine.

(** ** Vocabulary of the specification *)

Definition vote_key (v : Vote) : string * Z := (voterId v, artworkId v).

(** No (voter, artifact) pair occurs twice in the ledger. *)
Definition votes_unique (g : Game) : Prop := NoDup (map vote_key (votes g)).

(** The votes of player [p] on artifact [a]. *)
Definition votes_of (p : string) (a : Z) (vs : list Vote) : list Vote :=
  List.filter (vote_matches p a) vs.

(** Player [p] cast an approving vote on artifact [a]. *)
Definition cast_yes_on (p : string) (a : Z) (vs : list Vote) : bool :=
  existsb (fun v => vote_matches p a v && isYes v) vs.

(** An approving vote whose target exists and is not the deviator's. *)
Definition false_accusation (arts : list Artwork) (v : Vote) : bool :=
  isYes v && existsb (fun a => Z.eqb (aid a) (artworkId v) && negb (isDodger a)) arts.

Definition deception_count (g : Game) : nat :=
  length (List.filter (false_accusation (artworks g)) (votes g)).

(** 3, 2, 1 for the first, second and third entry of a ranking, 0 below. *)
Definition rank_bonus (ranking : list Z) (a : Z) : Z :=
  if bool_decide (ranking !! 0%nat = Some a) then 3
  else if bool_decide (ranking !! 1%nat = Some a) then 2
  else if bool_decide (ranking !! 2%nat = Some a) then 1
  else 0.

(** What section 4.5 of the specification adds to the score of [p], with
    [d] the deviator's artifact. *)
Definition round_delta (g : Game) (d : Artwork) (qualityRanking originalityRanking : list Z)
    (p : Player) : Z :=
  (if cast_yes_on (pid p) (aid d) (votes g) then 1 else 0)
  + (if bool_decide (role p = Dodger) then Z.of_nat (deception_count g) else 0)
  + match List.find (fun art => String.eqb (playerId art) (pid p)) (artworks g) with
    | Some own => rank_bonus qualityRanking (aid own) + rank_bonus originalityRanking (aid own)
    | None => 0
    end.

Definition with_bonus (q o : Z) (a : Artwork) : Artwork :=
  mkArtwork (aid a) (playerId a) (prompt a) (imageUrl a) (isDodger a) (Some q) (Some o).

(** Running a list of events, exceptions included. *)
Definition run {constants : Constants} (g : Game) (es : list Event) : Game :=
  fold_left (fun g e => final (step g e)) es g.

(** Every event of the list can be produced when its turn comes. *)
Fixpoint EnabledAll {constants : Constants} (g : Game) (es : list Event) : Prop :=
  match es with
  | [] => True
  | e :: es' => Enabled g e ∧ EnabledAll (final (step g e)) es'
  end.

(** *** The deviator invariant

    What a player and an artifact contribute to it. *)
Definition player_view (p : Player) : string * PlayerRole * bool :=
  (pid p, role p, promptSubmitted p).

Definition artwork_view (a : Artwork) : string * bool := (playerId a, isDodger a).

Definition submitted_dodger (p : Player) : bool :=
  is_dodger_role p && promptSubmitted p.

(** One player holds the deviator role; [dodgerId] is the id of whoever
    holds it and of the author of every flagged artifact; and there is one
    flagged artifact if the deviator has submitted, none otherwise. *)
Definition deviator_ok (g : Game) : Prop :=
  length (List.filter is_dodger_role (players g)) = 1%nat
  ∧ (∀ p, p ∈ players g → role p = Dodger → dodgerId g = Some (pid p))
  ∧ (∀ a, a ∈ artworks g → isDodger a = true → dodgerId g = Some (playerId a))
  ∧ length (List.filter isDodger (artworks g))
    = (if existsb submitted_dodger (players g) then 1 else 0)%nat.

(** [Undisturbed g e]: the event does not remove the deviator. *)
Definition Undisturbed (g : Game) (e : Event) : Prop :=
  match e with
  | ERemovePlayer id => dodgerId g ≠ Some id
  | _ => True
  end.

Fixpoint UndisturbedAll {constants : Constants} (g : Game) (es : list Event) : Prop :=
  match es with
  | [] => True
  | e :: es' => Undisturbed g e ∧ UndisturbedAll (final (step g e)) es'
  end.

(** States from the completion of a round setup on, along undisturbed
    events. *)
Inductive active {constants : Constants} : Game -> Prop :=
  | active_setup g rd dodgerIndex g' :
      reachable g ->
      Enabled g (ERoundData rd dodgerIndex) ->
      step g (ERoundData rd dodgerIndex) = Returned g' ->
      active g'
  | active_step g e :
      active g -> Enabled g e -> Undisturbed g e -> active (final (step g e)).

(** The ledger and the artifact ids fit together: no pair voted twice,
    every vote targets an artifact of the list, and the ids of the list
    are distinct numbers between 1 and its length. *)
Definition ledger_ok (g : Game) : Prop :=
  votes_unique g
  ∧ (∀ v, v ∈ votes g → artworkId v ∈ map aid (artworks g))
  ∧ NoDup (map aid (artworks g))
  ∧ (∀ k, k ∈ map aid (artworks g) → 1 <= k <= Z.of_nat (length (map aid (artworks g)))).

(** *** The gallery cursor moving past an artifact

    [advances g cur explicit g']: in [g] the artifact on display is [cur]
    and the sequencer moves past it, by the countdown running out or by
    the vote that makes the roster unanimous; [explicit] is the ledger of
    the votes the players cast themselves, [g'] the state afterwards. *)
Inductive advances {constants : Constants} (g : Game) (cur : Artwork)
    : list Vote -> Game -> Prop :=
  | advance_timeout :
      galleryTimer g = TimerLive ->
      artworks g !! galleryIndex g = Some cur ->
      galleryTime g - 1 <= 0 ->
      advances g cur (votes g) (final (tick g))
  | advance_unanimous voter yes :
      artworks g !! galleryIndex g = Some cur ->
      existsb (vote_matches voter (aid cur)) (votes g) = false ->
      forallb
        (fun p => existsb (vote_matches (pid p) (aid cur))
                    (votes g ++ [mkVote voter (aid cur) yes]))
        (players g) = true ->
      advances g cur (votes g ++ [mkVote voter (aid cur) yes])
        (final (handleVote voter yes g)).

(** ** Sample sessions *)

Definition party : Constants := mkConstants 3 4 60.

Definition sampleRound : RoundData := mkRoundData "A library inside a giant tree" "Key" "Dragon".

Definition art1 : Artwork := mkArtwork 1 "ann" "a tree of books" None true None None.
Definition art2 : Artwork := mkArtwork 2 "bob" "shelves in the bark" None false None None.

(** Two players; the first, ann, is drawn as deviator; both submit and the
    gallery opens. *)
Definition toGallery : list Event :=
  [ EAddPlayer "ann" "Ann"; EAddPlayer "bob" "Bob"; EStartGame;
    ERoundData sampleRound 0; EPlayerReady "ann"; EPlayerReady "bob";
    EPromptSubmission "ann" "a tree of books";
    EPromptSubmission "bob" "shelves in the bark";
    ERendered (fun _ => None) [art1; art2] ].

Definition galleryGame : Game := @run party (@newGame party "ABCD") toGallery.

(** The same session up to the start request, and up to the end of the
    round setup. *)
Definition startedGame : Game :=
  @run party (@newGame party "ABCD")
    [ EAddPlayer "ann" "Ann"; EAddPlayer "bob" "Bob"; EStartGame ].

Definition briefingGame : Game :=
  @run party startedGame [ ERoundData sampleRound 0 ].

Definition afterBriefing : list Event :=
  [ EPlayerReady "ann"; EPlayerReady "bob";
    EPromptSubmission "ann" "a tree of books";
    EPromptSubmission "bob" "shelves in the bark";
    ERendered (fun _ => None) [art1; art2] ].

(** ann approves her own artifact, bob rejects it; both approve bob's. *)
Definition toScoring : list Event :=
  [ EVote "ann" true; EVote "bob" false; EVote "ann" true; EVote "bob" true ].

Definition scoringGame : Game := @run party galleryGame toScoring.

Definition revealGame : Game :=
  @run party scoringGame [ERankings [1; 2] [1; 2]].

(** The deviator disconnects during the briefing; bob plays on alone. *)
Definition deviatorLeft : Game :=
  @run party (@newGame party "ABCD")
    [ EAddPlayer "ann" "Ann"; EAddPlayer "bob" "Bob"; EStartGame;
      ERoundData sampleRound 0; ERemovePlayer "ann" ].

Definition deviatorLeftSubmitted : Game :=
  @run party deviatorLeft
    [ EPlayerReady "bob"; EPromptSubmission "bob" "shelves in the bark" ].

(** Bob, alone after the deviator left, sees his artifact rendered and
    approves it: the gallery ends and the evaluation is requested. *)
Definition soloScoring : Game :=
  @run party deviatorLeftSubmitted
    [ ERendered (fun _ => None)
        [mkArtwork 1 "bob" "shelves in the bark" None false None None];
      EVote "bob" true ].

(** Three players; ann and bob are ready, bob disconnects, ann signals
    again. *)
Definition beforeStaleReady : Game :=
  @run party (@newGame party "ABCD")
    [ EAddPlayer "ann" "Ann"; EAddPlayer "bob" "Bob"; EAddPlayer "cat" "Cat";
      EStartGame; ERoundData sampleRound 0;
      EPlayerReady "ann"; EPlayerReady "bob"; ERemovePlayer "bob" ].

(** The whole roster signals in a briefing of three. *)
Definition briefingOfThree : Game :=
  @run party (@newGame party "ABCD")
    [ EAddPlayer "ann" "Ann"; EAddPlayer "bob" "Bob"; EAddPlayer "cat" "Cat";
      EStartGame; ERoundData sampleRound 0;
      EPlayerReady "ann"; EPlayerReady "bob" ].

(** A ledger entry whose target is not in the artifact list. *)
Definition strayVote : Game :=
  set_votes [mkVote "ann" 7 true] (set_artworks [art1] (@newGame party "ABCD")).

(** SDK behaviours. *)
Definition alwaysRateLimited {A} (k : nat) : Gemini.Settled A :=
  Gemini.Rejected (Gemini.ErrorObj "429 RESOURCE_EXHAUSTED").

Definition oneImage (k : nat) : Gemini.Settled Gemini.ImagesResponse :=
  Gemini.Resolved
    (Gemini.mkImagesResponse
       (Some [Gemini.mkGeneratedImage (Some (Gemini.mkImage (Some "/9j/4AAQ")))])).

(** ** The room registry and the remaining handlers (server.ts) *)

Section Registry.

Context {constants : Constants}.

Definition chars : string := "ABCDEFGHIJKLMNOPQRSTUVWXYZ".

(** [s.charAt(i)]: the empty string when [i] is out of range. *)
Definition charAt (s : string) (i : nat) : string :=
  match String.get i s with
  | Some c => String c EmptyString
  | None => EmptyString
  end.

(** The [for] loop of [generateRoomId]; [a], [b], [c], [d] are the four
    values of [Math.floor(Math.random() * chars.length)]. *)
Definition spell (a b c d : nat) : string :=
  String.append
    (String.append
       (String.append (String.append EmptyString (charAt chars a)) (charAt chars b))
       (charAt chars c))
    (charAt chars d).

(** [generateRoomId]: [rand] lists the random indices still to come, four
    per attempt; [None] when the list ends before an attempt succeeds. *)
Fixpoint generateRoomId (games : gmap string Game) (rand : list nat) : option string :=
  match rand with
  | a :: b :: c :: d :: rest =>
      let id := spell a b c d in
      if bool_decide (is_Some (games !! id)) then generateRoomId games rest
      else Some id
  | _ => None
  end.

(** [socket.on('createGame')]: the code handed to the callback and the
    registry afterwards. *)
Definition on_createGame (socket name : string) (rand : list nat)
    (games : gmap string Game) : option (string * gmap string Game) :=
  match generateRoomId games rand with
  | None => None
  | Some room => Some (room, <[room := addPlayer socket name (newGame room)]> games)
  end.

(** [socket.on('joinGame')]: the argument of the callback ([None] for
    [null], sent together with the [gameError]) and the registry. *)
Definition on_joinGame (socket name room : string) (games : gmap string Game)
    : option string * gmap string Game :=
  match games !! room with
  | Some game =>
      if isFull game then (None, games)
      else (Some room, <[room := addPlayer socket name game]> games)
  | None => (None, games)
  end.

(** [getGame]: [rooms] is the content of [socket.rooms] in iteration
    order; an empty room name is falsy. *)
Definition getRoom (socket : string) (rooms : list string) : option string :=
  match List.find (fun r => negb (String.eqb r socket)) rooms with
  | Some room => if String.eqb room EmptyString then None else Some room
  | None => None
  end.

Definition getGame (socket : string) (rooms : list string) (games : gmap string Game)
    : option Game :=
  match getRoom socket rooms with
  | Some room => games !! room
  | None => None
  end.

(** The six handlers that forward to the game. *)
Inductive Action :=
  | AStartGame
  | APlayerReady
  | ASubmitPrompt (text : string)
  | ACastVote (yes : bool)
  | ANextRound
  | APlayAgain.

Definition dispatch (socket : string) (a : Action) (g : Game) : Outcome :=
  match a with
  | AStartGame => on_startGame socket g
  | APlayerReady => on_playerReady socket g
  | ASubmitPrompt text => on_submitPrompt socket text g
  | ACastVote yes => on_castVote socket yes g
  | ANextRound => on_nextRound socket g
  | APlayAgain => on_playAgain socket g
  end.

(** A handler mutates the game object the registry holds under the room
    it resolved. *)
Definition on_action (socket : string) (rooms : list string) (a : Action)
    (games : gmap string Game) : gmap string Game :=
  match getRoom socket rooms with
  | Some room =>
      match games !! room with
      | Some game => <[room := final (dispatch socket a game)]> games
      | None => games
      end
  | None => games
  end.

(** [socket.on('disconnect')]; [rooms] is what [socket.rooms] holds when the
    handler runs: the empty list for a socket that has already left its
    rooms. *)
Definition on_disconnect (socket : string) (rooms : list string)
    (games : gmap string Game) : gmap string Game :=
  match getRoom socket rooms with
  | Some room =>
      match games !! room with
      | Some game =>
          let game' := removePlayer socket game in
          let games' := <[room := game']> games in
          if (length (players game') =? 0)%nat then delete (roomId game') games'
          else games'
      | None => games
      end
  | None => games
  end.

(** The events the runtime delivers to a game by itself. *)
Definition runtime_event (e : Event) : bool :=
  match e with
  | ETick | ERoundData _ _ | ERendered _ _ | ERankings _ _ => true
  | _ => false
  end.

(** The events that change who is seated. *)
Definition seating_event (e : Event) : bool :=
  match e with
  | EAddPlayer _ _ | ERemovePlayer _ => true
  | _ => false
  end.

Inductive ServerEvent :=
  | SCreate (socket name : string) (rand : list nat)
  | SJoin (socket name room : string)
  | SAction (socket : string) (rooms : list string) (a : Action)
  | SDisconnect (socket : string) (rooms : list string)
  | SRuntime (room : string) (e : Event).

Definition serverStep (games : gmap string Game) (ev : ServerEvent) : gmap string Game :=
  match ev with
  | SCreate socket name rand =>
      match on_createGame socket name rand games with
      | Some (_, games') => games'
      | None => games
      end
  | SJoin socket name room => snd (on_joinGame socket name room games)
  | SAction socket rooms a => on_action socket rooms a games
  | SDisconnect socket rooms => on_disconnect socket rooms games
  | SRuntime room e =>
      match games !! room with
      | Some game => <[room := final (step game e)]> games
      | None => games
      end
  end.

(** The runtime delivers only its own events, and only when the game can
    take them. *)
Definition ServerEnabled (games : gmap string Game) (ev : ServerEvent) : Prop :=
  match ev with
  | SRuntime room e =>
      runtime_event e = true ∧ ∀ game, games !! room = Some game → Enabled game e
  | _ => True
  end.

Inductive serverReachable : gmap string Game -> Prop :=
  | serverReachable_start : serverReachable ∅
  | serverReachable_step games ev :
      serverReachable games -> ServerEnabled games ev ->
      serverReachable (serverStep games ev).

(** What the registry keeps true of every room: the game is a state the
    engine can reach, it is filed under its own code, and it has a player
    whenever the capacity allows one. *)
Definition room_ok (room : string) (game : Game) : Prop :=
  reachable game ∧ roomId game = room
  ∧ ((1 <= TOTAL_PLAYERS)%nat → (1 <= length (players game))%nat).

End Registry.

(** ** The reveal screen (App.tsx, bundled after the compiled game.js)

    [userCorrectlyIdentifiedDodger]; [me] is [players.find(p => p.id ===
    socket.id)], and [me?.id] of an absent player equals no voter id. *)
Definition userCorrectlyIdentifiedDodger (me : option Player) (s : ServerGameState) : bool :=
  existsb
    (fun v =>
       match me with
       | Some m => String.eqb (voterId v) (pid m)
       | None => false
       end
       && match List.find (fun a => Z.eqb (aid a) (artworkId v)) (s_artworks s) with
          | Some a => isDodger a
          | None => false
          end
       && isYes v)
    (s_votes s).

(** ** The critic (evaluateArtworks of geminiService) *)

Module Critic.

Import Gemini.

(** What [JSON.parse] returned, as far as the callback inspects it: a
    field is [None] when it is missing or falsy. *)
Record Parsed := mkParsed {
  qualityRanking : option (list Z);
  originalityRanking : option (list Z)
}.

(** The callback of [evaluateArtworks]; [parse] stands for
    [JSON.parse(response.text.trim())] followed by the reading of the two
    fields, rejected with whatever either of them throws. *)
Definition evaluationCall (parse : string -> Settled Parsed)
    (sdk : nat -> Settled (option string)) (k : nat) : Settled (list Z * list Z) :=
  match sdk k with
  | Resolved None => Rejected (ErrorObj "AI response text is undefined.")
  | Resolved (Some text) =>
      if String.eqb text EmptyString
      then Rejected (ErrorObj "AI response text is undefined.")
      else match parse text with
           | Resolved parsedResponse =>
               match qualityRanking parsedResponse, originalityRanking parsedResponse with
               | Some q, Some o => Resolved (q, o)
               | _, _ => Rejected (ErrorObj "Invalid response structure from AI evaluation.")
               end
           | Rejected e => Rejected e
           end
  | Rejected e => Rejected e
  end.

(** [evaluateArtworks(artworks, theme)]; [shuffle1] and [shuffle2] are the
    two [sort(() => Math.random() - 0.5)] of the [catch] block. *)
Definition evaluateArtworks (parse : string -> Settled Parsed)
    (sdk : nat -> Settled (option string)) (shuffle1 shuffle2 : list Z -> list Z)
    (artworks : list Artwork) : Settled (list Z * list Z) :=
  match withRetry (evaluationCall parse sdk) with
  | Resolved rankings => Resolved rankings
  | Rejected _ =>
      let shuffledIds := shuffle1 (map aid artworks) in
      Resolved (shuffledIds, shuffle2 shuffledIds)
  end.

(** [isRateLimitError] of [withRetry]. *)
Definition isRateLimitError (error : Thrown) : bool :=
  match errorMessage error with
  | Some msg => includes "429" msg || includes "resource_exhausted" msg
  | None => false
  end.

End Critic.

(** What the roster shows of a player that joining decides. *)
Definition seat (p : Player) : string * string := (pid p, pname p).

(** The quality bonuses an artifact list carries after scoring. *)
Definition totalQuality (arts : list Artwork) : Z :=
  fold_right (fun a n => from_option id 0 (qualityScore a) + n) 0 arts.

Definition totalOriginality (arts : list Artwork) : Z :=
  fold_right (fun a n => from_option id 0 (originalityScore a) + n) 0 arts.

Definition sumZ (l : list Z) : Z := fold_right Z.add 0 l.

(** What a ranking of [n] artifacts hands out in all: 3 + 2 + 1, or as
    much of it as there are artifacts. *)
Definition podium (n : nat) : Z :=
  match n with
  | 0%nat => 0
  | 1%nat => 3
  | 2%nat => 5
  | _ => 6
  end.

(** More sample data. *)
Definition threeFailures (k : nat) : Gemini.Settled (option string) :=
  Gemini.Rejected (Gemini.ErrorObj "quota: RESOURCE_EXHAUSTED").

Definition thirdTimeLucky (k : nat) : Gemini.Settled nat :=
  match k with
  | 2%nat => Gemini.Resolved 7%nat
  | _ => Gemini.Rejected (Gemini.ErrorObj "HTTP 429")
  end.

Definition lobbyRegistry : gmap string Game :=
  @serverStep party
    (@serverStep party ∅ (SCreate "ann" "Ann" [0; 1; 2; 3]%nat))
    (SJoin "bob" "Bob" "ABCD").

(** * Properties *)

(** Evaluates the side conditions of a concrete run. *)
Ltac run_conditions :=
  vm_compute; repeat split; try apply Permutation_refl; repeat constructor.

(** Decides a closed proposition by evaluation. *)
Ltac decided := refine (bool_decide_unpack _ _); vm_compute; exact I.

(** Case analysis on the guards of a method body. *)
Ltac guards :=
  repeat (simpl in *;
          match goal with
          | |- context [match ?x with _ => _ end] => destruct x eqn:?
          end);
  simpl in *.

Section Ledger.

Context {constants : Constants}.

Lemma vote_matches_key p a v : vote_matches p a v = true ↔ vote_key v = (p, a).
Proof.
  unfold vote_matches, vote_key. rewrite andb_true_iff, String.eqb_eq, Z.eqb_eq.
  split; [intros [-> ->]; reflexivity | intros [= -> ->]; split; reflexivity].
Qed.

Lemma voted_iff p a vs :
  existsb (vote_matches p a) vs = true ↔ (p, a) ∈ map vote_key vs.
Proof.
  rewrite existsb_exists, list_elem_of_fmap. split.
  - intros (v & Hin & Hm). exists v. split.
    + symmetry. apply vote_matches_key, Hm.
    + apply list_elem_of_In, Hin.
  - intros (v & Hk & Hin). exists v. split.
    + apply list_elem_of_In, Hin.
    + apply vote_matches_key. symmetry. exact Hk.
Qed.

Lemma not_voted_iff p a vs :
  existsb (vote_matches p a) vs = false ↔ (p, a) ∉ map vote_key vs.
Proof.
  rewrite <- voted_iff. destruct (existsb _ _); split; congruence.
Qed.

(** The synthesized votes extend the ledger; each is a "no" on the current
    artifact by a player of the roster. *)
Lemma synthesize_extends a ps vs :
  ∃ extra, synthesize a ps vs = vs ++ extra
    ∧ Forall (fun v => artworkId v = a ∧ isYes v = false ∧ voterId v ∈ map pid ps) extra.
Proof.
  unfold synthesize. revert vs. induction ps as [|p ps IH]; intros vs; simpl.
  - exists []. split; [symmetry; apply app_nil_r | constructor].
  - destruct (existsb (vote_matches (pid p) a) vs).
    + destruct (IH vs) as (extra & -> & HF). exists extra. split; [reflexivity|].
      eapply Forall_impl; [exact HF|]. simpl. intros v (Ha & Hb & Hc).
      repeat split; try assumption. apply elem_of_cons. right. exact Hc.
    + destruct (IH (vs ++ [mkVote (pid p) a false])) as (extra & -> & HF).
      exists (mkVote (pid p) a false :: extra). split.
      * rewrite <- app_assoc. reflexivity.
      * constructor; [simpl; repeat split; apply elem_of_cons; left; reflexivity|].
        eapply Forall_impl; [exact HF|]. simpl. intros v (Ha & Hb & Hc).
        repeat split; try assumption. apply elem_of_cons. right. exact Hc.
Qed.

Lemma synthesize_unique a ps vs :
  NoDup (map vote_key vs) → NoDup (map vote_key (synthesize a ps vs)).
Proof.
  unfold synthesize. revert vs. induction ps as [|p ps IH]; intros vs Hnd; simpl.
  - exact Hnd.
  - destruct (existsb (vote_matches (pid p) a) vs) eqn:E.
    + apply IH, Hnd.
    + apply IH. rewrite map_app. apply NoDup_app. split; [exact Hnd|]. split.
      * intros k Hk. simpl. intros Hk'. apply list_elem_of_singleton in Hk'. subst k.
        apply not_voted_iff in E. apply E, Hk.
      * simpl. apply NoDup_singleton.
Qed.

Lemma synthesize_covers a ps vs p :
  p ∈ ps → existsb (vote_matches (pid p) a) (synthesize a ps vs) = true.
Proof.
  unfold synthesize. revert vs. induction ps as [|q ps IH]; intros vs Hin.
  - inversion Hin.
  - simpl. apply elem_of_cons in Hin as [-> | Hin]; [|apply IH, Hin].
    match goal with |- context [fold_left ?f ps ?acc] =>
      destruct (synthesize_extends a ps acc) as (extra & Hx & _);
      unfold synthesize in Hx; rewrite Hx
    end.
    rewrite existsb_app. apply orb_true_iff. left.
    destruct (existsb (vote_matches (pid q) a) vs) eqn:E; [exact E|].
    rewrite existsb_app. simpl. unfold vote_matches at 2. simpl.
    rewrite String.eqb_refl, Z.eqb_refl. simpl. apply orb_true_r.
Qed.

Lemma votes_of_app p a vs ws : votes_of p a (vs ++ ws) = votes_of p a vs ++ votes_of p a ws.
Proof. unfold votes_of. apply List.filter_app. Qed.

Lemma votes_of_nil_iff p a vs : votes_of p a vs = [] ↔ (p, a) ∉ map vote_key vs.
Proof.
  rewrite <- not_voted_iff. unfold votes_of. induction vs as [|v vs IH]; simpl.
  - split; reflexivity.
  - destruct (vote_matches p a v); simpl; [split; discriminate | exact IH].
Qed.

Lemma votes_of_unique p a vs :
  NoDup (map vote_key vs) → (p, a) ∈ map vote_key vs → length (votes_of p a vs) = 1%nat.
Proof.
  induction vs as [|v vs IH]; simpl; intros Hnd Hin.
  - inversion Hin.
  - apply NoDup_cons in Hnd as [Hnotin Hnd]. unfold votes_of. simpl.
    destruct (vote_matches p a v) eqn:E.
    + apply vote_matches_key in E. rewrite E in Hnotin.
      apply votes_of_nil_iff in Hnotin. unfold votes_of in Hnotin.
      rewrite Hnotin. reflexivity.
    + apply elem_of_cons in Hin as [Hk | Hin].
      * symmetry in Hk. apply vote_matches_key in Hk. congruence.
      * apply IH; assumption.
Qed.

Lemma ledger_ok_ids (g g' : Game) :
  Permutation (map aid (artworks g')) (map aid (artworks g)) →
  votes g' = votes g → ledger_ok g → ledger_ok g'.
Proof.
  intros Hp Hv (H1 & H2 & H3 & H4). unfold ledger_ok, votes_unique.
  rewrite Hv. repeat split.
  - exact H1.
  - intros v Hin. rewrite Hp. apply H2, Hin.
  - rewrite Hp. exact H3.
  - rewrite Hp in H. apply H4 in H. lia.
  - rewrite (Permutation_length Hp). rewrite Hp in H. apply H4 in H. lia.
Qed.

Lemma ledger_ok_frame (g g' : Game) :
  artworks g' = artworks g → votes g' = votes g → ledger_ok g → ledger_ok g'.
Proof. intros Ha Hv. apply ledger_ok_ids; [rewrite Ha; reflexivity | exact Hv]. Qed.

Lemma ledger_ok_cleared (g' : Game) :
  artworks g' = [] → votes g' = [] → ledger_ok g'.
Proof.
  intros Ha Hv. unfold ledger_ok, votes_unique. rewrite Ha, Hv. simpl.
  repeat split; try apply NoDup_nil_2; intros;
    match goal with Hin : _ ∈ [] |- _ => inversion Hin end.
Qed.

Lemma ledger_ok_synthesize (g g' : Game) (cur : Artwork) :
  cur ∈ artworks g → artworks g' = artworks g →
  votes g' = synthesize (aid cur) (players g) (votes g) →
  ledger_ok g → ledger_ok g'.
Proof.
  intros Hcur Ha Hv (H1 & H2 & H3 & H4). unfold ledger_ok, votes_unique.
  rewrite Ha, Hv. repeat split; try assumption.
  - apply synthesize_unique, H1.
  - intros v Hin.
    destruct (synthesize_extends (aid cur) (players g) (votes g)) as (extra & Hx & HF).
    rewrite Hx in Hin. apply elem_of_app in Hin as [Hin | Hin]; [apply H2, Hin|].
    rewrite Forall_forall in HF. apply HF in Hin as (-> & _).
    apply list_elem_of_fmap. exists cur. split; [reflexivity | exact Hcur].
  - apply H4, H.
  - apply H4, H.
Qed.

Lemma ledger_ok_vote (g g' : Game) (cur : Artwork) voter yes :
  cur ∈ artworks g → artworks g' = artworks g →
  existsb (vote_matches voter (aid cur)) (votes g) = false →
  votes g' = votes g ++ [mkVote voter (aid cur) yes] →
  ledger_ok g → ledger_ok g'.
Proof.
  intros Hcur Ha Hnew Hv (H1 & H2 & H3 & H4). unfold ledger_ok, votes_unique.
  rewrite Ha, Hv. repeat split; try assumption.
  - rewrite map_app. apply NoDup_app. split; [exact H1|]. split.
    + intros k Hk Hk'. simpl in Hk'. apply list_elem_of_singleton in Hk'. subst k.
      apply not_voted_iff in Hnew. apply Hnew, Hk.
    + simpl. apply NoDup_singleton.
  - intros v Hin. apply elem_of_app in Hin as [Hin | Hin]; [apply H2, Hin|].
    apply list_elem_of_singleton in Hin. subst v. simpl.
    apply list_elem_of_fmap. exists cur. split; [reflexivity | exact Hcur].
  - apply H4, H.
  - apply H4, H.
Qed.

Lemma ledger_ok_submit (g g' : Game) (a : Artwork) :
  aid a = Z.of_nat (length (artworks g)) + 1 →
  artworks g' = artworks g ++ [a] → votes g' = votes g →
  ledger_ok g → ledger_ok g'.
Proof.
  intros Hid Ha Hv (H1 & H2 & H3 & H4). unfold ledger_ok, votes_unique.
  rewrite length_map in H4.
  rewrite Ha, Hv, map_app, length_app, length_map. simpl. repeat split.
  - exact H1.
  - intros v Hin. apply elem_of_app. left. apply H2, Hin.
  - apply NoDup_app. split; [exact H3|]. split.
    + intros k Hk Hk'. apply list_elem_of_singleton in Hk'. subst k.
      apply H4 in Hk. lia.
    + apply NoDup_singleton.
  - apply elem_of_app in H as [Hk | Hk]; [apply H4 in Hk; lia|].
    apply list_elem_of_singleton in Hk. lia.
  - apply elem_of_app in H as [Hk | Hk]; [apply H4 in Hk; lia|].
    apply list_elem_of_singleton in Hk. lia.
Qed.

Lemma nextGalleryItem_ledger g : ledger_ok g → ledger_ok (final (nextGalleryItem g)).
Proof.
  intros Hok. unfold nextGalleryItem.
  assert (Hc : artworks (clearTimer g) = artworks g ∧ votes (clearTimer g) = votes g
               ∧ players (clearTimer g) = players g
               ∧ galleryIndex (clearTimer g) = galleryIndex g)
    by (unfold clearTimer; destruct (galleryTimer g); repeat split).
  destruct Hc as (Hc1 & Hc2 & Hc3 & Hc4).
  rewrite Hc1, Hc4.
  destruct (artworks g !! galleryIndex g) as [cur|] eqn:Hcur; simpl.
  - assert (Hin : cur ∈ artworks g) by (eapply list_elem_of_lookup_2; exact Hcur).
    rewrite Hc1, Hc2, Hc3.
    destruct (_ <? _); simpl;
      (eapply ledger_ok_synthesize; [exact Hin | | | exact Hok]);
      unfold startGalleryTimer, runArtEvaluation, clearTimer; guards; reflexivity.
  - eapply ledger_ok_frame; [exact Hc1 | exact Hc2 | exact Hok].
Qed.

Lemma rendered_ids render g : map aid (rendered render g) = map aid (artworks g).
Proof. unfold rendered. rewrite map_map. reflexivity. Qed.

Lemma persistBonus_ids m arts : map aid (map (persistBonus m) arts) = map aid arts.
Proof. rewrite map_map. reflexivity. Qed.

Lemma calculateScores_ids q o g :
  map aid (artworks (calculateScores q o g)) = map aid (artworks g)
  ∧ votes (calculateScores q o g) = votes g.
Proof.
  unfold calculateScores. destruct (List.find isDodger (artworks g)); simpl.
  - split; [apply persistBonus_ids | reflexivity].
  - split; reflexivity.
Qed.

Lemma step_ledger g e : ledger_ok g → Enabled g e → ledger_ok (final (step g e)).
Proof.
  intros Hok Hen. destruct e; simpl.
  - apply (ledger_ok_frame g); [| | exact Hok]; unfold addPlayer; guards; reflexivity.
  - apply (ledger_ok_frame g); [| | exact Hok];
      unfold removePlayer, clearTimer; guards; reflexivity.
  - apply (ledger_ok_frame g); [| | exact Hok];
      unfold startGame, startNewRound; guards; reflexivity.
  - apply (ledger_ok_frame g); [| | exact Hok]; reflexivity.
  - apply (ledger_ok_frame g); [| | exact Hok];
      unfold nextRound, startNewRound; guards; reflexivity.
  - apply (ledger_ok_frame g); [| | exact Hok];
      unfold handlePlayerReady; guards; reflexivity.
  - unfold handlePromptSubmission.
    destruct (List.find _ (players g)) as [p|]; [|exact Hok].
    destruct (promptSubmitted p); [exact Hok|].
    match goal with |- context [artworks ?g0 ++ [?a]] =>
      apply (ledger_ok_submit g _ a); [reflexivity | | | exact Hok] end;
      unfold generateAllArtworks; guards; reflexivity.
  - unfold handleVote.
    destruct (artworks g !! galleryIndex g) as [cur|] eqn:Hcur; [|exact Hok].
    assert (Hin : cur ∈ artworks g) by (eapply list_elem_of_lookup_2; exact Hcur).
    destruct (existsb (vote_matches id (aid cur)) (votes g)) eqn:Hnew; [exact Hok|].
    match goal with |- context [nextGalleryItem ?g0] =>
      assert (Hok1 : ledger_ok g0)
        by (apply (ledger_ok_vote g g0 cur id yes); auto) end.
    destruct (forallb _ _); [apply nextGalleryItem_ledger, Hok1 | exact Hok1].
  - unfold tick. destruct (_ <=? _).
    + apply nextGalleryItem_ledger. eapply ledger_ok_frame; [| |exact Hok]; reflexivity.
    + simpl. eapply ledger_ok_frame; [| |exact Hok]; reflexivity.
  - unfold startNewRound_resume. guards; apply ledger_ok_cleared; reflexivity.
  - destruct Hen as [_ Hperm]. apply (ledger_ok_ids g); [| |exact Hok].
    + unfold generateAllArtworks_resume, startGalleryTimer, clearTimer, deliver.
      guards; rewrite <- (rendered_ids render g); apply Permutation_map;
        symmetry; exact Hperm.
    + unfold generateAllArtworks_resume, startGalleryTimer, clearTimer, deliver.
      guards; reflexivity.
  - unfold runArtEvaluation_resume. simpl.
    destruct (calculateScores_ids qualityRanking originalityRanking (deliver TEvaluate g))
      as [Hi Hv].
    apply (ledger_ok_ids g); cbn [artworks votes set_state];
      [rewrite Hi; reflexivity | rewrite Hv; reflexivity | exact Hok].
Qed.

Lemma reachable_ledger g : reachable g → ledger_ok g.
Proof.
  induction 1 as [room | g e Hr IH Hen].
  - apply ledger_ok_cleared; reflexivity.
  - apply step_ledger; assumption.
Qed.

Lemma reachable_run g es : reachable g → EnabledAll g es → reachable (run g es).
Proof.
  revert g. induction es as [|e es IH]; intros g Hr Hen; simpl in *.
  - exact Hr.
  - destruct Hen as [He Hes]. apply IH; [apply reachable_step; assumption | exact Hes].
Qed.

Lemma synthesize_exactly_one a ps vs (p : Player) :
  NoDup (map vote_key vs) → p ∈ ps →
  length (votes_of (pid p) a (synthesize a ps vs)) = 1%nat
  ∧ votes_of (pid p) a (synthesize a ps vs) =
      match votes_of (pid p) a vs with
      | [] => [mkVote (pid p) a false]
      | cast => cast
      end.
Proof.
  intros Hnd Hin.
  assert (Hone : length (votes_of (pid p) a (synthesize a ps vs)) = 1%nat).
  { apply votes_of_unique; [apply synthesize_unique, Hnd|].
    apply voted_iff, synthesize_covers, Hin. }
  split; [exact Hone|].
  destruct (synthesize_extends a ps vs) as (extra & Hx & HF).
  rewrite Hx, votes_of_app in *. rewrite length_app in Hone.
  destruct (votes_of (pid p) a vs) as [|c l] eqn:Hold; simpl in *.
  - destruct (votes_of (pid p) a extra) as [|v [|w l']] eqn:Hex; simpl in Hone; try lia.
    assert (Hv : v ∈ votes_of (pid p) a extra) by (rewrite Hex; left).
    unfold votes_of in Hv. apply list_elem_of_In, filter_In in Hv as [Hv Hm].
    apply list_elem_of_In in Hv. rewrite Forall_forall in HF.
    apply HF in Hv as (Ha & Hy & _). apply vote_matches_key in Hm.
    destruct v as [vi va vy]. unfold vote_key in Hm. simpl in *.
    injection Hm as -> _. subst. reflexivity.
  - destruct l; simpl in Hone; [|lia].
    destruct (votes_of (pid p) a extra); simpl in Hone; [reflexivity | lia].
Qed.

Lemma nextGalleryItem_votes g cur :
  artworks g !! galleryIndex g = Some cur →
  players (final (nextGalleryItem g)) = players g
  ∧ votes (final (nextGalleryItem g)) = synthesize (aid cur) (players g) (votes g).
Proof.
  intros Hcur. unfold nextGalleryItem.
  assert (Hc : artworks (clearTimer g) = artworks g ∧ votes (clearTimer g) = votes g
               ∧ players (clearTimer g) = players g
               ∧ galleryIndex (clearTimer g) = galleryIndex g)
    by (unfold clearTimer; destruct (galleryTimer g); repeat split).
  destruct Hc as (Hc1 & Hc2 & Hc3 & Hc4).
  rewrite Hc1, Hc4, Hcur. cbn [artworks votes players galleryIndex set_votes].
  rewrite Hc1, Hc2, Hc3.
  destruct (_ <? _); unfold startGalleryTimer, runArtEvaluation, clearTimer;
    guards; split; reflexivity.
Qed.

(** C3.  In every reachable state no (voter, artifact) pair occurs twice in
    the ledger; and when the sequencer moves past the artifact on display,
    by timeout or by a unanimous vote, every player of the roster has
    exactly one vote on it afterwards: the vote the player cast, or a
    synthesized "no" when the player cast none. *)
Theorem ledger_one_vote_per_pair (g : Game) :
  reachable g →
  votes_unique g
  ∧ ∀ cur explicit g', advances g cur explicit g' →
      ∀ p, p ∈ players g' →
        length (votes_of (pid p) (aid cur) (votes g')) = 1%nat
        ∧ votes_of (pid p) (aid cur) (votes g') =
            match votes_of (pid p) (aid cur) explicit with
            | [] => [mkVote (pid p) (aid cur) false]
            | cast => cast
            end.
Proof.
  intros Hr. pose proof (reachable_ledger g Hr) as (Huniq & _).
  split; [exact Huniq|].
  intros cur explicit g' Hadv p Hp.
  destruct Hadv as [Hlive Hcur Htime | voter yes Hcur Hnew Hall].
  - unfold tick in *. cbn [galleryTime set_galleryTime] in *.
    apply Z.leb_le in Htime. rewrite Htime in *.
    destruct (nextGalleryItem_votes (set_galleryTime (galleryTime g - 1) g) cur Hcur)
      as [Hps Hvs].
    rewrite Hps in Hp. rewrite Hvs. cbn [players votes set_galleryTime] in *.
    apply synthesize_exactly_one; assumption.
  - unfold handleVote in *. rewrite Hcur, Hnew in *.
    cbn [players votes set_votes] in *. rewrite Hall in *.
    match goal with |- context [nextGalleryItem ?g0] =>
      destruct (nextGalleryItem_votes g0 cur Hcur) as [Hps Hvs] end.
    rewrite Hps in Hp. rewrite Hvs. cbn [players votes set_votes] in *.
    apply synthesize_exactly_one; [|exact Hp].
    rewrite map_app. apply NoDup_app. split; [exact Huniq|]. split.
    + intros k Hk Hk'. simpl in Hk'. apply list_elem_of_singleton in Hk'. subst k.
      apply not_voted_iff in Hnew. apply Hnew, Hk.
    + simpl. apply NoDup_singleton.
Qed.

End Ledger.

Section Scoring.

Context {constants : Constants}.

Lemma find_id_some (arts : list Artwork) k a :
  List.find (fun x => Z.eqb (aid x) k) arts = Some a → a ∈ arts ∧ aid a = k.
Proof.
  intros H. apply find_some in H as [Hin Hk].
  split; [apply list_elem_of_In, Hin | apply Z.eqb_eq, Hk].
Qed.

Lemma find_id_none (arts : list Artwork) k :
  List.find (fun x => Z.eqb (aid x) k) arts = None → k ∉ map aid arts.
Proof.
  intros H Hin. apply list_elem_of_fmap in Hin as (a & -> & Hin).
  apply list_elem_of_In in Hin.
  pose proof (find_none _ _ H a Hin) as Hk. simpl in Hk.
  rewrite Z.eqb_refl in Hk. discriminate.
Qed.

Lemma find_by_id (arts : list Artwork) a :
  NoDup (map aid arts) → a ∈ arts →
  List.find (fun x => Z.eqb (aid x) (aid a)) arts = Some a.
Proof.
  induction arts as [|x l IH]; simpl; intros Hnd Hin.
  - inversion Hin.
  - apply NoDup_cons in Hnd as [Hx Hnd].
    destruct (Z.eqb_spec (aid x) (aid a)) as [Heq | Hne].
    + apply elem_of_cons in Hin as [-> | Hin]; [reflexivity|].
      exfalso. apply Hx. rewrite Heq. apply list_elem_of_fmap. eauto.
    + apply elem_of_cons in Hin as [-> | Hin]; [congruence|]. apply IH; assumption.
Qed.

(** Under distinct ids, "the artifact with that id" and "some artifact with
    that id" are the same thing. *)
Lemma countsForDodger_false_accusation (arts : list Artwork) v :
  NoDup (map aid arts) → countsForDodger arts v = false_accusation arts v.
Proof.
  intros Hnd. unfold countsForDodger, false_accusation.
  destruct (List.find _ arts) as [a|] eqn:Hf.
  - apply find_id_some in Hf as [Hin Hk]. f_equal.
    destruct (isDodger a) eqn:Hd; simpl.
    + symmetry. apply not_true_is_false. intros Hex.
      apply existsb_exists in Hex as (a' & Hin' & Ha').
      apply andb_true_iff in Ha' as [Hid Hnd'].
      apply Z.eqb_eq in Hid. apply list_elem_of_In in Hin'.
      assert (a' = a).
      { pose proof (find_by_id arts a' Hnd Hin') as H1.
        pose proof (find_by_id arts a Hnd Hin) as H2.
        rewrite Hid, <- Hk, H2 in H1. congruence. }
      subst a'. rewrite Hd in Hnd'. discriminate.
    + symmetry. apply existsb_exists. exists a. split; [apply list_elem_of_In, Hin|].
      rewrite Hk, Z.eqb_refl, Hd. reflexivity.
  - apply find_id_none in Hf. symmetry.
    destruct (isYes v); [|reflexivity]. simpl.
    apply not_true_is_false. intros Hex.
    apply existsb_exists in Hex as (a' & Hin' & Ha').
    apply andb_true_iff in Ha' as [Hid _]. apply Z.eqb_eq in Hid.
    apply Hf. apply list_elem_of_fmap. exists a'.
    split; [congruence | apply list_elem_of_In, Hin'].
Qed.

Lemma countsForRound_countsForDodger (arts : list Artwork) v :
  artworkId v ∈ map aid arts → countsForRound arts v = countsForDodger arts v.
Proof.
  intros Hin. unfold countsForRound, countsForDodger.
  destruct (List.find _ arts) eqn:Hf; [reflexivity|].
  apply find_id_none in Hf. contradiction.
Qed.

Lemma count_loop (f : Vote → bool) vs n :
  fold_left (fun n vote => if f vote then n + 1 else n) vs n
  = n + Z.of_nat (length (List.filter f vs)).
Proof.
  revert n. induction vs as [|v vs IH]; intros n; simpl; [lia|].
  rewrite IH. destruct (f v); simpl length; lia.
Qed.

Lemma dodgerPoints_filter g :
  dodgerPoints g = Z.of_nat (length (List.filter (countsForDodger (artworks g)) (votes g))).
Proof. unfold dodgerPoints. rewrite count_loop. lia. Qed.

Lemma dodgerPoints_deception g :
  NoDup (map aid (artworks g)) → dodgerPoints g = Z.of_nat (deception_count g).
Proof.
  intros Hnd. rewrite dodgerPoints_filter. unfold deception_count. do 2 f_equal.
  apply filter_ext. intros v. apply countsForDodger_false_accusation, Hnd.
Qed.

(** C10.  In every reachable state the [roundPoints] of the snapshot and
    the deception points of the scoring pass agree, and both are the number
    of approving votes whose target artifact exists and is not the
    deviator's. *)
Theorem roundPoints_matches_dodgerPoints (g : Game) :
  reachable g →
  Z.of_nat (roundPoints (getSerializableState g)) = dodgerPoints g
  ∧ roundPoints (getSerializableState g) = deception_count g.
Proof.
  intros Hr. pose proof (reachable_ledger g Hr) as (_ & Htarget & Hnd & _).
  assert (Hrp : roundPoints (getSerializableState g)
                = length (List.filter (countsForDodger (artworks g)) (votes g))).
  { simpl. f_equal. apply filter_ext_in. intros v Hv.
    apply countsForRound_countsForDodger, Htarget, list_elem_of_In, Hv. }
  split.
  - rewrite Hrp. symmetry. apply dodgerPoints_filter.
  - rewrite Hrp. unfold deception_count. f_equal.
    apply filter_ext. intros v. apply countsForDodger_false_accusation, Hnd.
Qed.

(** *** The score map *)

Lemma initScoreMap_loop (arts : list Artwork) (m : gmap Z Bonus) k :
  fold_left (fun m art => <[aid art := mkBonus 0 0]> m) arts m !! k
  = if decide (k ∈ map aid arts) then Some (mkBonus 0 0) else m !! k.
Proof.
  revert m. induction arts as [|a l IH]; intros m; simpl.
  - reflexivity.
  - rewrite IH. destruct (decide (k ∈ map aid l)) as [Hin | Hnin].
    + rewrite decide_True; [reflexivity | right; exact Hin].
    + destruct (decide (aid a = k)) as [<- | Hne].
      * rewrite lookup_insert_eq, decide_True; [reflexivity | left].
      * rewrite lookup_insert_ne by exact Hne.
        rewrite decide_False; [reflexivity|].
        intros Hin. apply elem_of_cons in Hin as [? | ?]; congruence.
Qed.

Lemma initScoreMap_lookup (arts : list Artwork) k :
  k ∈ map aid arts → initScoreMap arts !! k = Some (mkBonus 0 0).
Proof.
  intros Hin. unfold initScoreMap. rewrite initScoreMap_loop, decide_True; auto.
Qed.

(** From the fourth entry on a ranking awards nothing. *)
Lemma applyRanking_beyond upd ranking index (m : gmap Z Bonus) :
  (3 <= index)%nat → applyRanking upd ranking index m = m.
Proof.
  revert index m. induction ranking as [|a r IH]; intros index m Hi; simpl.
  - reflexivity.
  - assert (pointsByRank !! index = None) as ->.
    { apply lookup_ge_None_2. simpl. lia. }
    apply IH. lia.
Qed.

Lemma applyRanking_lookup upd ranking (m : gmap Z Bonus) k :
  NoDup (take 3 ranking) →
  applyRanking upd ranking 0 m !! k
  = match m !! k with
    | None => None
    | Some b =>
        Some (if bool_decide (ranking !! 0%nat = Some k) then upd 3 b
              else if bool_decide (ranking !! 1%nat = Some k) then upd 2 b
              else if bool_decide (ranking !! 2%nat = Some k) then upd 1 b
              else b)
    end.
Proof.
  intros Hnd.
  destruct ranking as [|a [|b [|c rest]]]; simpl in *;
    rewrite ?applyRanking_beyond by lia;
    repeat match goal with
           | H : NoDup (_ :: _) |- _ => apply NoDup_cons in H as [? ?]
           | H : _ ∉ _ :: _ |- _ => apply not_elem_of_cons in H as [? ?]
           end;
    repeat case_match; repeat case_bool_decide;
    repeat match goal with
           | H : Some ?x ≠ Some ?y |- _ => assert (x ≠ y) by congruence; clear H
           end;
    simplify_map_eq; try congruence; reflexivity.
Qed.

Lemma buildScoreMap_lookup q o (arts : list Artwork) k :
  NoDup (take 3 q) → NoDup (take 3 o) → k ∈ map aid arts →
  buildScoreMap q o arts !! k = Some (mkBonus (rank_bonus q k) (rank_bonus o k)).
Proof.
  intros Hq Ho Hin. unfold buildScoreMap.
  rewrite (applyRanking_lookup _ o _ k Ho), (applyRanking_lookup _ q _ k Hq).
  rewrite (initScoreMap_lookup arts k Hin). unfold rank_bonus.
  repeat case_bool_decide; reflexivity.
Qed.

(** With one ledger entry per pair, the vote [find] returns is approving
    exactly when the player approved. *)
Lemma find_vote_cast_yes p a vs :
  NoDup (map vote_key vs) →
  match List.find (vote_matches p a) vs with
  | Some v => isYes v
  | None => false
  end = cast_yes_on p a vs.
Proof.
  unfold cast_yes_on. induction vs as [|v l IH]; simpl; intros Hnd; [reflexivity|].
  apply NoDup_cons in Hnd as [Hv Hnd].
  destruct (vote_matches p a v) eqn:Hm; simpl; [|apply IH, Hnd].
  apply vote_matches_key in Hm. rewrite Hm in Hv.
  assert (existsb (fun v0 => vote_matches p a v0 && isYes v0) l = false) as ->.
  { apply not_true_is_false. intros Hex.
    apply existsb_exists in Hex as (w & Hw & Hmw).
    apply andb_true_iff in Hmw as [Hmw _]. apply vote_matches_key in Hmw.
    apply Hv. apply list_elem_of_fmap. exists w.
    split; [symmetry; exact Hmw | apply list_elem_of_In, Hw]. }
  symmetry. apply orb_false_r.
Qed.

Lemma scoreToAdd_round_delta g d q o p :
  votes_unique g → NoDup (map aid (artworks g)) →
  NoDup (take 3 q) → NoDup (take 3 o) →
  scoreToAdd g d (buildScoreMap q o (artworks g)) p = round_delta g d q o p.
Proof.
  intros Hu Hnd Hq Ho. unfold scoreToAdd, round_delta, is_dodger_role.
  rewrite (find_vote_cast_yes (pid p) (aid d) (votes g) Hu).
  rewrite (dodgerPoints_deception g Hnd).
  destruct (List.find (fun art => String.eqb (playerId art) (pid p)) (artworks g))
    as [own|] eqn:Hown.
  - apply find_some in Hown as [Hin _].
    rewrite (buildScoreMap_lookup q o (artworks g) (aid own) Hq Ho).
    + simpl. destruct (cast_yes_on _ _ _), (bool_decide _); lia.
    + apply list_elem_of_fmap. exists own. split; [reflexivity | apply list_elem_of_In, Hin].
  - destruct (cast_yes_on _ _ _), (bool_decide _); lia.
Qed.

(** C2 (amended).  In a reachable state with a deviator artifact [d], and
    for rankings whose first three entries are distinct, the scoring pass adds
    to each player's score 1 if the player approved [d], plus the number of
    approving votes on non-deviator artifacts if the player is the
    deviator, plus the 3/2/1 quality and originality bonus of the player's
    own artifact; and it records on every artifact its two bonuses. *)
Theorem scoring_pass_formula (g : Game) (q o : list Z) (d : Artwork) :
  reachable g →
  NoDup (take 3 q) → NoDup (take 3 o) →
  List.find isDodger (artworks g) = Some d →
  players (calculateScores q o g)
    = map (fun p => set_score (score p + round_delta g d q o p) p) (players g)
  ∧ artworks (calculateScores q o g)
    = map (fun a => with_bonus (rank_bonus q (aid a)) (rank_bonus o (aid a)) a) (artworks g).
Proof.
  intros Hr Hq Ho Hd. pose proof (reachable_ledger g Hr) as (Hu & _ & Hnd & _).
  unfold calculateScores. rewrite Hd. cbn [players artworks set_artworks set_players].
  split.
  - apply map_ext. intros p. f_equal. f_equal.
    apply scoreToAdd_round_delta; assumption.
  - apply map_ext_in. intros a Hin. unfold persistBonus, with_bonus.
    rewrite (buildScoreMap_lookup q o (artworks g) (aid a) Hq Ho); [reflexivity|].
    apply list_elem_of_fmap. exists a. split; [reflexivity | apply list_elem_of_In, Hin].
Qed.

(** *** Bounds *)

Lemma initScoreMap_bounded (arts : list Artwork) :
  map_Forall (fun _ b => quality b <= 3 ∧ originality b <= 3) (initScoreMap arts).
Proof.
  unfold initScoreMap.
  assert (H : ∀ m : gmap Z Bonus,
             map_Forall (fun _ b => quality b <= 3 ∧ originality b <= 3) m →
             map_Forall (fun _ b => quality b <= 3 ∧ originality b <= 3)
               (fold_left (fun m art => <[aid art := mkBonus 0 0]> m) arts m)).
  { induction arts as [|a l IH]; intros m Hm; simpl; [exact Hm|].
    apply IH. apply map_Forall_insert_2; [simpl; lia | exact Hm]. }
  apply H. apply map_Forall_empty.
Qed.

Lemma applyRanking_bounded upd ranking index (m : gmap Z Bonus) :
  (∀ pts b, pts ∈ pointsByRank → quality b <= 3 ∧ originality b <= 3 →
            quality (upd pts b) <= 3 ∧ originality (upd pts b) <= 3) →
  map_Forall (fun _ b => quality b <= 3 ∧ originality b <= 3) m →
  map_Forall (fun _ b => quality b <= 3 ∧ originality b <= 3)
    (applyRanking upd ranking index m).
Proof.
  intros Hupd. revert index m.
  induction ranking as [|a r IH]; intros index m Hm; simpl; [exact Hm|].
  apply IH. destruct (pointsByRank !! index) as [pts|] eqn:Hpts; [|exact Hm].
  destruct (m !! a) as [cs|] eqn:Hcs; [|exact Hm].
  apply map_Forall_insert_2; [|exact Hm].
  apply Hupd; [eapply list_elem_of_lookup_2; exact Hpts | exact (Hm a cs Hcs)].
Qed.

Lemma pointsByRank_le pts : pts ∈ pointsByRank → pts <= 3.
Proof.
  unfold pointsByRank. intros H.
  repeat (apply elem_of_cons in H as [-> | H]; [lia|]). inversion H.
Qed.

Lemma buildScoreMap_bounded q o (arts : list Artwork) k b :
  buildScoreMap q o arts !! k = Some b → quality b <= 3 ∧ originality b <= 3.
Proof.
  intros Hk.
  assert (Hall : map_Forall (fun _ b => quality b <= 3 ∧ originality b <= 3)
                   (buildScoreMap q o arts)).
  { unfold buildScoreMap. apply applyRanking_bounded.
    - intros pts b0 Hpts [Hq Ho]. simpl. split; [exact Hq | apply pointsByRank_le, Hpts].
    - apply applyRanking_bounded.
      + intros pts b0 Hpts [Hq Ho]. simpl. split; [apply pointsByRank_le, Hpts | exact Ho].
      + apply initScoreMap_bounded. }
  exact (Hall k b Hk).
Qed.

Lemma filter_keys_unique {A B} (key : A → B) (f : A → bool) (vs : list A) :
  NoDup (map key vs) → NoDup (map key (List.filter f vs)).
Proof.
  induction vs as [|v l IH]; simpl; intros Hnd; [exact Hnd|].
  apply NoDup_cons in Hnd as [Hv Hnd]. destruct (f v); simpl; [|apply IH, Hnd].
  apply NoDup_cons_2; [|apply IH, Hnd].
  intros Hin. apply Hv. apply list_elem_of_fmap in Hin as (w & Hk & Hw).
  apply list_elem_of_fmap. exists w. split; [exact Hk|].
  apply list_elem_of_In. apply list_elem_of_In, filter_In in Hw as [Hw _]. exact Hw.
Qed.

Lemma filter_drops_found {A} (f : A → bool) (l : list A) d :
  List.find f l = Some d →
  (length (List.filter (fun x => negb (f x)) l) < length l)%nat.
Proof.
  induction l as [|x l IH]; simpl; [discriminate|].
  destruct (f x); simpl.
  - intros _. pose proof (filter_length_le (fun x => negb (f x)) l). lia.
  - intros H. apply IH in H. lia.
Qed.

(** Every counted vote pairs a voter with a non-deviator artifact, and no
    pair is counted twice. *)
Lemma dodgerPoints_bound g d :
  votes_unique g →
  (∀ v, v ∈ votes g → voterId v ∈ map pid (players g)) →
  List.find isDodger (artworks g) = Some d →
  dodgerPoints g
  <= Z.of_nat (length (players g)) * (Z.of_nat (length (artworks g)) - 1).
Proof.
  intros Hu Hroster Hd. rewrite dodgerPoints_filter.
  set (counted := List.filter (countsForDodger (artworks g)) (votes g)).
  set (others := List.filter (fun a => negb (isDodger a)) (artworks g)).
  set (pairs := list_prod (map pid (players g)) (map aid others)).
  assert (Hle : (length (map vote_key counted) <= length pairs)%nat).
  { apply submseteq_length, NoDup_submseteq; [apply filter_keys_unique, Hu|].
    intros k Hk. apply list_elem_of_fmap in Hk as (v & -> & Hv).
    apply list_elem_of_In, filter_In in Hv as [Hv Hc].
    apply list_elem_of_In. apply in_prod.
    - apply list_elem_of_In, Hroster, list_elem_of_In, Hv.
    - unfold countsForDodger in Hc. revert Hc.
      destruct (List.find (fun art => Z.eqb (aid art) (artworkId v)) (artworks g))
        as [a|] eqn:Hf; [|discriminate].
      intros Hc.
      apply andb_true_iff in Hc as [_ Hnd]. apply find_id_some in Hf as [Hin Hid].
      rewrite <- Hid. apply in_map. apply filter_In.
      split; [apply list_elem_of_In, Hin | exact Hnd]. }
  pose proof (filter_drops_found isDodger (artworks g) d Hd) as Hlt.
  fold others in Hlt. unfold pairs in Hle.
  rewrite length_prod, !length_map in Hle. nia.
Qed.

Lemma scoreToAdd_bound g d q o p :
  scoreToAdd g d (buildScoreMap q o (artworks g)) p <= 1 + Z.max 0 (dodgerPoints g) + 3 + 3.
Proof.
  unfold scoreToAdd.
  repeat match goal with
         | |- context [match ?x with _ => _ end] => destruct x eqn:?
         end;
    try match goal with
        | H : buildScoreMap _ _ _ !! _ = Some _ |- _ =>
            apply buildScoreMap_bounded in H
        end; lia.
Qed.

(** C7 (amended).  In a reachable state with [N] players, at most [N]
    artifacts and a ledger whose voters all sit in the roster, the scoring
    pass raises no score by more than 1 + N * (N - 1) + 3 + 3. *)
Theorem score_delta_bound (g : Game) (q o : list Z) (N i : nat) (p p' : Player) :
  reachable g →
  (∀ v, v ∈ votes g → voterId v ∈ map pid (players g)) →
  length (players g) = N → (length (artworks g) <= N)%nat →
  players g !! i = Some p →
  players (calculateScores q o g) !! i = Some p' →
  score p' - score p <= 1 + Z.of_nat N * (Z.of_nat N - 1) + 3 + 3.
Proof.
  intros Hr Hroster Hn Ha Hp Hp'. pose proof (reachable_ledger g Hr) as (Hu & _).
  unfold calculateScores in Hp'.
  destruct (List.find isDodger (artworks g)) as [d|] eqn:Hd.
  - cbn [players set_artworks set_players] in Hp'.
    rewrite list_lookup_fmap, Hp in Hp'. simpl in Hp'. injection Hp' as <-. simpl.
    pose proof (scoreToAdd_bound g d q o p) as Hs.
    pose proof (dodgerPoints_bound g d Hu Hroster Hd) as Hdp.
    pose proof (filter_drops_found isDodger (artworks g) d Hd) as Hlt.
    rewrite Hn in Hdp. nia.
  - rewrite Hp in Hp'. injection Hp' as <-. nia.
Qed.

End Scoring.

Section Deviator.

Context {constants : Constants}.

Lemma filter_length_view {A B} (f : A → bool) (h : B → bool) (view : A → B) (l : list A) :
  (∀ a, f a = h (view a)) →
  length (List.filter f l) = length (List.filter h (map view l)).
Proof.
  intros Hv. induction l as [|a l IH]; simpl; [reflexivity|].
  rewrite Hv. destruct (h (view a)); simpl; congruence.
Qed.

Lemma existsb_view {A B} (f : A → bool) (h : B → bool) (view : A → B) (l : list A) :
  (∀ a, f a = h (view a)) → existsb f l = existsb h (map view l).
Proof.
  intros Hv. induction l as [|a l IH]; simpl; [reflexivity|].
  rewrite Hv, IH. reflexivity.
Qed.

Lemma filter_length_perm {A} (f : A → bool) (l1 l2 : list A) :
  Permutation l1 l2 → length (List.filter f l1) = length (List.filter f l2).
Proof.
  induction 1 as [|x l l' _ IH|x y l|l l' l'' _ IH1 _ IH2]; simpl.
  - reflexivity.
  - destruct (f x); simpl; congruence.
  - destruct (f x), (f y); reflexivity.
  - congruence.
Qed.

Lemma filter_none {A} (f : A → bool) (l : list A) :
  (∀ a, a ∈ l → f a = false) → List.filter f l = [].
Proof.
  induction l as [|a l IH]; simpl; intros H; [reflexivity|].
  rewrite (H a (list_elem_of_here a l)). apply IH. intros b Hb. apply H. right. exact Hb.
Qed.

Lemma same_view_player (l l' : list Player) p :
  map player_view l' = map player_view l → p ∈ l' →
  ∃ p0, p0 ∈ l ∧ pid p0 = pid p ∧ role p0 = role p.
Proof.
  intros Hv Hin.
  assert (H : player_view p ∈ map player_view l')
    by (apply list_elem_of_fmap; eauto).
  rewrite Hv in H. apply list_elem_of_fmap in H as (p0 & E & Hin0).
  unfold player_view in E. injection E as E1 E2 E3. eauto.
Qed.

Lemma same_view_artwork (l l' : list Artwork) a :
  Permutation (map artwork_view l') (map artwork_view l) → a ∈ l' →
  ∃ a0, a0 ∈ l ∧ playerId a0 = playerId a ∧ isDodger a0 = isDodger a.
Proof.
  intros Hv Hin.
  assert (H : artwork_view a ∈ map artwork_view l')
    by (apply list_elem_of_fmap; eauto).
  rewrite Hv in H. apply list_elem_of_fmap in H as (a0 & E & Hin0).
  unfold artwork_view in E. injection E as E1 E2. eauto.
Qed.

(** The invariant reads players and artifacts through their views only,
    and the artifacts in any order. *)
Lemma deviator_ok_views (g g' : Game) :
  map player_view (players g') = map player_view (players g) →
  Permutation (map artwork_view (artworks g')) (map artwork_view (artworks g)) →
  dodgerId g' = dodgerId g →
  deviator_ok g → deviator_ok g'.
Proof.
  intros Hp Ha Hd (J1 & J2 & J3 & J4).
  unfold deviator_ok. rewrite Hd. repeat apply conj.
  - rewrite (filter_length_view is_dodger_role
               (fun v : string * PlayerRole * bool => bool_decide (v.1.2 = Dodger))
               player_view) in J1 |- * by reflexivity.
    rewrite Hp. exact J1.
  - intros p Hin Hrole.
    destruct (same_view_player _ _ p Hp Hin) as (p0 & Hin0 & E1 & E2).
    rewrite <- E1. apply J2; congruence.
  - intros a Hin Hflag.
    destruct (same_view_artwork _ _ a Ha Hin) as (a0 & Hin0 & E1 & E2).
    rewrite <- E1. apply J3; congruence.
  - rewrite (filter_length_view isDodger snd artwork_view) in J4 |- * by reflexivity.
    rewrite (filter_length_perm snd _ _ Ha), J4.
    rewrite !(existsb_view submitted_dodger
                (fun v : string * PlayerRole * bool => bool_decide (v.1.2 = Dodger) && v.2)
                player_view) by reflexivity.
    rewrite Hp. reflexivity.
Qed.

Lemma deviator_ok_frame (g g' : Game) :
  players g' = players g → artworks g' = artworks g → dodgerId g' = dodgerId g →
  deviator_ok g → deviator_ok g'.
Proof.
  intros Hp Ha Hd. apply deviator_ok_views; [rewrite Hp | rewrite Ha | exact Hd];
    reflexivity.
Qed.

Lemma nextGalleryItem_frame g :
  players (final (nextGalleryItem g)) = players g
  ∧ artworks (final (nextGalleryItem g)) = artworks g
  ∧ dodgerId (final (nextGalleryItem g)) = dodgerId g.
Proof.
  unfold nextGalleryItem, startGalleryTimer, runArtEvaluation, clearTimer.
  guards; repeat split.
Qed.

(** The holder of the role is one player: two players who both hold it are
    the same entry of the roster. *)
Lemma sole_dodger (ps : list Player) p q :
  length (List.filter is_dodger_role ps) = 1%nat →
  p ∈ ps → q ∈ ps → is_dodger_role p = true → is_dodger_role q = true → p = q.
Proof.
  intros Hone Hp Hq Hdp Hdq.
  assert (Hp' : In p (List.filter is_dodger_role ps))
    by (apply filter_In; split; [apply list_elem_of_In, Hp | exact Hdp]).
  assert (Hq' : In q (List.filter is_dodger_role ps))
    by (apply filter_In; split; [apply list_elem_of_In, Hq | exact Hdq]).
  destruct (List.filter is_dodger_role ps) as [|x [|y l]]; simpl in Hone; try lia.
  destruct Hp' as [<- | []], Hq' as [<- | []]. reflexivity.
Qed.

Lemma mark_submitted_roles id (ps : list Player) :
  map (fun p => (pid p, role p)) (mark_submitted id ps)
  = map (fun p => (pid p, role p)) ps.
Proof.
  induction ps as [|q l IH]; simpl; [reflexivity|].
  destruct (String.eqb (pid q) id); simpl; [reflexivity | f_equal; exact IH].
Qed.

Lemma mark_submitted_existsb id (ps : list Player) p :
  List.find (fun q => String.eqb (pid q) id) ps = Some p →
  existsb submitted_dodger (mark_submitted id ps)
  = existsb submitted_dodger ps || is_dodger_role p.
Proof.
  induction ps as [|q l IH]; simpl; [discriminate|].
  destruct (String.eqb (pid q) id); simpl.
  - intros [= ->]. unfold submitted_dodger. simpl.
    change (is_dodger_role (set_promptSubmitted true p)) with (is_dodger_role p).
    destruct (is_dodger_role p), (promptSubmitted p), (existsb _ l); reflexivity.
  - intros Hf. rewrite (IH Hf).
    destruct (submitted_dodger q), (existsb _ l), (is_dodger_role p); reflexivity.
Qed.

Lemma deviator_ok_submit g player text :
  deviator_ok g → deviator_ok (handlePromptSubmission player text g).
Proof.
  intros Hok. unfold handlePromptSubmission.
  destruct (List.find (fun p => String.eqb (pid p) player) (players g)) as [p|] eqn:Hf;
    [|exact Hok].
  destruct (promptSubmitted p) eqn:Hsub; [exact Hok|].
  pose proof (mark_submitted_existsb player (players g) p Hf) as Hex.
  apply find_some in Hf as [Hin Hpid]. apply list_elem_of_In in Hin.
  apply String.eqb_eq in Hpid.
  match goal with |- deviator_ok (if _ then generateAllArtworks ?g2 else ?g2) =>
    assert (Hok2 : deviator_ok g2) end.
  { destruct Hok as (J1 & J2 & J3 & J4).
    unfold deviator_ok. cbn [players artworks dodgerId set_players set_artworks].
    pose proof (mark_submitted_roles player (players g)) as Hroles.
    repeat apply conj.
    - rewrite (filter_length_view is_dodger_role
                 (fun v : string * PlayerRole => bool_decide (v.2 = Dodger))
                 (fun p => (pid p, role p))) in J1 |- * by reflexivity.
      rewrite Hroles. exact J1.
    - intros q Hq Hrole.
      assert (H : (pid q, role q) ∈ map (fun p => (pid p, role p)) (players g)).
      { rewrite <- Hroles. apply list_elem_of_fmap. eauto. }
      apply list_elem_of_fmap in H as (q0 & E & Hq0). injection E as E1 E2.
      rewrite E1. apply J2; congruence.
    - intros a Ha Hflag. apply elem_of_app in Ha as [Ha | Ha]; [apply J3; assumption|].
      apply list_elem_of_singleton in Ha. subst a. simpl in *.
      unfold is_dodger_role in Hflag. apply bool_decide_eq_true in Hflag.
      rewrite <- Hpid. apply J2; assumption.
    - rewrite List.filter_app, length_app, J4, Hex. simpl.
      destruct (is_dodger_role p) eqn:Hd; simpl.
      + assert (existsb submitted_dodger (players g) = false) as ->; [|reflexivity].
        apply not_true_is_false. intros Hsd.
        apply existsb_exists in Hsd as (q & Hq & Hsq).
        apply andb_true_iff in Hsq as [Hdq Hsq]. apply list_elem_of_In in Hq.
        rewrite (sole_dodger (players g) p q J1 Hin Hq Hd Hdq) in Hsub. congruence.
      + rewrite orb_false_r. destruct (existsb _ _); reflexivity. }
  destruct (forallb _ _); [|exact Hok2].
  eapply deviator_ok_frame; [| | | exact Hok2]; reflexivity.
Qed.

Lemma deviator_ok_add g id name : deviator_ok g → deviator_ok (addPlayer id name g).
Proof.
  intros Hok. unfold addPlayer.
  destruct (_ <=? _)%nat; [exact Hok|].
  destruct Hok as (J1 & J2 & J3 & J4).
  unfold deviator_ok. cbn [players artworks dodgerId set_players]. repeat apply conj.
  - rewrite List.filter_app, length_app, J1. reflexivity.
  - intros q Hq Hrole. apply elem_of_app in Hq as [Hq | Hq]; [apply J2; assumption|].
    apply list_elem_of_singleton in Hq. subst q. discriminate.
  - exact J3.
  - rewrite J4, existsb_app. simpl. rewrite !orb_false_r. reflexivity.
Qed.

Lemma filter_filter_implied {A} (f keep : A → bool) (l : list A) :
  (∀ a, a ∈ l → f a = true → keep a = true) →
  List.filter f (List.filter keep l) = List.filter f l.
Proof.
  induction l as [|a l IH]; simpl; intros H; [reflexivity|].
  assert (IH' : List.filter f (List.filter keep l) = List.filter f l)
    by (apply IH; intros b Hb; apply H; right; exact Hb).
  destruct (keep a) eqn:Hk; simpl; [rewrite IH'; reflexivity|].
  destruct (f a) eqn:Hfa; [|exact IH'].
  rewrite (H a (list_elem_of_here a l) Hfa) in Hk. discriminate.
Qed.

Lemma deviator_ok_remove g id :
  dodgerId g ≠ Some id → deviator_ok g → deviator_ok (removePlayer id g).
Proof.
  intros Hkeep (J1 & J2 & J3 & J4).
  set (keep := fun p => negb (String.eqb (pid p) id)).
  assert (Hstays : ∀ p, p ∈ players g → is_dodger_role p = true → keep p = true).
  { intros p Hp Hd. unfold keep. destruct (String.eqb_spec (pid p) id) as [Heq|]; [|reflexivity].
    exfalso. apply Hkeep. rewrite <- Heq. apply J2; [exact Hp|].
    apply bool_decide_eq_true in Hd. exact Hd. }
  assert (Hfil : ∀ f : Player → bool, (∀ p, f p = true → is_dodger_role p = true) →
                 List.filter f (List.filter keep (players g)) = List.filter f (players g)).
  { intros f Hf. apply filter_filter_implied. intros p Hp Hfp.
    apply Hstays; [exact Hp | apply Hf, Hfp]. }
  assert (Hok : deviator_ok (set_players (List.filter keep (players g)) g)).
  { unfold deviator_ok. cbn [players artworks dodgerId set_players]. repeat apply conj.
    - rewrite Hfil; [exact J1 | auto].
    - intros q Hq. apply J2. apply list_elem_of_In.
      apply list_elem_of_In, filter_In in Hq as [Hq _]. exact Hq.
    - exact J3.
    - rewrite J4.
      assert (Hex : ∀ l : list Player,
                 existsb submitted_dodger l
                 = negb (Nat.eqb (length (List.filter submitted_dodger l)) 0)).
      { intros l. induction l as [|q l IH]; simpl; [reflexivity|].
        destruct (submitted_dodger q); simpl; [reflexivity | exact IH]. }
      rewrite !Hex, Hfil; [reflexivity|].
      intros p Hp. apply andb_true_iff in Hp as [Hp _]. exact Hp. }
  unfold removePlayer. fold keep.
  destruct (_ =? _)%nat; [|exact Hok].
  eapply deviator_ok_frame; [| | | exact Hok];
    unfold clearTimer; guards; reflexivity.
Qed.

Lemma insert_sole_dodger (l : list Player) i x :
  (∀ q, q ∈ l → is_dodger_role q = false) → (i < length l)%nat →
  is_dodger_role x = true →
  length (List.filter is_dodger_role (<[i := x]> l)) = 1%nat.
Proof.
  revert i. induction l as [|a l IH]; intros i Hall Hi Hx; simpl in Hi; [lia|].
  destruct i as [|i]; simpl.
  - rewrite Hx. simpl. rewrite filter_none; [reflexivity|].
    intros b Hb. apply Hall. right. exact Hb.
  - rewrite (Hall a (list_elem_of_here a l)). apply IH; [|lia|exact Hx].
    intros b Hb. apply Hall. right. exact Hb.
Qed.

Lemma elem_of_insert_inv {A} (l : list A) i x y :
  y ∈ <[i := x]> l → y = x ∨ y ∈ l.
Proof.
  revert i. induction l as [|a l IH]; intros i Hy; simpl in Hy.
  - inversion Hy.
  - destruct i as [|i]; simpl in Hy; apply elem_of_cons in Hy as [-> | Hy].
    + left. reflexivity.
    + right. right. exact Hy.
    + right. left.
    + destruct (IH i Hy) as [-> | Hin]; [left; reflexivity | right; right; exact Hin].
Qed.

(** Round setup on a roster that is not empty establishes the invariant. *)
Lemma deviator_ok_setup g rd dodgerIndex g' :
  startNewRound_resume rd dodgerIndex g = Returned g' → deviator_ok g'.
Proof.
  unfold startNewRound_resume.
  cbn [players set_readyPlayers set_galleryIndex set_votes set_artworks set_roundData].
  set (reset := fun p => set_promptSubmitted false (set_role Artist p)).
  destruct (map reset (players g) !! dodgerIndex) as [d|] eqn:Hd; [|discriminate].
  intros [= <-].
  unfold deviator_ok.
  cbn [players artworks dodgerId set_state set_dodgerId set_players set_readyPlayers
       set_galleryIndex set_votes set_artworks set_roundData].
  assert (Hlt : (dodgerIndex < length (map reset (players g)))%nat)
    by (eapply lookup_lt_Some; exact Hd).
  assert (Hreset : ∀ q, q ∈ map reset (players g) →
                        role q = Artist ∧ promptSubmitted q = false).
  { intros q Hq. apply list_elem_of_fmap in Hq as (q0 & -> & _). split; reflexivity. }
  assert (Hd' : d ∈ map reset (players g)) by (eapply list_elem_of_lookup_2; exact Hd).
  repeat apply conj.
  - apply insert_sole_dodger; [|exact Hlt|reflexivity].
    intros q Hq. unfold is_dodger_role. apply bool_decide_eq_false.
    destruct (Hreset q Hq) as [-> _]. discriminate.
  - intros q Hq Hrole. apply elem_of_insert_inv in Hq as [-> | Hq]; [reflexivity|].
    destruct (Hreset q Hq) as [Hr _]. congruence.
  - intros a Ha. inversion Ha.
  - simpl. assert (existsb submitted_dodger
                     (<[dodgerIndex := set_role Dodger d]> (map reset (players g))) = false)
      as ->; [|reflexivity].
    apply not_true_is_false. intros Hex. apply existsb_exists in Hex as (q & Hq & Hsq).
    apply andb_true_iff in Hsq as [_ Hsq]. apply list_elem_of_In in Hq.
    apply elem_of_insert_inv in Hq as [-> | Hq].
    + simpl in Hsq. destruct (Hreset d Hd') as [_ Hs]. congruence.
    + destruct (Hreset q Hq) as [_ Hs]. congruence.
Qed.

Lemma rescored_view (f : Player → Z) (ps : list Player) :
  map player_view (map (fun p => set_score (f p) p) ps) = map player_view ps.
Proof. rewrite map_map. reflexivity. Qed.

Lemma step_deviator g e :
  deviator_ok g → Enabled g e → Undisturbed g e → deviator_ok (final (step g e)).
Proof.
  intros Hok Hen Hun. destruct e; simpl in Hun |- *.
  - apply deviator_ok_add, Hok.
  - apply deviator_ok_remove; assumption.
  - unfold startGame. destruct (bool_decide _); [|exact Hok].
    apply (deviator_ok_views g); [apply (rescored_view (fun _ => 0)) | reflexivity
                                  | reflexivity | exact Hok].
  - apply (deviator_ok_views g); [apply (rescored_view (fun _ => 0)) | reflexivity
                                  | reflexivity | exact Hok].
  - apply (deviator_ok_frame g); [| | | exact Hok];
      unfold nextRound, startNewRound; guards; reflexivity.
  - apply (deviator_ok_frame g); [| | | exact Hok];
      unfold handlePlayerReady; guards; reflexivity.
  - apply deviator_ok_submit, Hok.
  - unfold handleVote.
    destruct (artworks g !! galleryIndex g) as [cur|]; [|exact Hok].
    destruct (existsb _ (votes g)); [exact Hok|].
    destruct (forallb _ _); [|apply (deviator_ok_frame g); auto].
    match goal with |- context [nextGalleryItem ?g0] =>
      destruct (nextGalleryItem_frame g0) as (H1 & H2 & H3) end.
    apply (deviator_ok_frame g); [rewrite H1 | rewrite H2 | rewrite H3 | exact Hok];
      reflexivity.
  - unfold tick. destruct (_ <=? _); [|apply (deviator_ok_frame g); auto].
    match goal with |- context [nextGalleryItem ?g0] =>
      destruct (nextGalleryItem_frame g0) as (H1 & H2 & H3) end.
    apply (deviator_ok_frame g); [rewrite H1 | rewrite H2 | rewrite H3 | exact Hok];
      reflexivity.
  - destruct (startNewRound_resume rd dodgerIndex (deliver TRoundData g)) as [g'|g'] eqn:Hs.
    + apply (deviator_ok_setup (deliver TRoundData g) rd dodgerIndex g' Hs).
    + exfalso. destruct Hen as [_ Hlt]. destruct Hok as (J1 & _).
      unfold startNewRound_resume in Hs. revert Hs.
      cbn [players deliver set_pending set_readyPlayers set_galleryIndex set_votes
           set_artworks set_roundData].
      destruct (map _ (players g) !! dodgerIndex) eqn:Hl; [discriminate|].
      apply lookup_ge_None in Hl. rewrite length_map in Hl.
      destruct (players g); [simpl in J1; discriminate | simpl in *; lia].
  - destruct Hen as [_ Hperm].
    apply (deviator_ok_views g); [| | |exact Hok].
    + unfold generateAllArtworks_resume, startGalleryTimer, clearTimer, deliver.
      guards; reflexivity.
    + assert (Hv : map artwork_view (rendered render g) = map artwork_view (artworks g))
        by (unfold rendered; rewrite map_map; reflexivity).
      unfold generateAllArtworks_resume, startGalleryTimer, clearTimer, deliver.
      guards; rewrite <- Hv; apply Permutation_map; symmetry; exact Hperm.
    + unfold generateAllArtworks_resume, startGalleryTimer, clearTimer, deliver.
      guards; reflexivity.
  - unfold runArtEvaluation_resume, calculateScores.
    cbn [artworks deliver set_pending].
    destruct (List.find isDodger (artworks g)) as [d|];
      [|apply (deviator_ok_frame g); auto].
    apply (deviator_ok_views g); [| | reflexivity | exact Hok].
    + cbn [players set_state set_artworks set_players deliver set_pending].
      apply (rescored_view (fun p => score p + _)).
    + cbn [artworks set_state set_artworks set_players].
      rewrite map_map. reflexivity.
Qed.

Lemma active_deviator_ok g : active g → deviator_ok g.
Proof.
  induction 1 as [g rd i g' Hr Hen Hs | g e Ha IH Hen Hun].
  - simpl in Hs. apply (deviator_ok_setup (deliver TRoundData g) rd i g' Hs).
  - apply step_deviator; assumption.
Qed.

Lemma active_run g es :
  active g → EnabledAll g es → UndisturbedAll g es → active (run g es).
Proof.
  revert g. induction es as [|e es IH]; intros g Ha Hen Hun; simpl in *.
  - exact Ha.
  - destruct Hen as [He Hes], Hun as [Hu Hus].
    apply IH; [apply active_step; assumption | exact Hes | exact Hus].
Qed.

(** C4 (amended).  From the completion of a round setup on, and as long
    as the deviator is not removed from the roster, exactly one player of
    the roster holds the deviator role and [dodgerId] is that player's id;
    and once every player has submitted, exactly one artifact carries the
    deviator flag and its author is [dodgerId]. *)
Theorem one_deviator_while_active (g : Game) :
  active g →
  length (List.filter is_dodger_role (players g)) = 1%nat
  ∧ (∀ p, p ∈ players g → role p = Dodger → dodgerId g = Some (pid p))
  ∧ (forallb promptSubmitted (players g) = true →
       length (List.filter isDodger (artworks g)) = 1%nat
       ∧ ∀ a, a ∈ artworks g → isDodger a = true → dodgerId g = Some (playerId a)).
Proof.
  intros Ha. destruct (active_deviator_ok g Ha) as (J1 & J2 & J3 & J4).
  split; [exact J1|]. split; [exact J2|].
  intros Hall. split; [|exact J3].
  rewrite J4.
  assert (existsb submitted_dodger (players g) = true) as ->; [|reflexivity].
  destruct (List.filter is_dodger_role (players g)) as [|d l] eqn:Hf;
    [simpl in J1; discriminate|].
  assert (Hd : In d (List.filter is_dodger_role (players g)))
    by (rewrite Hf; left; reflexivity).
  apply filter_In in Hd as [Hd Hrole].
  apply existsb_exists. exists d. split; [exact Hd|].
  unfold submitted_dodger. rewrite Hrole. simpl.
  rewrite forallb_forall in Hall. apply Hall, Hd.
Qed.

End Deviator.

Section Barrier.

Context {constants : Constants}.

Lemma handlePlayerReady_effect player g :
  players (handlePlayerReady player g) = players g
  ∧ readyPlayers (handlePlayerReady player g) = {[player]} ∪ readyPlayers g
  ∧ (state (handlePlayerReady player g) = PROMPTING
     ↔ state g = PROMPTING
       ∨ size ({[player]} ∪ readyPlayers g) = length (players g)).
Proof.
  unfold handlePlayerReady.
  cbn [players readyPlayers set_readyPlayers].
  destruct (Nat.eqb_spec (size ({[player]} ∪ readyPlayers g)) (length (players g)))
    as [Heq | Hne]; cbn [players readyPlayers state set_state set_readyPlayers].
  - repeat split; auto.
  - repeat split; auto. intros [H | H]; [exact H | contradiction].
Qed.

(** A set of seated ids as large as the roster is the whole roster, and
    the roster then has no id twice. *)
Lemma full_house (X : gset string) (ids : list string) :
  (∀ x, x ∈ X → x ∈ ids) → size X = length ids →
  NoDup ids ∧ ∀ x, x ∈ ids → x ∈ X.
Proof.
  intros Hsub Hsize.
  assert (Hperm : elements X ≡ₚ ids).
  { apply submseteq_length_Permutation.
    - apply NoDup_submseteq; [apply NoDup_elements|].
      intros x Hx. apply Hsub, elem_of_elements, Hx.
    - unfold size, set_size in Hsize. simpl in Hsize. lia. }
  split.
  - rewrite <- Hperm. apply NoDup_elements.
  - intros x Hx. apply elem_of_elements. rewrite Hperm. exact Hx.
Qed.

Lemma full_house_size (X : gset string) (ids : list string) :
  NoDup ids → (∀ x, x ∈ X → x ∈ ids) → (∀ x, x ∈ ids → x ∈ X) →
  size X = length ids.
Proof.
  intros Hnd Hsub Hall.
  assert (HX : X = list_to_set ids).
  { apply set_eq. intros x. rewrite elem_of_list_to_set. split; auto. }
  rewrite HX. apply size_list_to_set, Hnd.
Qed.

(** C5 (amended).  A ready signal received during the briefing opens the
    barrier exactly when, the caller included, the ready set has as many
    members as the roster has players.  When every member of the ready set
    is seated (no player who signaled has left), an open barrier implies
    that every player of the roster is in the ready set; and when moreover
    the roster's ids are distinct, the barrier opens as soon as every
    player of the roster is in the ready set. *)
Theorem readiness_barrier (g : Game) (player : string) :
  state g = BRIEFING →
  (state (handlePlayerReady player g) = PROMPTING
   ↔ size (readyPlayers (handlePlayerReady player g))
     = length (players (handlePlayerReady player g)))
  ∧ ((∀ x, x ∈ readyPlayers (handlePlayerReady player g) →
           x ∈ map pid (players (handlePlayerReady player g))) →
     (state (handlePlayerReady player g) = PROMPTING →
      ∀ p, p ∈ players (handlePlayerReady player g) →
           pid p ∈ readyPlayers (handlePlayerReady player g))
     ∧ (NoDup (map pid (players (handlePlayerReady player g))) →
        (∀ p, p ∈ players (handlePlayerReady player g) →
              pid p ∈ readyPlayers (handlePlayerReady player g)) →
        state (handlePlayerReady player g) = PROMPTING)).
Proof.
  intros Hb. destruct (handlePlayerReady_effect player g) as (Hp & Hr & Hs).
  rewrite Hp, Hr in *.
  assert (Hopen : state (handlePlayerReady player g) = PROMPTING
                  ↔ size ({[player]} ∪ readyPlayers g) = length (players g)).
  { rewrite Hs. split; [intros [H | H]; [congruence | exact H] | auto]. }
  split; [exact Hopen|].
  intros Hsub. rewrite Hopen. rewrite <- (length_map pid (players g)). split.
  - intros Hsize p Hin.
    apply (full_house _ _ Hsub Hsize), list_elem_of_fmap. eauto.
  - intros Hnd Hall. apply full_house_size; [exact Hnd | exact Hsub |].
    intros x Hx. apply list_elem_of_fmap in Hx as (p & -> & Hin). apply Hall, Hin.
Qed.

End Barrier.

Section Submission.

Context {constants : Constants}.

Lemma find_mark_submitted id (ps : list Player) p :
  List.find (fun q => String.eqb (pid q) id) ps = Some p →
  List.find (fun q => String.eqb (pid q) id) (mark_submitted id ps)
  = Some (set_promptSubmitted true p).
Proof.
  induction ps as [|q l IH]; simpl; [discriminate|].
  destruct (String.eqb (pid q) id) eqn:E; simpl.
  - intros [= ->]. rewrite E. reflexivity.
  - rewrite E. exact IH.
Qed.

Lemma already_submitted_noop g player text p :
  List.find (fun q => String.eqb (pid q) player) (players g) = Some p →
  promptSubmitted p = true →
  handlePromptSubmission player text g = g.
Proof. intros Hf Hs. unfold handlePromptSubmission. rewrite Hf, Hs. reflexivity. Qed.

(** C9.  A submission by a player whose flag is set changes nothing, and
    so does every submission that follows a first one of the same player:
    artifact list, flags and the rest of the state stay as the first
    submission left them. *)
Theorem submission_idempotent (g : Game) (player text text' : string) :
  (∀ p, List.find (fun q => String.eqb (pid q) player) (players g) = Some p →
        promptSubmitted p = true →
        handlePromptSubmission player text g = g)
  ∧ handlePromptSubmission player text' (handlePromptSubmission player text g)
    = handlePromptSubmission player text g.
Proof.
  split; [intros p; apply already_submitted_noop|].
  destruct (List.find (fun q => String.eqb (pid q) player) (players g)) as [p|] eqn:Hf.
  - destruct (promptSubmitted p) eqn:Hs.
    + rewrite (already_submitted_noop g player text p Hf Hs).
      apply (already_submitted_noop g player text' p Hf Hs).
    + assert (Hps : players (handlePromptSubmission player text g)
                    = mark_submitted player (players g)).
      { unfold handlePromptSubmission. rewrite Hf, Hs.
        cbn [players artworks set_players set_artworks].
        destruct (forallb _ _); reflexivity. }
      apply (already_submitted_noop _ player text' (set_promptSubmitted true p));
        [|reflexivity].
      rewrite Hps. apply find_mark_submitted, Hf.
  - assert (Hno : ∀ t, handlePromptSubmission player t g = g)
      by (intros t; unfold handlePromptSubmission; rewrite Hf; reflexivity).
    rewrite !Hno. reflexivity.
Qed.

End Submission.

Section Phases.

Context {constants : Constants}.

(** The two guarded actions are silent outside their phase. *)
Lemma startGame_outside_lobby g : state g ≠ LOBBY → startGame g = g.
Proof. intros H. unfold startGame. rewrite bool_decide_eq_false_2; auto. Qed.

Lemma nextRound_outside_reveal g : state g ≠ REVEAL → nextRound g = g.
Proof. intros H. unfold nextRound. rewrite bool_decide_eq_false_2; auto. Qed.

(** What [nextRound] does in the reveal phase. *)
Lemma nextRound_in_reveal g :
  state g = REVEAL →
  ((currentRound g < TOTAL_ROUNDS)%nat →
     state (nextRound g) = ROUND_STARTING
     ∧ currentRound (nextRound g) = S (currentRound g)
     ∧ pending (nextRound g) = pending g ++ [TRoundData])
  ∧ ((TOTAL_ROUNDS <= currentRound g)%nat →
     nextRound g = set_state GAME_OVER g).
Proof.
  intros Hs. unfold nextRound. rewrite bool_decide_eq_true_2 by exact Hs. split.
  - intros Hlt. apply Nat.ltb_lt in Hlt. rewrite Hlt. repeat split.
  - intros Hge. apply Nat.ltb_ge in Hge. rewrite Hge. reflexivity.
Qed.

End Phases.

Section Service.

Import Gemini.

Lemma retryLoop_all_rejected {T} (apiCall : nat → Settled T) remaining attempt :
  (∀ k, ∃ e, apiCall k = Rejected e) →
  ∃ e, retryLoop remaining attempt apiCall = Rejected e.
Proof.
  intros Hall. revert attempt. induction remaining as [|r IH]; intros attempt; simpl.
  - eauto.
  - destruct (Hall attempt) as [e ->].
    destruct (errorMessage e); [|eauto].
    destruct (_ && _); [apply IH | eauto].
Qed.

(** C8.  [generateImage] always settles to a value, a handle or [null],
    whatever the SDK does; [generateRoundData] always settles to a value
    too, and to the built-in triple whenever the retried fetch fails, as it
    does when every call to the SDK fails. *)
Theorem service_failures_contained :
  (∀ sdk prompt, ∃ handle : option string,
      generateImage sdk prompt = Resolved handle)
  ∧ (∀ parse sdk, ∃ rd, generateRoundData parse sdk = Resolved rd)
  ∧ (∀ parse sdk,
      (∃ e, withRetry (roundDataCall parse sdk) = Rejected e) →
      generateRoundData parse sdk = Resolved fallbackRoundData)
  ∧ (∀ parse sdk,
      (∀ k, ∃ e, sdk k = Rejected e) →
      generateRoundData parse sdk = Resolved fallbackRoundData)
  ∧ fallbackRoundData
    = mkRoundData "A Cyberpunk Megacity During a Rainstorm" "Dragon" "Compass".
Proof.
  assert (Hfail : ∀ parse sdk,
             (∃ e, withRetry (roundDataCall parse sdk) = Rejected e) →
             generateRoundData parse sdk = Resolved fallbackRoundData).
  { intros parse sdk [e He]. unfold generateRoundData. rewrite He. reflexivity. }
  repeat apply conj.
  - intros sdk prompt. unfold generateImage.
    destruct (withRetry (imageCall (sdk prompt))); eauto.
  - intros parse sdk. unfold generateRoundData.
    destruct (withRetry (roundDataCall parse sdk)); eauto.
  - exact Hfail.
  - intros parse sdk Hall. apply Hfail. unfold withRetry.
    apply retryLoop_all_rejected. intros k. unfold roundDataCall.
    destruct (Hall k) as [e ->]. eauto.
  - reflexivity.
Qed.

End Service.

(** * The sample sessions *)

Section Samples.

#[local] Existing Instance party.

Lemma reachable_startedGame : reachable startedGame.
Proof. apply reachable_run; [apply reachable_new | run_conditions]. Qed.

Lemma reachable_galleryGame : reachable galleryGame.
Proof. apply reachable_run; [apply reachable_new | run_conditions]. Qed.

Lemma reachable_scoringGame : reachable scoringGame.
Proof. apply reachable_run; [apply reachable_galleryGame | run_conditions]. Qed.

Lemma reachable_revealGame : reachable revealGame.
Proof. apply reachable_run; [apply reachable_scoringGame | run_conditions]. Qed.

Lemma reachable_deviatorLeft : reachable deviatorLeft.
Proof. apply reachable_run; [apply reachable_new | run_conditions]. Qed.

Lemma reachable_deviatorLeftSubmitted : reachable deviatorLeftSubmitted.
Proof. apply reachable_run; [apply reachable_deviatorLeft | run_conditions]. Qed.

Lemma reachable_beforeStaleReady : reachable beforeStaleReady.
Proof. apply reachable_run; [apply reachable_new | run_conditions]. Qed.

Lemma active_galleryGame : active galleryGame.
Proof.
  replace galleryGame with (run briefingGame afterBriefing) by (vm_compute; reflexivity).
  apply active_run.
  - apply (active_setup startedGame sampleRound 0 briefingGame).
    + apply reachable_startedGame.
    + run_conditions.
    + vm_compute. reflexivity.
  - run_conditions.
  - run_conditions.
Qed.

(** C1: actions outside their phase are not ignored.  With the gallery
    open, a ready signal of a player moves the session back to the
    prompting phase; a vote in the lobby raises a [TypeError]; a submission
    in the lobby records an artifact and starts the rendering; a restart
    during the gallery returns to the lobby. *)
Theorem unguarded_actions_act_outside_their_phase :
  reachable galleryGame
  ∧ state galleryGame = GALLERY
  ∧ state (handlePlayerReady "ann" galleryGame) = PROMPTING
  ∧ raised (handleVote "ann" true (addPlayer "ann" "Ann" (newGame "ABCD"))) = true
  ∧ state (handlePromptSubmission "ann" "early" (addPlayer "ann" "Ann" (newGame "ABCD")))
    = GENERATING
  ∧ length (artworks
      (handlePromptSubmission "ann" "early" (addPlayer "ann" "Ann" (newGame "ABCD"))))
    = 1%nat
  ∧ state (resetGame galleryGame) = LOBBY.
Proof.
  split; [apply reachable_galleryGame|]. vm_compute. repeat split.
Qed.

(** C6: the advance action is not reserved to the host.  In the reveal
    phase of the sample session bob, who is not the host, emits
    [nextRound]: the round counter moves to 2 and round setup begins. *)
Theorem nextRound_accepts_any_player :
  reachable revealGame
  ∧ state revealGame = REVEAL
  ∧ currentRound revealGame = 1%nat
  ∧ isHost "bob" revealGame = Some false
  ∧ raised (on_nextRound "bob" revealGame) = false
  ∧ state (final (on_nextRound "bob" revealGame)) = ROUND_STARTING
  ∧ currentRound (final (on_nextRound "bob" revealGame)) = 2%nat
  ∧ final (on_startGame "bob" (addPlayer "bob" "Bob" (addPlayer "ann" "Ann" (newGame "ABCD"))))
    = addPlayer "bob" "Bob" (addPlayer "ann" "Ann" (newGame "ABCD"))
  ∧ final (on_playAgain "bob" revealGame) = revealGame.
Proof.
  split; [apply reachable_revealGame|]. vm_compute. repeat split.
Qed.

Lemma reachable_soloScoring : reachable soloScoring.
Proof. apply reachable_run; [apply reachable_deviatorLeftSubmitted | run_conditions]. Qed.

(** C2 as stated fails in two ways.  Without a deviator artifact the
    scoring pass returns at once: bob, alone after the deviator left, has
    his artifact ranked first twice, and the pass adds nothing to his score
    and records no bonus on the artifact.  And an id that occurs twice
    among the first three entries of a ranking gets the points of its later
    position: with the quality ranking 1, 1, 2 artifact 1 is given 2, not
    3, and its author gains 8 where the formula gives 9. *)
Lemma scoring_formula_counterexample :
  (reachable soloScoring ∧ state soloScoring = SCORING
   ∧ List.find isDodger (artworks soloScoring) = None
   ∧ ∃ p a,
       players soloScoring = [p] ∧ artworks soloScoring = [a]
       ∧ playerId a = pid p
       ∧ rank_bonus [1] (aid a) + rank_bonus [1] (aid a) = 6
       ∧ state (final (step soloScoring (ERankings [1] [1]))) = REVEAL
       ∧ players (final (step soloScoring (ERankings [1] [1]))) = [p]
       ∧ artworks (final (step soloScoring (ERankings [1] [1]))) = [a]
       ∧ qualityScore a = None ∧ originalityScore a = None)
  ∧ (reachable scoringGame
     ∧ List.find isDodger (artworks scoringGame) = Some art1
     ∧ rank_bonus [1; 1; 2] (aid art1) = 3
     ∧ (∃ a', artworks (calculateScores [1; 1; 2] [1; 2] scoringGame) !! 0%nat = Some a'
              ∧ aid a' = aid art1 ∧ qualityScore a' = Some 2)
     ∧ ∃ p p',
         players scoringGame !! 0%nat = Some p
         ∧ players (calculateScores [1; 1; 2] [1; 2] scoringGame) !! 0%nat = Some p'
         ∧ round_delta scoringGame art1 [1; 1; 2] [1; 2] p = 9
         ∧ score p' - score p = 8).
Proof.
  split.
  - split; [apply reachable_soloScoring|].
    split; [vm_compute; reflexivity|]. split; [vm_compute; reflexivity|].
    exists (mkPlayer "bob" "Bob" Artist 0 true),
           (mkArtwork 1 "bob" "shelves in the bark" None false None None).
    repeat (split; [vm_compute; reflexivity|]). reflexivity.
  - split; [apply reachable_scoringGame|].
    split; [vm_compute; reflexivity|]. split; [vm_compute; reflexivity|]. split.
    + exists (mkArtwork 1 "ann" "a tree of books" None true (Some 2) (Some 3)).
      repeat (split; [vm_compute; reflexivity|]). reflexivity.
    + exists (mkPlayer "ann" "Ann" Dodger 0 true), (mkPlayer "ann" "Ann" Dodger 8 true).
      repeat (split; [vm_compute; reflexivity|]). vm_compute. reflexivity.
Qed.

Lemma scoring_pass_formula_witness :
  players (calculateScores [1; 2] [1; 2] scoringGame)
    = map (fun p => set_score (score p + round_delta scoringGame art1 [1; 2] [1; 2] p) p)
          (players scoringGame)
  ∧ artworks (calculateScores [1; 2] [1; 2] scoringGame)
    = map (fun a => with_bonus (rank_bonus [1; 2] (aid a)) (rank_bonus [1; 2] (aid a)) a)
          (artworks scoringGame).
Proof.
  apply (scoring_pass_formula scoringGame [1; 2] [1; 2] art1).
  - apply reachable_scoringGame.
  - decided.
  - decided.
  - vm_compute. reflexivity.
Defined.

Lemma ledger_one_vote_per_pair_witness :
  votes_unique scoringGame
  ∧ ∀ cur explicit g', advances scoringGame cur explicit g' →
      ∀ p, p ∈ players g' →
        length (votes_of (pid p) (aid cur) (votes g')) = 1%nat
        ∧ votes_of (pid p) (aid cur) (votes g') =
            match votes_of (pid p) (aid cur) explicit with
            | [] => [mkVote (pid p) (aid cur) false]
            | cast => cast
            end.
Proof. apply (ledger_one_vote_per_pair scoringGame), reachable_scoringGame. Defined.

(** C4 as stated fails once the deviator disconnects: during the briefing
    no player of the roster holds the role, and when the remaining player
    has submitted no artifact carries the flag. *)
Lemma deviator_leaves_counterexample :
  reachable deviatorLeft
  ∧ state deviatorLeft = BRIEFING
  ∧ length (List.filter is_dodger_role (players deviatorLeft)) ≠ 1%nat
  ∧ reachable deviatorLeftSubmitted
  ∧ state deviatorLeftSubmitted = GENERATING
  ∧ forallb promptSubmitted (players deviatorLeftSubmitted) = true
  ∧ length (List.filter isDodger (artworks deviatorLeftSubmitted)) ≠ 1%nat.
Proof.
  split; [apply reachable_deviatorLeft|].
  split; [vm_compute; reflexivity|].
  split; [vm_compute; discriminate|].
  split; [apply reachable_deviatorLeftSubmitted|].
  split; [vm_compute; reflexivity|].
  split; [vm_compute; reflexivity|].
  vm_compute. discriminate.
Qed.

Lemma one_deviator_while_active_witness :
  length (List.filter is_dodger_role (players galleryGame)) = 1%nat
  ∧ (∀ p, p ∈ players galleryGame → role p = Dodger →
          dodgerId galleryGame = Some (pid p))
  ∧ (forallb promptSubmitted (players galleryGame) = true →
       length (List.filter isDodger (artworks galleryGame)) = 1%nat
       ∧ ∀ a, a ∈ artworks galleryGame → isDodger a = true →
              dodgerId galleryGame = Some (playerId a)).
Proof. apply (one_deviator_while_active galleryGame), active_galleryGame. Defined.

(** C5 as stated fails after a departure: bob signaled and left, ann
    signals again, the counts agree and the barrier opens, yet cat, who
    is seated, never signaled. *)
Lemma stale_ready_counterexample :
  reachable beforeStaleReady
  ∧ state beforeStaleReady = BRIEFING
  ∧ state (handlePlayerReady "ann" beforeStaleReady) = PROMPTING
  ∧ size (readyPlayers (handlePlayerReady "ann" beforeStaleReady))
    = length (players (handlePlayerReady "ann" beforeStaleReady))
  ∧ ¬ (∀ p, p ∈ players (handlePlayerReady "ann" beforeStaleReady) →
            pid p ∈ readyPlayers (handlePlayerReady "ann" beforeStaleReady)).
Proof.
  split; [apply reachable_beforeStaleReady|].
  split; [vm_compute; reflexivity|].
  split; [vm_compute; reflexivity|].
  split; [vm_compute; reflexivity|].
  intros Hall.
  specialize (Hall (mkPlayer "cat" "Cat" Artist 0 false)).
  assert (Hseat : mkPlayer "cat" "Cat" Artist 0 false
                  ∈ players (handlePlayerReady "ann" beforeStaleReady))
    by (vm_compute; repeat constructor).
  assert (Hnot : "cat" ∉ readyPlayers (handlePlayerReady "ann" beforeStaleReady))
    by decided.
  exact (Hnot (Hall Hseat)).
Qed.

Lemma readiness_barrier_witness :
  state briefingOfThree = BRIEFING
  ∧ state (handlePlayerReady "cat" briefingOfThree) = PROMPTING
  ∧ ∀ p, p ∈ players (handlePlayerReady "cat" briefingOfThree) →
         pid p ∈ readyPlayers (handlePlayerReady "cat" briefingOfThree).
Proof.
  assert (Hb : state briefingOfThree = BRIEFING) by (vm_compute; reflexivity).
  destruct (readiness_barrier briefingOfThree "cat" Hb) as [Hopen Hseated].
  assert (Hstate : state (handlePlayerReady "cat" briefingOfThree) = PROMPTING)
    by (apply Hopen; vm_compute; reflexivity).
  split; [exact Hb|]. split; [exact Hstate|].
  apply Hseated; [|exact Hstate].
  intros x Hx. apply elem_of_elements in Hx. revert x Hx. apply Forall_forall.
  decided.
Defined.

(** C7 as stated fails already with two players: ann, the deviator,
    approves her own artifact and both players approve bob's; with her
    artifact ranked first twice her score rises by 9, above
    1 + (2 - 1) + 3 + 3. *)
Lemma claimed_bound_counterexample :
  reachable scoringGame
  ∧ state (final (step scoringGame (ERankings [1; 2] [1; 2]))) = REVEAL
  ∧ ∃ p p',
      players scoringGame !! 0%nat = Some p
      ∧ players (final (step scoringGame (ERankings [1; 2] [1; 2]))) !! 0%nat = Some p'
      ∧ score p' - score p = 9
      ∧ ¬ (score p' - score p
           <= 1 + (Z.of_nat (length (players scoringGame)) - 1) + 3 + 3).
Proof.
  split; [apply reachable_scoringGame|].
  split; [vm_compute; reflexivity|].
  exists (mkPlayer "ann" "Ann" Dodger 0 true), (mkPlayer "ann" "Ann" Dodger 9 true).
  repeat (split; [vm_compute; reflexivity|]).
  vm_compute. intros H. apply H. reflexivity.
Qed.

Lemma score_delta_bound_witness :
  score (mkPlayer "ann" "Ann" Dodger 9 true) - score (mkPlayer "ann" "Ann" Dodger 0 true)
  <= 1 + Z.of_nat 2 * (Z.of_nat 2 - 1) + 3 + 3.
Proof.
  apply (score_delta_bound scoringGame [1; 2] [1; 2] 2 0).
  - apply reachable_scoringGame.
  - apply Forall_forall. decided.
  - vm_compute. reflexivity.
  - vm_compute. repeat constructor.
  - vm_compute. reflexivity.
  - vm_compute. reflexivity.
Defined.

Lemma submission_idempotent_witness :
  handlePromptSubmission "ann" "a second thought" galleryGame = galleryGame.
Proof.
  apply (proj1 (submission_idempotent galleryGame "ann" "a second thought" "")
           (mkPlayer "ann" "Ann" Dodger 0 true)).
  - vm_compute. reflexivity.
  - reflexivity.
Defined.

Lemma roundPoints_matches_dodgerPoints_witness :
  Z.of_nat (roundPoints (getSerializableState revealGame)) = dodgerPoints revealGame
  ∧ roundPoints (getSerializableState revealGame) = deception_count revealGame.
Proof. apply (roundPoints_matches_dodgerPoints revealGame), reachable_revealGame. Defined.

(** Outside the reachable states the two counts can differ: a vote on an
    artifact that is not in the list counts for the snapshot only. *)
Lemma strayVote_counts_differ :
  roundPoints (getSerializableState strayVote) = 1%nat ∧ dodgerPoints strayVote = 0.
Proof. vm_compute. split; reflexivity. Qed.

Example generateImage_samples :
  Gemini.generateImage (fun _ => oneImage) "a tree of books"
  = Gemini.Resolved (Some "/9j/4AAQ")
  ∧ Gemini.generateImage (fun _ => alwaysRateLimited) "a tree of books"
    = Gemini.Resolved None
  ∧ Gemini.generateImage (fun _ _ => Gemini.Rejected Gemini.BadMessage) "a tree of books"
    = Gemini.Resolved None.
Proof. repeat split. Qed.

Lemma service_failures_contained_witness :
  Gemini.generateRoundData
    (fun _ => Gemini.Rejected (Gemini.ErrorObj "Unexpected token < in JSON at position 0"))
    alwaysRateLimited
  = Gemini.Resolved Gemini.fallbackRoundData.
Proof.
  apply (proj1 (proj2 (proj2 (proj2 service_failures_contained)))).
  intros k. exists (Gemini.ErrorObj "429 RESOURCE_EXHAUSTED"). reflexivity.
Defined.

End Samples.

(** * Further properties of the engine *)

Section Seats.

Context {constants : Constants}.

Lemma mark_submitted_seats id (ps : list Player) :
  map seat (mark_submitted id ps) = map seat ps.
Proof.
  induction ps as [|q l IH]; simpl; [reflexivity|].
  destruct (String.eqb (pid q) id); simpl; [reflexivity | f_equal; exact IH].
Qed.

Lemma setup_seats rd dodgerIndex g :
  map seat (players (final (startNewRound_resume rd dodgerIndex g)))
  = map seat (players g).
Proof.
  unfold startNewRound_resume.
  cbn [players set_readyPlayers set_galleryIndex set_votes set_artworks set_roundData].
  set (reset := fun p => set_promptSubmitted false (set_role Artist p)).
  assert (Hreset : map seat (map reset (players g)) = map seat (players g))
    by (rewrite map_map; reflexivity).
  destruct (map reset (players g) !! dodgerIndex) as [d|] eqn:Hd;
    cbn [final players set_state set_dodgerId set_players]; [|exact Hreset].
  rewrite <- Hreset.
  change (map seat (<[dodgerIndex := set_role Dodger d]> (map reset (players g))))
    with (seat <$> <[dodgerIndex := set_role Dodger d]> (map reset (players g))).
  rewrite list_fmap_insert. apply list_insert_id.
  rewrite list_lookup_fmap, Hd. reflexivity.
Qed.

Lemma step_seats g e :
  seating_event e = false →
  map seat (players (final (step g e))) = map seat (players g)
  ∧ roomId (final (step g e)) = roomId g.
Proof.
  intros He. destruct e; try discriminate He; simpl.
  - unfold startGame, startNewRound. destruct (bool_decide _); simpl;
      [rewrite map_map|]; split; reflexivity.
  - unfold resetGame. simpl. rewrite map_map. split; reflexivity.
  - unfold nextRound, startNewRound. guards; split; reflexivity.
  - unfold handlePlayerReady. guards; split; reflexivity.
  - unfold handlePromptSubmission, generateAllArtworks.
    destruct (List.find _ (players g)) as [p|]; [|split; reflexivity].
    destruct (promptSubmitted p); [split; reflexivity|].
    destruct (forallb _ _); simpl; rewrite mark_submitted_seats; split; reflexivity.
  - unfold handleVote.
    destruct (artworks g !! galleryIndex g); [|split; reflexivity].
    destruct (existsb _ (votes g)); [split; reflexivity|].
    destruct (forallb _ _); [|split; reflexivity].
    match goal with |- context [nextGalleryItem ?g0] =>
      destruct (nextGalleryItem_frame g0) as (H1 & _);
      assert (H2 : roomId (final (nextGalleryItem g0)) = roomId g0)
        by (unfold nextGalleryItem, startGalleryTimer, runArtEvaluation, clearTimer;
            guards; reflexivity)
    end.
    rewrite H1, H2. split; reflexivity.
  - unfold tick.
    destruct (_ <=? _); [|split; reflexivity].
    match goal with |- context [nextGalleryItem ?g0] =>
      destruct (nextGalleryItem_frame g0) as (H1 & _);
      assert (H2 : roomId (final (nextGalleryItem g0)) = roomId g0)
        by (unfold nextGalleryItem, startGalleryTimer, runArtEvaluation, clearTimer;
            guards; reflexivity)
    end.
    rewrite H1, H2. split; reflexivity.
  - split; [apply (setup_seats rd dodgerIndex (deliver TRoundData g))|].
    unfold startNewRound_resume. guards; reflexivity.
  - unfold generateAllArtworks_resume, startGalleryTimer, clearTimer, deliver.
    guards; split; reflexivity.
  - unfold runArtEvaluation_resume, calculateScores, deliver.
    cbn [artworks set_pending].
    destruct (List.find isDodger (artworks g)); simpl;
      [rewrite map_map|]; split; reflexivity.
Qed.

Lemma step_roster_size g e :
  seating_event e = false →
  length (players (final (step g e))) = length (players g).
Proof.
  intros He. destruct (step_seats g e He) as [H _].
  rewrite <- (length_map seat), H, length_map. reflexivity.
Qed.

(** X1.  Only [addPlayer] and [removePlayer] change who is seated: every
    other event leaves the ids, the names and the order of the roster, and
    the room code, as they were; so the first player stays the host. *)
Theorem seats_change_only_by_join_and_leave (g : Game) (e : Event) :
  seating_event e = false →
  map seat (players (final (step g e))) = map seat (players g)
  ∧ roomId (final (step g e)) = roomId g
  ∧ ∀ socket, isHost socket (final (step g e)) = isHost socket g.
Proof.
  intros He. destruct (step_seats g e He) as [Hs Hr].
  split; [exact Hs|]. split; [exact Hr|].
  intros socket. unfold isHost.
  destruct (players (final (step g e))) as [|a l], (players g) as [|b l'];
    simpl in Hs |- *; try discriminate; [reflexivity|].
  inversion Hs as [[Hpid Hname Hrest]]. rewrite Hpid. reflexivity.
Qed.

End Seats.

Section Invariants.

Context {constants : Constants}.

Lemma step_capacity g e :
  (length (players g) <= TOTAL_PLAYERS)%nat →
  (length (players (final (step g e))) <= TOTAL_PLAYERS)%nat.
Proof.
  intros Hc. destruct (seating_event e) eqn:He.
  - destruct e; try discriminate He; simpl.
    + unfold addPlayer. destruct (Nat.leb_spec TOTAL_PLAYERS (length (players g)));
        simpl; [exact Hc|]. rewrite length_app. simpl. lia.
    + unfold removePlayer, clearTimer.
      pose proof (filter_length_le (fun p => negb (String.eqb (pid p) id)) (players g)).
      guards; lia.
  - rewrite (step_roster_size g e He). exact Hc.
Qed.

(** X2.  The roster of a reachable state never holds more than
    [TOTAL_PLAYERS] players, and [isFull] answers true exactly when it
    holds that many. *)
Theorem roster_never_exceeds_capacity (g : Game) :
  reachable g →
  (length (players g) <= TOTAL_PLAYERS)%nat
  ∧ (isFull g = true ↔ length (players g) = TOTAL_PLAYERS).
Proof.
  intros Hr.
  assert (Hc : (length (players g) <= TOTAL_PLAYERS)%nat).
  { induction Hr as [room | g e Hr IH Hen]; [simpl; lia | apply step_capacity, IH]. }
  split; [exact Hc|]. unfold isFull. rewrite Nat.leb_le. lia.
Qed.

(** *** Scores *)

Lemma initScoreMap_Forall (P : Bonus → Prop) (arts : list Artwork) :
  P (mkBonus 0 0) → map_Forall (fun _ => P) (initScoreMap arts).
Proof.
  intros H0. unfold initScoreMap.
  assert (H : ∀ m : gmap Z Bonus, map_Forall (fun _ => P) m →
             map_Forall (fun _ => P)
               (fold_left (fun m art => <[aid art := mkBonus 0 0]> m) arts m)).
  { induction arts as [|a l IH]; intros m Hm; simpl; [exact Hm|].
    apply IH. apply map_Forall_insert_2; [exact H0 | exact Hm]. }
  apply H. apply map_Forall_empty.
Qed.

Lemma applyRanking_Forall (P : Bonus → Prop) upd ranking index (m : gmap Z Bonus) :
  (∀ pts b, pts ∈ pointsByRank → P b → P (upd pts b)) →
  map_Forall (fun _ => P) m →
  map_Forall (fun _ => P) (applyRanking upd ranking index m).
Proof.
  intros Hupd. revert index m.
  induction ranking as [|a r IH]; intros index m Hm; simpl; [exact Hm|].
  apply IH. destruct (pointsByRank !! index) as [pts|] eqn:Hpts; [|exact Hm].
  destruct (m !! a) as [cs|] eqn:Hcs; [|exact Hm].
  apply map_Forall_insert_2; [|exact Hm].
  apply Hupd; [eapply list_elem_of_lookup_2; exact Hpts | exact (Hm a cs Hcs)].
Qed.

Lemma pointsByRank_pos pts : pts ∈ pointsByRank → 0 < pts.
Proof.
  unfold pointsByRank. intros H.
  repeat (apply elem_of_cons in H as [-> | H]; [lia|]). inversion H.
Qed.

Lemma buildScoreMap_nonneg q o (arts : list Artwork) k b :
  buildScoreMap q o arts !! k = Some b → 0 <= quality b ∧ 0 <= originality b.
Proof.
  intros Hk.
  assert (Hall : map_Forall (fun _ b => 0 <= quality b ∧ 0 <= originality b)
                   (buildScoreMap q o arts)).
  { unfold buildScoreMap. apply applyRanking_Forall.
    - intros pts b0 Hpts [Hq Ho]. apply pointsByRank_pos in Hpts. simpl. lia.
    - apply applyRanking_Forall.
      + intros pts b0 Hpts [Hq Ho]. apply pointsByRank_pos in Hpts. simpl. lia.
      + apply initScoreMap_Forall. simpl. lia. }
  exact (Hall k b Hk).
Qed.

Lemma scoreToAdd_nonneg g d q o p :
  0 <= scoreToAdd g d (buildScoreMap q o (artworks g)) p.
Proof.
  pose proof (dodgerPoints_filter g) as Hd.
  unfold scoreToAdd.
  repeat match goal with
         | |- context [match ?x with _ => _ end] => destruct x eqn:?
         end;
    try match goal with
        | H : buildScoreMap _ _ _ !! _ = Some _ |- _ =>
            apply buildScoreMap_nonneg in H
        end; lia.
Qed.

(** X3.  The scoring pass never lowers a score and changes nothing else
    of a player: afterwards the roster is the old one, player by player,
    with scores that are at least the old ones. *)
Theorem scoring_only_adds (g : Game) (q o : list Z) :
  Forall2 (fun p p' => score p <= score p' ∧ set_score (score p) p' = p)
          (players g) (players (calculateScores q o g)).
Proof.
  unfold calculateScores. destruct (List.find isDodger (artworks g)) as [d|].
  - cbn [players set_artworks set_players].
    induction (players g) as [|p l IH]; simpl; constructor; [|exact IH].
    pose proof (scoreToAdd_nonneg g d q o p). destruct p. simpl in *.
    split; [lia | reflexivity].
  - induction (players g) as [|p l IH]; constructor; [|exact IH].
    destruct p. simpl. split; [lia | reflexivity].
Qed.

Lemma mark_submitted_scores id (ps : list Player) :
  map score (mark_submitted id ps) = map score ps.
Proof.
  induction ps as [|q l IH]; simpl; [reflexivity|].
  destruct (String.eqb (pid q) id); simpl; [reflexivity | f_equal; exact IH].
Qed.

Lemma nonneg_sublist (f : Player → bool) (ps : list Player) :
  Forall (fun z => 0 <= z) (map score ps) →
  Forall (fun z => 0 <= z) (map score (List.filter f ps)).
Proof.
  induction ps as [|p l IH]; simpl; intros H; [exact H|].
  apply Forall_cons in H as [Hp Hl].
  destruct (f p); simpl; [constructor; [exact Hp | apply IH, Hl] | apply IH, Hl].
Qed.

Lemma raised_scores_nonneg (add : Player → Z) (l : list Player) :
  (∀ p, 0 <= add p) →
  Forall (fun z => 0 <= z) (map score l) →
  Forall (fun z => 0 <= z) (map score (map (fun p => set_score (score p + add p) p) l)).
Proof.
  intros Hadd. induction l as [|p l IH]; simpl; intros Hs; [constructor|].
  apply Forall_cons in Hs as [Hp Hl]. specialize (Hadd p).
  constructor; [lia | apply IH, Hl].
Qed.

Lemma step_scores g e :
  Forall (fun z => 0 <= z) (map score (players g)) →
  Forall (fun z => 0 <= z) (map score (players (final (step g e)))).
Proof.
  intros Hs.
  assert (Hzero : ∀ ps : list Player,
             Forall (fun z => 0 <= z) (map score (map (set_score 0) ps))).
  { intros ps. induction ps; simpl; constructor; [lia | assumption]. }
  destruct e; simpl.
  - unfold addPlayer. destruct (_ <=? _)%nat; simpl; [exact Hs|].
    rewrite map_app. apply Forall_app. split; [exact Hs|]. simpl.
    constructor; [lia | constructor].
  - unfold removePlayer, clearTimer. guards; apply nonneg_sublist, Hs.
  - unfold startGame, startNewRound. destruct (bool_decide _); simpl;
      [apply Hzero | exact Hs].
  - apply Hzero.
  - unfold nextRound, startNewRound. guards; exact Hs.
  - unfold handlePlayerReady. guards; exact Hs.
  - unfold handlePromptSubmission, generateAllArtworks.
    destruct (List.find _ (players g)) as [p|]; [|exact Hs].
    destruct (promptSubmitted p); [exact Hs|].
    destruct (forallb _ _); simpl; rewrite mark_submitted_scores; exact Hs.
  - unfold handleVote.
    destruct (artworks g !! galleryIndex g); [|exact Hs].
    destruct (existsb _ (votes g)); [exact Hs|].
    destruct (forallb _ _); [|exact Hs].
    match goal with |- context [nextGalleryItem ?g0] =>
      destruct (nextGalleryItem_frame g0) as (H1 & _) end.
    rewrite H1. exact Hs.
  - unfold tick. destruct (_ <=? _); [|exact Hs].
    match goal with |- context [nextGalleryItem ?g0] =>
      destruct (nextGalleryItem_frame g0) as (H1 & _) end.
    rewrite H1. exact Hs.
  - unfold startNewRound_resume.
    cbn [players deliver set_pending set_readyPlayers set_galleryIndex set_votes
         set_artworks set_roundData].
    set (reset := fun p => set_promptSubmitted false (set_role Artist p)).
    assert (Hreset : map score (map reset (players g)) = map score (players g))
      by (rewrite map_map; reflexivity).
    destruct (map reset (players g) !! dodgerIndex) as [d|] eqn:Hd;
      cbn [final players set_state set_dodgerId set_players];
      [|rewrite Hreset; exact Hs].
    change (map score (<[dodgerIndex := set_role Dodger d]> (map reset (players g))))
      with (score <$> <[dodgerIndex := set_role Dodger d]> (map reset (players g))).
    rewrite list_fmap_insert, list_insert_id.
    + change (score <$> map reset (players g)) with (map score (map reset (players g))).
      rewrite Hreset. exact Hs.
    + rewrite list_lookup_fmap, Hd. reflexivity.
  - unfold generateAllArtworks_resume, startGalleryTimer, clearTimer, deliver.
    guards; exact Hs.
  - unfold runArtEvaluation_resume, calculateScores.
    cbn [artworks deliver set_pending].
    destruct (List.find isDodger (artworks g)) as [d|];
      cbn [players set_state set_artworks set_players deliver set_pending];
      [|exact Hs].
    apply raised_scores_nonneg; [|exact Hs].
    intros p. apply (scoreToAdd_nonneg (deliver TEvaluate g)).
Qed.

(** X4.  No player of a reachable state has a negative score. *)
Theorem scores_never_negative (g : Game) :
  reachable g → ∀ p, p ∈ players g → 0 <= score p.
Proof.
  intros Hr.
  assert (H : Forall (fun z => 0 <= z) (map score (players g))).
  { induction Hr as [room | g e Hr IH Hen]; [constructor | apply step_scores, IH]. }
  intros p Hp. rewrite Forall_forall in H. apply H, list_elem_of_fmap. eauto.
Qed.

(** *** Round counter, countdown and cursor *)

Ltac unfold_engine :=
  unfold handleVote, tick, nextGalleryItem, handlePromptSubmission, handlePlayerReady,
    nextRound, startGame, resetGame, removePlayer, addPlayer, startNewRound_resume,
    generateAllArtworks_resume, runArtEvaluation_resume, startGalleryTimer,
    runArtEvaluation, generateAllArtworks, startNewRound, calculateScores, clearTimer,
    deliver.

Lemma step_round g e :
  (currentRound g <= Nat.max 1 TOTAL_ROUNDS)%nat
  ∧ (state g = GAME_OVER → (TOTAL_ROUNDS <= currentRound g)%nat) →
  (currentRound (final (step g e)) <= Nat.max 1 TOTAL_ROUNDS)%nat
  ∧ (state (final (step g e)) = GAME_OVER →
     (TOTAL_ROUNDS <= currentRound (final (step g e)))%nat).
Proof.
  intros [Hle Hover].
  destruct e; simpl; unfold_engine; guards;
    repeat match goal with
           | H : (_ <? _)%nat = true |- _ => apply Nat.ltb_lt in H
           | H : (_ <? _)%nat = false |- _ => apply Nat.ltb_ge in H
           end;
    (split; [lia | intros Hst; solve [discriminate Hst | auto | lia]]).
Qed.

(** X5.  The round counter of a reachable state never exceeds the round
    limit (1 if the limit is 0), and a session that is over stands at the
    limit or beyond it. *)
Theorem round_counter_bounded (g : Game) :
  reachable g →
  (currentRound g <= Nat.max 1 TOTAL_ROUNDS)%nat
  ∧ (state g = GAME_OVER → (TOTAL_ROUNDS <= currentRound g)%nat).
Proof.
  induction 1 as [room | g e Hr IH Hen].
  - simpl. split; [lia | discriminate].
  - apply step_round, IH.
Qed.

Lemma step_countdown g e :
  0 < GALLERY_TIMER_SECONDS → Enabled g e →
  0 <= galleryTime g <= GALLERY_TIMER_SECONDS
  ∧ (galleryTimer g = TimerLive → 0 < galleryTime g) →
  0 <= galleryTime (final (step g e)) <= GALLERY_TIMER_SECONDS
  ∧ (galleryTimer (final (step g e)) = TimerLive → 0 < galleryTime (final (step g e))).
Proof.
  intros Hpos Hen [Hrange Hlive].
  destruct e; simpl in Hen |- *; unfold_engine; guards;
    repeat match goal with
           | H : (_ <=? _) = true |- _ => apply Z.leb_le in H
           | H : (_ <=? _) = false |- _ => apply Z.leb_gt in H
           end;
    try congruence; try (specialize (Hlive Hen));
    (split; [lia | intros Hst; solve [discriminate Hst | congruence | auto | lia]]).
Qed.

(** X6.  With a positive duration the countdown of a reachable state
    lies between 0 and the full duration, and is positive as long as the
    interval is scheduled. *)
Theorem countdown_in_range (g : Game) :
  0 < GALLERY_TIMER_SECONDS → reachable g →
  0 <= galleryTime g <= GALLERY_TIMER_SECONDS
  ∧ (galleryTimer g = TimerLive → 0 < galleryTime g).
Proof.
  intros Hpos. induction 1 as [room | g e Hr IH Hen].
  - simpl. split; [lia | discriminate].
  - apply step_countdown; assumption.
Qed.

Lemma step_cursor g e :
  Enabled g e →
  (galleryIndex g = 0 ∨ galleryIndex g < length (artworks g))%nat →
  (galleryIndex (final (step g e)) = 0
   ∨ galleryIndex (final (step g e)) < length (artworks (final (step g e))))%nat.
Proof.
  intros Hen Hc. destruct e; simpl in Hen |- *;
    try match type of Hen with
        | _ ∧ Permutation _ _ =>
            destruct Hen as [_ Hperm]; apply Permutation_length in Hperm;
            unfold rendered in Hperm; rewrite length_map in Hperm
        end;
    unfold_engine; guards;
    repeat match goal with
           | H : (_ <? _) = true |- _ => apply Z.ltb_lt in H
           end;
    rewrite ?length_app, ?length_map; simpl; lia.
Qed.

Lemma reachable_cursor g :
  reachable g → (galleryIndex g = 0 ∨ galleryIndex g < length (artworks g))%nat.
Proof.
  induction 1 as [room | g e Hr IH Hen]; [left; reflexivity | apply step_cursor; assumption].
Qed.

(** X7.  In a reachable state the gallery cursor is 0 or points at an
    artifact of the list; so a vote, and a forced advance, raise a
    [TypeError] exactly when the artifact list is empty. *)
Theorem cursor_stays_in_range (g : Game) :
  reachable g →
  (galleryIndex g = 0 ∨ galleryIndex g < length (artworks g))%nat
  ∧ (∀ voter yes, raised (handleVote voter yes g) = true ↔ artworks g = [])
  ∧ (raised (nextGalleryItem g) = true ↔ artworks g = []).
Proof.
  intros Hr. pose proof (reachable_cursor g Hr) as Hc. split; [exact Hc|].
  assert (Hnone : artworks g !! galleryIndex g = None ↔ artworks g = []).
  { rewrite lookup_ge_None. destruct (artworks g); simpl in *; split; intros H;
      try discriminate; try reflexivity; lia. }
  assert (Hnext : ∀ g0, artworks g0 = artworks g → galleryIndex g0 = galleryIndex g →
                        (raised (nextGalleryItem g0) = true ↔ artworks g = [])).
  { intros g0 Ha Hi. rewrite <- Hnone. unfold nextGalleryItem.
    assert (Hct : artworks (clearTimer g0) = artworks g0
                  ∧ galleryIndex (clearTimer g0) = galleryIndex g0)
      by (unfold clearTimer; destruct (galleryTimer g0); split; reflexivity).
    destruct Hct as [-> ->]. rewrite Ha, Hi.
    destruct (artworks g !! galleryIndex g); simpl.
    - destruct (_ <? _); simpl; split; discriminate.
    - split; reflexivity. }
  split; [|apply Hnext; reflexivity].
  intros voter yes. unfold handleVote.
  destruct (artworks g !! galleryIndex g) as [cur|] eqn:Hcur.
  - assert (Hne : artworks g ≠ []) by (intros H; apply Hnone in H; congruence).
    destruct (existsb _ (votes g)); [simpl; split; [discriminate | contradiction]|].
    destruct (forallb _ _); [|simpl; split; [discriminate | contradiction]].
    apply Hnext; reflexivity.
  - simpl. rewrite <- Hnone. split; reflexivity.
Qed.

(** *** The ledger and the artifact ids *)

Lemma nextGalleryItem_appends g :
  ∃ extra, votes (final (nextGalleryItem g)) = votes g ++ extra.
Proof.
  destruct (artworks g !! galleryIndex g) as [cur|] eqn:Hcur.
  - destruct (nextGalleryItem_votes g cur Hcur) as [_ ->]. 
    destruct (synthesize_extends (aid cur) (players g) (votes g)) as (extra & -> & _).
    eauto.
  - exists []. rewrite app_nil_r. unfold nextGalleryItem.
    assert (Hct : artworks (clearTimer g) = artworks g
                  ∧ galleryIndex (clearTimer g) = galleryIndex g
                  ∧ votes (clearTimer g) = votes g)
      by (unfold clearTimer; destruct (galleryTimer g); repeat split).
    destruct Hct as (-> & -> & Hv). rewrite Hcur. exact Hv.
Qed.

(** X8.  The ledger is append-only: an event either leaves every recorded
    vote in place and adds votes at the end, or it is the completion of a
    round setup, which empties the ledger. *)
Theorem ledger_append_only (g : Game) (e : Event) :
  (∃ extra, votes (final (step g e)) = votes g ++ extra)
  ∨ (∃ rd dodgerIndex, e = ERoundData rd dodgerIndex ∧ votes (final (step g e)) = []).
Proof.
  assert (Hsame : ∀ g', votes g' = votes g → ∃ extra, votes g' = votes g ++ extra)
    by (intros g' ->; exists []; symmetry; apply app_nil_r).
  destruct e; simpl;
    try (left; apply Hsame; unfold_engine; guards; reflexivity).
  - left. unfold handleVote.
    destruct (artworks g !! galleryIndex g); [|apply Hsame; reflexivity].
    destruct (existsb _ (votes g)); [apply Hsame; reflexivity|].
    destruct (forallb _ _); [|simpl; eauto].
    match goal with |- context [nextGalleryItem ?g0] =>
      destruct (nextGalleryItem_appends g0) as [extra ->] end.
    simpl. rewrite <- app_assoc. eauto.
  - left. unfold tick. destruct (_ <=? _); [|apply Hsame; reflexivity].
    match goal with |- context [nextGalleryItem ?g0] =>
      destruct (nextGalleryItem_appends g0) as [extra ->] end.
    exists extra. reflexivity.
  - right. exists rd, dodgerIndex. split; [reflexivity|].
    unfold startNewRound_resume. guards; reflexivity.
Qed.

(** X9.  In a reachable state the ids of the artifact list are the
    numbers 1 to its length, each once, in whatever order the shuffle
    left them. *)
Theorem artwork_ids_are_one_to_n (g : Game) :
  reachable g →
  map aid (artworks g) ≡ₚ seqZ 1 (Z.of_nat (length (artworks g))).
Proof.
  intros Hr. destruct (reachable_ledger g Hr) as (_ & _ & Hnd & Hrange).
  rewrite length_map in Hrange.
  apply submseteq_length_Permutation.
  - apply NoDup_submseteq; [exact Hnd|]. intros k Hk.
    apply elem_of_seqZ. apply Hrange in Hk. lia.
  - rewrite length_seqZ, length_map. lia.
Qed.

(** X10.  In a reachable state every vote of the ledger targets an
    artifact of the list, and looking that artifact up by id finds it. *)
Theorem votes_target_listed_artifacts (g : Game) :
  reachable g →
  ∀ v, v ∈ votes g →
    ∃ a, a ∈ artworks g ∧ aid a = artworkId v
         ∧ List.find (fun x => Z.eqb (aid x) (artworkId v)) (artworks g) = Some a.
Proof.
  intros Hr v Hv. destruct (reachable_ledger g Hr) as (_ & Htarget & Hnd & _).
  apply Htarget in Hv. apply list_elem_of_fmap in Hv as (a & Hid & Hin).
  exists a. split; [exact Hin|]. split; [symmetry; exact Hid|].
  rewrite Hid. apply find_by_id; assumption.
Qed.

(** *** The countdown *)

Lemma run_snoc g es e : run g (es ++ [e]) = final (step (run g es) e).
Proof. unfold run. rewrite fold_left_app. reflexivity. Qed.

Lemma ticks_count_down (s : Game) (k : nat) :
  galleryTimer s = TimerLive → Z.of_nat k < galleryTime s →
  run s (repeat ETick k) = set_galleryTime (galleryTime s - Z.of_nat k) s.
Proof.
  intros Hlive. induction k as [|k IH]; intros Hk.
  - destruct s. unfold set_galleryTime. simpl. f_equal. lia.
  - change (repeat ETick (S k)) with (ETick :: repeat ETick k).
    rewrite repeat_cons, run_snoc, IH by lia.
    simpl. unfold tick. cbn [galleryTime set_galleryTime].
    destruct (Z.leb_spec (galleryTime s - Z.of_nat k - 1) 0) as [Hle | Hgt]; [lia|].
    simpl. unfold set_galleryTime. simpl. f_equal. lia.
Qed.

Lemma ticks_enabled (k : nat) :
  ∀ s, galleryTimer s = TimerLive → Z.of_nat k < galleryTime s →
       EnabledAll s (repeat ETick k).
Proof.
  induction k as [|k IH]; intros s Hlive Hk; simpl; [exact I|].
  split; [exact Hlive|]. unfold tick. cbn [galleryTime set_galleryTime].
  destruct (Z.leb_spec (galleryTime s - 1) 0) as [Hle | Hgt]; [lia|].
  simpl. apply IH; [exact Hlive | simpl; lia].
Qed.

(** X11.  A countdown that was just started lasts its full duration: for
    every [k] below [GALLERY_TIMER_SECONDS], [k] ticks only lower the
    remaining time to the duration minus [k], and when one second is left
    the next tick is the forced advance. *)
Theorem countdown_lasts_full_duration (g : Game) (k : nat) :
  Z.of_nat k < GALLERY_TIMER_SECONDS →
  run (startGalleryTimer g) (repeat ETick k)
  = set_galleryTime (GALLERY_TIMER_SECONDS - Z.of_nat k) (startGalleryTimer g)
  ∧ EnabledAll (startGalleryTimer g) (repeat ETick k)
  ∧ (Z.of_nat k + 1 = GALLERY_TIMER_SECONDS →
     step (run (startGalleryTimer g) (repeat ETick k)) ETick
     = nextGalleryItem (set_galleryTime 0 (startGalleryTimer g))).
Proof.
  intros Hk.
  assert (Hlive : galleryTimer (startGalleryTimer g) = TimerLive) by reflexivity.
  assert (Htime : galleryTime (startGalleryTimer g) = GALLERY_TIMER_SECONDS) by reflexivity.
  assert (Hrun : ∀ j, Z.of_nat j < GALLERY_TIMER_SECONDS →
             run (startGalleryTimer g) (repeat ETick j)
             = set_galleryTime (GALLERY_TIMER_SECONDS - Z.of_nat j) (startGalleryTimer g)).
  { intros j Hj. rewrite (ticks_count_down _ j Hlive) by (rewrite Htime; exact Hj).
    rewrite Htime. reflexivity. }
  split; [apply Hrun, Hk|]. split.
  - apply ticks_enabled; [exact Hlive | rewrite Htime; exact Hk].
  - intros Hlast. rewrite (Hrun k Hk). simpl. unfold tick.
    cbn [galleryTime set_galleryTime].
    destruct (Z.leb_spec (GALLERY_TIMER_SECONDS - Z.of_nat k - 1) 0) as [Hle | Hgt]; [|lia].
    f_equal. unfold set_galleryTime. simpl. f_equal. lia.
Qed.

End Invariants.

(** * Further properties of the service *)

Section ServiceMore.

Import Gemini Critic.

(** X12.  [withRetry] looks at no more than three attempts.  When it
    resolves, it resolves with the first attempt that succeeded, every
    attempt before it having failed with a rate-limit error.  When it
    rejects, it rejects with the error of the attempt it stopped at (or
    with the [TypeError] of reading that error's message), and it stopped
    there because that was the third attempt or the error was not a
    rate-limit error. *)
Theorem withRetry_attempts {T} (apiCall : nat → Settled T) :
  (∀ other, (∀ k, (k < 3)%nat → other k = apiCall k) →
            withRetry other = withRetry apiCall)
  ∧ (∀ v, withRetry apiCall = Resolved v →
       ∃ k, (k < 3)%nat ∧ apiCall k = Resolved v
            ∧ ∀ j, (j < k)%nat →
                   ∃ e, apiCall j = Rejected e ∧ isRateLimitError e = true)
  ∧ (∀ e, withRetry apiCall = Rejected e →
       ∃ k e0, (k < 3)%nat ∧ apiCall k = Rejected e0
            ∧ (∀ j, (j < k)%nat →
                    ∃ e', apiCall j = Rejected e' ∧ isRateLimitError e' = true)
            ∧ (e = e0 ∨ (errorMessage e0 = None ∧ e = ErrorObj "TypeError"))
            ∧ (k = 2%nat ∨ isRateLimitError e0 = false)).
Proof.
  split; [|split].
  - intros other Hsame. unfold withRetry, maxRetries. simpl.
    rewrite !Hsame by lia. reflexivity.
  - intros v. unfold withRetry, maxRetries, isRateLimitError. simpl.
    destruct (apiCall 0%nat) as [v0|e0] eqn:H0.
    { intros [= <-]. exists 0%nat. split; [lia|]. split; [exact H0|].
      intros j Hj; lia. }
    destruct (errorMessage e0) as [m0|] eqn:Hm0; [|discriminate].
    destruct (includes "429" m0 || includes "resource_exhausted" m0) eqn:Hr0;
      simpl; [|discriminate].
    destruct (apiCall 1%nat) as [v1|e1] eqn:H1.
    { intros [= <-]. exists 1%nat. split; [lia|]. split; [exact H1|].
      intros j Hj. assert (j = 0%nat) as -> by lia. exists e0. rewrite Hm0. auto. }
    destruct (errorMessage e1) as [m1|] eqn:Hm1; [|discriminate].
    destruct (includes "429" m1 || includes "resource_exhausted" m1) eqn:Hr1;
      simpl; [|discriminate].
    destruct (apiCall 2%nat) as [v2|e2] eqn:H2.
    { intros [= <-]. exists 2%nat. split; [lia|]. split; [exact H2|].
      intros j Hj.
      destruct j as [|[|j]]; [exists e0; rewrite Hm0 | exists e1; rewrite Hm1 | lia]; auto. }
    destruct (errorMessage e2) as [m2|]; [|discriminate].
    rewrite andb_false_r. discriminate.
  - intros e. unfold withRetry, maxRetries, isRateLimitError. simpl.
    destruct (apiCall 0%nat) as [v0|e0] eqn:H0; [discriminate|].
    destruct (errorMessage e0) as [m0|] eqn:Hm0.
    2:{ intros [= <-]. exists 0%nat, e0. rewrite Hm0.
        split; [lia|]. split; [exact H0|]. split; [intros j Hj; lia|]. auto. }
    destruct (includes "429" m0 || includes "resource_exhausted" m0) eqn:Hr0; simpl.
    2:{ intros [= <-]. exists 0%nat, e0. rewrite Hm0.
        split; [lia|]. split; [exact H0|]. split; [intros j Hj; lia|]. auto. }
    assert (Hj0 : ∃ e', apiCall 0%nat = Rejected e'
                        ∧ match errorMessage e' with
                          | Some msg => includes "429" msg || includes "resource_exhausted" msg
                          | None => false
                          end = true)
      by (exists e0; rewrite Hm0; auto).
    destruct (apiCall 1%nat) as [v1|e1] eqn:H1; [discriminate|].
    destruct (errorMessage e1) as [m1|] eqn:Hm1.
    2:{ intros [= <-]. exists 1%nat, e1. rewrite Hm1.
        split; [lia|]. split; [exact H1|].
        split; [intros j Hj; assert (j = 0%nat) as -> by lia; exact Hj0|]. auto. }
    destruct (includes "429" m1 || includes "resource_exhausted" m1) eqn:Hr1; simpl.
    2:{ intros [= <-]. exists 1%nat, e1. rewrite Hm1.
        split; [lia|]. split; [exact H1|].
        split; [intros j Hj; assert (j = 0%nat) as -> by lia; exact Hj0|]. auto. }
    assert (Hj1 : ∃ e', apiCall 1%nat = Rejected e'
                        ∧ match errorMessage e' with
                          | Some msg => includes "429" msg || includes "resource_exhausted" msg
                          | None => false
                          end = true)
      by (exists e1; rewrite Hm1; auto).
    destruct (apiCall 2%nat) as [v2|e2] eqn:H2; [discriminate|].
    assert (Hearlier : ∀ j, (j < 2)%nat →
              ∃ e', apiCall j = Rejected e'
                    ∧ match errorMessage e' with
                      | Some msg => includes "429" msg || includes "resource_exhausted" msg
                      | None => false
                      end = true).
    { intros j Hj. destruct j as [|[|j]]; [exact Hj0 | exact Hj1 | lia]. }
    destruct (errorMessage e2) as [m2|] eqn:Hm2.
    + rewrite andb_false_r. intros [= <-]. exists 2%nat, e2. rewrite Hm2.
      split; [lia|]. split; [exact H2|]. split; [exact Hearlier|]. auto.
    + intros [= <-]. exists 2%nat, e2. rewrite Hm2.
      split; [lia|]. split; [exact H2|]. split; [exact Hearlier|]. auto.
Qed.

(** X13.  [evaluateArtworks] never rejects; and when the retried call to
    the critic fails, both rankings it returns are rearrangements of the
    ids of the artifacts it was given. *)
Theorem evaluateArtworks_always_ranks
    (parse : string → Settled Parsed) (sdk : nat → Settled (option string))
    (shuffle1 shuffle2 : list Z → list Z) (arts : list Artwork) :
  (∀ l, Permutation l (shuffle1 l)) → (∀ l, Permutation l (shuffle2 l)) →
  (∃ q o, evaluateArtworks parse sdk shuffle1 shuffle2 arts = Resolved (q, o))
  ∧ ((∃ e, withRetry (evaluationCall parse sdk) = Rejected e) →
     ∃ q o, evaluateArtworks parse sdk shuffle1 shuffle2 arts = Resolved (q, o)
            ∧ Permutation (map aid arts) q ∧ Permutation (map aid arts) o).
Proof.
  intros H1 H2. unfold evaluateArtworks. split.
  - destruct (withRetry (evaluationCall parse sdk)) as [[q o]|e]; eauto.
  - intros [e ->]. do 2 eexists. split; [reflexivity|]. split; [apply H1|].
    etransitivity; [apply H1 | apply H2].
Qed.

End ServiceMore.

Section Podium.

Context {constants : Constants}.

Lemma sumZ_perm (l1 l2 : list Z) : Permutation l1 l2 → sumZ l1 = sumZ l2.
Proof.
  unfold sumZ. induction 1; simpl; lia.
Qed.

Lemma rank_bonus_outside (a b c : Z) (rest : list Z) x :
  x ≠ a → x ≠ b → x ≠ c → rank_bonus (a :: b :: c :: rest) x = 0.
Proof.
  intros Ha Hb Hc. unfold rank_bonus. simpl.
  rewrite !bool_decide_eq_false_2 by congruence. reflexivity.
Qed.

(** A ranking without repetition hands out 3, 2 and 1 once each, as far
    as it has entries. *)
Lemma ranking_podium (q : list Z) :
  NoDup q → sumZ (map (rank_bonus q) q) = podium (length q).
Proof.
  intros Hnd. destruct q as [|a [|b [|c rest]]].
  - reflexivity.
  - unfold rank_bonus. simpl. rewrite bool_decide_eq_true_2 by reflexivity. reflexivity.
  - apply NoDup_cons in Hnd as [Ha _]. apply not_elem_of_cons in Ha as [Hab _].
    unfold rank_bonus. simpl.
    rewrite (bool_decide_eq_true_2 (Some a = Some a)) by reflexivity.
    rewrite (bool_decide_eq_false_2 (Some a = Some b)) by congruence.
    rewrite (bool_decide_eq_true_2 (Some b = Some b)) by reflexivity. reflexivity.
  - apply NoDup_cons in Hnd as [Ha Hnd]. apply NoDup_cons in Hnd as [Hb Hnd].
    apply NoDup_cons in Hnd as [Hc Hnd].
    apply not_elem_of_cons in Ha as [Hab Ha]. apply not_elem_of_cons in Ha as [Hac Ha].
    apply not_elem_of_cons in Hb as [Hbc Hb].
    assert (Hrest : sumZ (map (rank_bonus (a :: b :: c :: rest)) rest) = 0).
    { assert (H : ∀ l, (∀ x, x ∈ l → x ∈ rest) →
                       sumZ (map (rank_bonus (a :: b :: c :: rest)) l) = 0).
      { induction l as [|x l IH]; intros Hsub; [reflexivity|].
        unfold sumZ in *. simpl. rewrite IH by (intros y Hy; apply Hsub; right; exact Hy).
        rewrite rank_bonus_outside; [reflexivity | | |];
          intros ->; [apply Ha | apply Hb | apply Hc]; apply Hsub; left. }
      apply H. auto. }
    change (map (rank_bonus (a :: b :: c :: rest)) (a :: b :: c :: rest))
      with (rank_bonus (a :: b :: c :: rest) a :: rank_bonus (a :: b :: c :: rest) b
            :: rank_bonus (a :: b :: c :: rest) c
            :: map (rank_bonus (a :: b :: c :: rest)) rest).
    unfold sumZ in *. cbn [fold_right]. rewrite Hrest.
    unfold rank_bonus. simpl.
    rewrite (bool_decide_eq_true_2 (Some a = Some a)) by reflexivity.
    rewrite (bool_decide_eq_false_2 (Some a = Some b)) by congruence.
    rewrite (bool_decide_eq_true_2 (Some b = Some b)) by reflexivity.
    rewrite (bool_decide_eq_false_2 (Some a = Some c)) by congruence.
    rewrite (bool_decide_eq_false_2 (Some b = Some c)) by congruence.
    rewrite (bool_decide_eq_true_2 (Some c = Some c)) by reflexivity. reflexivity.
Qed.

Lemma NoDup_take_3 (q : list Z) : NoDup q → NoDup (take 3 q).
Proof. intros H. eapply sublist_NoDup; [exact H | apply sublist_take]. Qed.

(** X14.  In a reachable state with a deviator artifact, rankings that
    rearrange the ids of the artifact list (as the fallback of the critic
    does) make one scoring pass hand out, over all artifacts, 3 + 2 + 1
    quality points and as many originality points, or the part of that sum
    for which there are artifacts. *)
Theorem ranked_bonuses_total (g : Game) (q o : list Z) :
  reachable g →
  Permutation (map aid (artworks g)) q → Permutation (map aid (artworks g)) o →
  is_Some (List.find isDodger (artworks g)) →
  totalQuality (artworks (calculateScores q o g)) = podium (length (artworks g))
  ∧ totalOriginality (artworks (calculateScores q o g)) = podium (length (artworks g)).
Proof.
  intros Hr Hq Ho [d Hd]. destruct (reachable_ledger g Hr) as (_ & _ & Hnd & _).
  assert (Hndq : NoDup q) by (rewrite <- Hq; exact Hnd).
  assert (Hndo : NoDup o) by (rewrite <- Ho; exact Hnd).
  unfold calculateScores. rewrite Hd. cbn [artworks set_artworks set_players].
  assert (Hlook : ∀ a, a ∈ artworks g →
            buildScoreMap q o (artworks g) !! aid a
            = Some (mkBonus (rank_bonus q (aid a)) (rank_bonus o (aid a)))).
  { intros a Ha. apply buildScoreMap_lookup; try apply NoDup_take_3; try assumption.
    apply list_elem_of_fmap. eauto. }
  assert (Htot : ∀ l, (∀ a, a ∈ l → a ∈ artworks g) →
            totalQuality (map (persistBonus (buildScoreMap q o (artworks g))) l)
            = sumZ (map (rank_bonus q) (map aid l))
            ∧ totalOriginality (map (persistBonus (buildScoreMap q o (artworks g))) l)
              = sumZ (map (rank_bonus o) (map aid l))).
  { induction l as [|a l IH]; intros Hsub; [split; reflexivity|].
    destruct IH as [IHq IHo]; [intros b Hb; apply Hsub; right; exact Hb|].
    unfold totalQuality, totalOriginality, sumZ in *. simpl.
    rewrite (Hlook a) by (apply Hsub; left). simpl. rewrite IHq, IHo.
    split; reflexivity. }
  destruct (Htot (artworks g)) as [-> ->]; [auto|].
  rewrite <- (length_map aid (artworks g)).
  rewrite (sumZ_perm _ _ (Permutation_map (rank_bonus q) Hq)).
  rewrite (sumZ_perm _ _ (Permutation_map (rank_bonus o) Ho)).
  rewrite (ranking_podium q Hndq), (ranking_podium o Hndo).
  rewrite (Permutation_length Hq) at 1. rewrite (Permutation_length Ho).
  split; reflexivity.
Qed.

(** *** The reveal screen *)

Lemma active_reachable g : active g → reachable g.
Proof.
  induction 1 as [g rd i g' Hr Hen Hs | g e Ha IH Hen Hun].
  - replace g' with (final (step g (ERoundData rd i))) by (rewrite Hs; reflexivity).
    apply reachable_step; assumption.
  - apply reachable_step; assumption.
Qed.

Lemma sole_flagged (arts : list Artwork) a d :
  (length (List.filter isDodger arts) <= 1)%nat →
  a ∈ arts → d ∈ arts → isDodger a = true → isDodger d = true → a = d.
Proof.
  intros Hone Ha Hd Hfa Hfd.
  assert (Ha' : In a (List.filter isDodger arts))
    by (apply filter_In; split; [apply list_elem_of_In, Ha | exact Hfa]).
  assert (Hd' : In d (List.filter isDodger arts))
    by (apply filter_In; split; [apply list_elem_of_In, Hd | exact Hfd]).
  destruct (List.filter isDodger arts) as [|x [|y l]]; simpl in Hone; try lia.
  - destruct Ha'.
  - destruct Ha' as [<- | []], Hd' as [<- | []]. reflexivity.
Qed.

Lemma existsb_ext_in {A} (f h : A → bool) (l : list A) :
  (∀ a, a ∈ l → f a = h a) → existsb f l = existsb h l.
Proof.
  induction l as [|a l IH]; simpl; intros H; [reflexivity|].
  rewrite (H a (list_elem_of_here a l)), IH; [reflexivity|].
  intros b Hb. apply H. right. exact Hb.
Qed.

(** X15.  From a completed round setup on, while the deviator stays, the
    reveal screen tells a player "You correctly identified the Dodger"
    exactly when the scoring pass finds an approving vote of that player
    on the deviator's artifact, that is, when it awards the detection
    point. *)
Theorem reveal_message_matches_detection_point (g : Game) (me : Player) (d : Artwork) :
  active g →
  List.find isDodger (artworks g) = Some d →
  userCorrectlyIdentifiedDodger (Some me) (getSerializableState g)
  = match List.find (vote_matches (pid me) (aid d)) (votes g) with
    | Some v => isYes v
    | None => false
    end.
Proof.
  intros Ha Hd. pose proof (active_reachable g Ha) as Hr.
  destruct (reachable_ledger g Hr) as (Hu & Htarget & Hnd & _).
  destruct (active_deviator_ok g Ha) as (_ & _ & _ & J4).
  assert (Hone : (length (List.filter isDodger (artworks g)) <= 1)%nat)
    by (rewrite J4; destruct (existsb _ _); lia).
  apply find_some in Hd as [Hdin Hdflag]. apply list_elem_of_In in Hdin.
  rewrite (find_vote_cast_yes (pid me) (aid d) (votes g) Hu).
  unfold userCorrectlyIdentifiedDodger, cast_yes_on. simpl.
  apply existsb_ext_in. intros v Hv. unfold vote_matches. f_equal. f_equal.
  apply Htarget in Hv. apply list_elem_of_fmap in Hv as (a & Hid & Hain).
  rewrite Hid, (find_by_id (artworks g) a Hnd Hain).
  destruct (isDodger a) eqn:Hfa.
  - rewrite (sole_flagged (artworks g) a d Hone Hain Hdin Hfa Hdflag).
    symmetry. apply Z.eqb_refl.
  - symmetry. apply Z.eqb_neq. intros Heq.
    pose proof (find_by_id (artworks g) a Hnd Hain) as F1.
    pose proof (find_by_id (artworks g) d Hnd Hdin) as F2.
    rewrite Heq, F2 in F1. congruence.
Qed.

End Podium.

Section RegistryProperties.

Context {constants : Constants}.

Lemma length_append (s1 s2 : string) :
  String.length (String.append s1 s2) = (String.length s1 + String.length s2)%nat.
Proof. induction s1 as [|c s1 IH]; simpl; [reflexivity | rewrite IH; reflexivity]. Qed.

Lemma charAt_chars (i : nat) : (i < 26)%nat → String.length (charAt chars i) = 1%nat.
Proof.
  intros Hi. do 26 (destruct i as [|i]; [reflexivity|]). lia.
Qed.

Lemma spell_length a b c d :
  (a < 26)%nat → (b < 26)%nat → (c < 26)%nat → (d < 26)%nat →
  String.length (spell a b c d) = 4%nat.
Proof.
  intros Ha Hb Hc Hd. unfold spell. rewrite !length_append, !charAt_chars by assumption.
  reflexivity.
Qed.

Lemma generateRoomId_fresh (games : gmap string Game) (rand : list nat) id :
  generateRoomId games rand = Some id →
  games !! id = None
  ∧ (Forall (fun i => (i < 26)%nat) rand → String.length id = 4%nat).
Proof.
  revert id. induction rand as [rand IH] using (well_founded_induction
    (well_founded_ltof _ (@length nat))).
  intros id. destruct rand as [|a [|b [|c [|d rest]]]]; simpl; try discriminate.
  case_bool_decide as Hreg.
  - intros Hgen. destruct (IH rest) with (id := id) as [Hnone Hlen];
      [unfold ltof; simpl; lia | exact Hgen |].
    split; [exact Hnone|]. intros Hall.
    apply Hlen. do 4 (apply Forall_cons in Hall as [_ Hall]). exact Hall.
  - intros [= <-]. split.
    + destruct (games !! spell a b c d) eqn:Hl; [|reflexivity].
      exfalso. apply Hreg. eauto.
    + intros Hall.
      apply Forall_cons in Hall as [Ha Hall]. apply Forall_cons in Hall as [Hb Hall].
      apply Forall_cons in Hall as [Hc Hall]. apply Forall_cons in Hall as [Hd _].
      apply spell_length; assumption.
Qed.

(** X16.  A successful [createGame] hands back a four-letter code (when
    the random indices are below 26) that was not registered before, files
    under it a lobby whose only player, if the capacity allows one, is the
    creator, and leaves every other room as it was. *)
Theorem createGame_opens_fresh_room (socket name : string) (rand : list nat)
    (games games' : gmap string Game) (room : string) :
  on_createGame socket name rand games = Some (room, games') →
  games !! room = None
  ∧ (Forall (fun i => (i < 26)%nat) rand → String.length room = 4%nat)
  ∧ (∀ other, other ≠ room → games' !! other = games !! other)
  ∧ ∃ game, games' !! room = Some game
      ∧ roomId game = room ∧ state game = LOBBY
      ∧ ((1 <= TOTAL_PLAYERS)%nat → map seat (players game) = [(socket, name)]).
Proof.
  unfold on_createGame. destruct (generateRoomId games rand) as [id|] eqn:Hgen;
    [|discriminate].
  intros [= <- <-]. destruct (generateRoomId_fresh games rand id Hgen) as [Hnone Hlen].
  split; [exact Hnone|]. split; [exact Hlen|]. split.
  - intros other Hne. apply lookup_insert_ne. congruence.
  - eexists. split; [apply lookup_insert_eq|].
    unfold addPlayer. simpl.
    destruct (Nat.leb_spec TOTAL_PLAYERS 0); simpl.
    + repeat split; try reflexivity. lia.
    + repeat split; reflexivity.
Qed.

Lemma dispatch_is_step socket a g :
  final (dispatch socket a g) = g
  ∨ ∃ e, seating_event e = false ∧ Enabled g e
         ∧ final (dispatch socket a g) = final (step g e).
Proof.
  destruct a; simpl.
  - unfold on_startGame. destruct (isHost socket g) as [[|]|]; simpl; auto.
    right. exists EStartGame. simpl. auto.
  - right. exists (EPlayerReady socket). simpl. auto.
  - right. exists (EPromptSubmission socket text). simpl. auto.
  - right. exists (EVote socket yes). simpl. auto.
  - right. exists ENextRound. simpl. auto.
  - unfold on_playAgain. destruct (isHost socket g) as [[|]|]; simpl; auto.
    right. exists EResetGame. simpl. auto.
Qed.

Lemma room_ok_quiet room g e :
  seating_event e = false → Enabled g e → room_ok room g → room_ok room (final (step g e)).
Proof.
  intros He Hen (Hr & Hid & Hn).
  destruct (step_seats g e He) as [_ Hroom].
  split; [apply reachable_step; assumption|]. split; [congruence|].
  rewrite (step_roster_size g e He). exact Hn.
Qed.

Lemma room_ok_addPlayer room socket name g :
  reachable g → roomId g = room → room_ok room (addPlayer socket name g).
Proof.
  intros Hr Hid. split; [exact (reachable_step g (EAddPlayer socket name) Hr I)|].
  unfold addPlayer. destruct (Nat.leb_spec TOTAL_PLAYERS (length (players g))); simpl.
  - split; [exact Hid | lia].
  - split; [exact Hid|]. rewrite length_app. simpl. lia.
Qed.

Lemma removePlayer_roomId socket g : roomId (removePlayer socket g) = roomId g.
Proof. unfold removePlayer, clearTimer. guards; reflexivity. Qed.

Lemma registry_rooms_ok games :
  serverReachable games → ∀ room game, games !! room = Some game → room_ok room game.
Proof.
  induction 1 as [| games ev Hr IH Hen]; intros room game Hl.
  - rewrite lookup_empty in Hl. discriminate.
  - destruct ev as [socket name rand | socket name room' | socket rooms a
                    | socket rooms | room' e]; simpl in Hl.
    + unfold on_createGame in Hl.
      destruct (generateRoomId games rand) as [id|]; [|eauto].
      destruct (decide (id = room)) as [-> | Hne].
      * rewrite lookup_insert_eq in Hl. injection Hl as <-.
        apply room_ok_addPlayer; [apply reachable_new | reflexivity].
      * rewrite lookup_insert_ne in Hl by exact Hne. eauto.
    + unfold on_joinGame in Hl. destruct (games !! room') as [g|] eqn:Hg; [|eauto].
      destruct (isFull g); simpl in Hl; [eauto|].
      destruct (decide (room' = room)) as [-> | Hne].
      * rewrite lookup_insert_eq in Hl. injection Hl as <-.
        destruct (IH room g Hg) as (Hrg & Hid & _). apply room_ok_addPlayer; assumption.
      * rewrite lookup_insert_ne in Hl by exact Hne. eauto.
    + unfold on_action in Hl. destruct (getRoom socket rooms) as [room'|]; [|eauto].
      destruct (games !! room') as [g|] eqn:Hg; [|eauto].
      destruct (decide (room' = room)) as [-> | Hne].
      * rewrite lookup_insert_eq in Hl. injection Hl as <-.
        destruct (dispatch_is_step socket a g) as [-> | (e & He & Hena & ->)];
          [eauto | apply room_ok_quiet; eauto].
      * rewrite lookup_insert_ne in Hl by exact Hne. eauto.
    + unfold on_disconnect in Hl. destruct (getRoom socket rooms) as [room'|]; [|eauto].
      destruct (games !! room') as [g|] eqn:Hg; [|eauto].
      destruct (IH room' g Hg) as (Hrg & Hid & Hn).
      rewrite removePlayer_roomId, Hid in Hl.
      destruct (Nat.eqb_spec (length (players (removePlayer socket g))) 0) as [Hz | Hnz].
      * apply lookup_delete_Some in Hl as [Hne Hl].
        rewrite lookup_insert_ne in Hl by exact Hne. eauto.
      * destruct (decide (room' = room)) as [-> | Hne].
        -- rewrite lookup_insert_eq in Hl. injection Hl as <-.
           split; [exact (reachable_step g (ERemovePlayer socket) Hrg I)|].
           split; [rewrite removePlayer_roomId; exact Hid | lia].
        -- rewrite lookup_insert_ne in Hl by exact Hne. eauto.
    + destruct Hen as [Hrun Hena]. destruct (games !! room') as [g|] eqn:Hg; [|eauto].
      destruct (decide (room' = room)) as [-> | Hne].
      * rewrite lookup_insert_eq in Hl. injection Hl as <-.
        apply room_ok_quiet; [destruct e; try discriminate Hrun; reflexivity | auto | eauto].
      * rewrite lookup_insert_ne in Hl by exact Hne. eauto.
Qed.

(** X17.  Whatever clients send and in whatever order, every game the
    registry holds is a reachable state of the session engine, filed under
    its own room code: the dispatcher never puts a game into a state the
    engine's own events could not produce. *)
Theorem registered_games_are_reachable (games : gmap string Game) (room : string)
    (game : Game) :
  serverReachable games → games !! room = Some game →
  reachable game ∧ roomId game = room.
Proof.
  intros Hr Hl. destruct (registry_rooms_ok games Hr room game Hl) as (H1 & H2 & _).
  split; assumption.
Qed.

(** X18.  With a capacity of at least one, a registered room is never
    empty (the last player leaving closes it), so the host test
    [game.players[0].id] of [startGame] and [playAgain] never raises on a
    game the registry resolves. *)
Theorem registered_rooms_have_a_host (games : gmap string Game) (room : string)
    (game : Game) (socket : string) :
  (1 <= TOTAL_PLAYERS)%nat →
  serverReachable games → games !! room = Some game →
  (1 <= length (players game))%nat
  ∧ is_Some (isHost socket game)
  ∧ raised (on_startGame socket game) = false
  ∧ raised (on_playAgain socket game) = false.
Proof.
  intros Hcap Hr Hl. destruct (registry_rooms_ok games Hr room game Hl) as (_ & _ & Hn).
  specialize (Hn Hcap). unfold on_startGame, on_playAgain, isHost.
  destruct (players game) as [|host rest]; simpl in *; [lia|].
  split; [lia|]. split; [eauto|].
  destruct (String.eqb (pid host) socket); split; reflexivity.
Qed.

(** X19.  A join that is accepted answers with the room code asked for,
    seats the newcomer behind everyone already there, so that the host of
    the room stays who it was, and touches no other room; a join that is
    refused changes nothing. *)
Theorem joinGame_seats_last (games games' : gmap string Game)
    (socket name room : string) (answer : option string) :
  (1 <= TOTAL_PLAYERS)%nat → serverReachable games →
  on_joinGame socket name room games = (answer, games') →
  match answer with
  | None =>
      games' = games
      ∧ (games !! room = None
         ∨ ∃ game, games !! room = Some game
                   ∧ length (players game) = TOTAL_PLAYERS)
  | Some code =>
      code = room
      ∧ ∃ game game', games !! room = Some game ∧ games' !! room = Some game'
          ∧ (length (players game) < TOTAL_PLAYERS)%nat
          ∧ map seat (players game') = map seat (players game) ++ [(socket, name)]
          ∧ (∀ s, isHost s game' = isHost s game)
          ∧ ∀ other, other ≠ room → games' !! other = games !! other
  end.
Proof.
  intros Hcap Hr. unfold on_joinGame.
  destruct (games !! room) as [game|] eqn:Hg; [|intros [= <- <-]; auto].
  destruct (registry_rooms_ok games Hr room game Hg) as (Hreach & _ & Hn).
  specialize (Hn Hcap).
  assert (Hle : (length (players game) <= TOTAL_PLAYERS)%nat).
  { clear Hn Hg. induction Hreach as [r | g e Hreach IH Hen];
      [simpl; lia | apply step_capacity, IH]. }
  unfold isFull, addPlayer.
  destruct (Nat.leb_spec TOTAL_PLAYERS (length (players game))) as [Hfull | Hfree];
    intros [= <- <-].
  - split; [reflexivity|]. right. exists game. split; [reflexivity | lia].
  - split; [reflexivity|]. eexists game, _. split; [reflexivity|].
    split; [apply lookup_insert_eq|]. split; [exact Hfree|]. simpl.
    split; [rewrite map_app; reflexivity|]. split.
    + intros s. unfold isHost. simpl.
      destruct (players game) as [|host rest]; simpl in *; [lia | reflexivity].
    + intros other Hne. apply lookup_insert_ne. congruence.
Qed.

(** X20.  Players leave a room, and a room is closed, only through a
    disconnect for which [getGame] still resolves a room.  After any other
    event of the server (a creation, a join, one of the six actions, an
    event of the runtime, and a disconnect whose [socket.rooms] names no
    room, as when it is empty) every registered room is still registered,
    under the same code, and its roster is the old one, at most extended
    at the end. *)
Theorem players_leave_only_by_resolved_disconnect (games : gmap string Game)
    (ev : ServerEvent) (room : string) (game : Game) :
  ServerEnabled games ev →
  match ev with
  | SDisconnect socket rooms => getRoom socket rooms = None
  | _ => True
  end →
  games !! room = Some game →
  ∃ game' extra,
    serverStep games ev !! room = Some game'
    ∧ map seat (players game') = map seat (players game) ++ extra
    ∧ roomId game' = roomId game.
Proof.
  intros Hen Hev Hg.
  assert (Hsame : ∃ game' extra, games !! room = Some game'
            ∧ map seat (players game') = map seat (players game) ++ extra
            ∧ roomId game' = roomId game).
  { exists game, []. rewrite app_nil_r. auto. }
  destruct ev as [socket name rand | socket name room' | socket rooms a
                  | socket rooms | room' e]; simpl.
  - unfold on_createGame. destruct (generateRoomId games rand) as [id|] eqn:Hgen;
      [|exact Hsame].
    destruct (generateRoomId_fresh games rand id Hgen) as [Hnone _].
    rewrite lookup_insert_ne by congruence. exact Hsame.
  - unfold on_joinGame. destruct (games !! room') as [g|] eqn:Hg'; [|exact Hsame].
    destruct (isFull g); simpl; [exact Hsame|].
    destruct (decide (room' = room)) as [-> | Hne];
      [|rewrite lookup_insert_ne by exact Hne; exact Hsame].
    rewrite lookup_insert_eq. rewrite Hg in Hg'. injection Hg' as <-.
    unfold addPlayer. destruct (TOTAL_PLAYERS <=? length (players game))%nat.
    + exists game, []. rewrite app_nil_r. auto.
    + eexists _, [(socket, name)]. split; [reflexivity|]. simpl.
      rewrite map_app. auto.
  - unfold on_action. destruct (getRoom socket rooms) as [room'|]; [|exact Hsame].
    destruct (games !! room') as [g|] eqn:Hg'; [|exact Hsame].
    destruct (decide (room' = room)) as [-> | Hne];
      [|rewrite lookup_insert_ne by exact Hne; exact Hsame].
    rewrite lookup_insert_eq. rewrite Hg in Hg'. injection Hg' as <-.
    destruct (dispatch_is_step socket a game) as [-> | (e & He & _ & ->)].
    + exists game, []. rewrite app_nil_r. auto.
    + destruct (step_seats game e He) as [Hs Hr].
      eexists _, []. rewrite app_nil_r. auto.
  - unfold on_disconnect. rewrite Hev. exact Hsame.
  - destruct Hen as [Hrun _].
    destruct (games !! room') as [g|] eqn:Hg'; [|exact Hsame].
    destruct (decide (room' = room)) as [-> | Hne];
      [|rewrite lookup_insert_ne by exact Hne; exact Hsame].
    rewrite lookup_insert_eq. rewrite Hg in Hg'. injection Hg' as <-.
    assert (He : seating_event e = false)
      by (destruct e; try discriminate Hrun; reflexivity).
    destruct (step_seats game e He) as [Hs Hr].
    eexists _, []. rewrite app_nil_r. auto.
Qed.

End RegistryProperties.

Section Unattended.

Context {constants : Constants}.

Lemma run_app g es1 es2 : run g (es1 ++ es2) = run (run g es1) es2.
Proof. unfold run. apply fold_left_app. Qed.

Lemma EnabledAll_app es1 es2 :
  ∀ g, EnabledAll g es1 → EnabledAll (run g es1) es2 → EnabledAll g (es1 ++ es2).
Proof.
  induction es1 as [|e es1 IH]; intros g H1 H2; simpl in *; [exact H2|].
  destruct H1 as [He H1]. split; [exact He | apply IH; assumption].
Qed.

Lemma set_galleryTime_twice a b g :
  set_galleryTime a (set_galleryTime b g) = set_galleryTime a g.
Proof. destruct g. reflexivity. Qed.

(** A full countdown ends in the forced advance. *)
Lemma countdown_expires (g : Game) (t : nat) :
  GALLERY_TIMER_SECONDS = Z.of_nat t → (1 <= t)%nat →
  galleryTimer g = TimerLive → galleryTime g = GALLERY_TIMER_SECONDS →
  run g (repeat ETick t) = final (nextGalleryItem (set_galleryTime 0 g))
  ∧ EnabledAll g (repeat ETick t).
Proof.
  intros HT Ht Hlive Htime.
  destruct t as [|k]; [lia|].
  assert (Hk : Z.of_nat k < galleryTime g) by lia.
  change (repeat ETick (S k)) with (ETick :: repeat ETick k).
  rewrite repeat_cons. split.
  - rewrite run_snoc, (ticks_count_down g k Hlive Hk). simpl. unfold tick.
    cbn [galleryTime set_galleryTime]. rewrite set_galleryTime_twice.
    destruct (Z.leb_spec (galleryTime g - Z.of_nat k - 1) 0) as [Hle | Hgt]; [|lia].
    replace (galleryTime g - Z.of_nat k - 1) with 0 by lia. reflexivity.
  - apply EnabledAll_app; [apply ticks_enabled; assumption|].
    rewrite (ticks_count_down g k Hlive Hk). simpl. split; [exact Hlive | exact I].
Qed.

Lemma forced_advance (g : Game) (cur : Artwork) :
  galleryTimer g = TimerLive → artworks g !! galleryIndex g = Some cur →
  final (nextGalleryItem (set_galleryTime 0 g))
  = let g2 := set_votes (synthesize (aid cur) (players g) (votes g))
                (set_galleryTimer TimerCleared (set_galleryTime 0 g)) in
    if Z.of_nat (galleryIndex g) <? Z.of_nat (length (artworks g)) - 1
    then startGalleryTimer (set_galleryIndex (S (galleryIndex g)) g2)
    else runArtEvaluation g2.
Proof.
  destruct g. simpl. intros -> Hcur. unfold nextGalleryItem, clearTimer. simpl.
  rewrite Hcur. simpl. destruct (_ <? _); reflexivity.
Qed.

Lemma gallery_walk (t : nat) :
  GALLERY_TIMER_SECONDS = Z.of_nat t → (1 <= t)%nat →
  ∀ (m : nat) (g : Game),
    galleryTimer g = TimerLive → galleryTime g = GALLERY_TIMER_SECONDS →
    (galleryIndex g + S m)%nat = length (artworks g) →
    is_Some (roundData g) →
    EnabledAll g (repeat ETick (t * S m))
    ∧ state (run g (repeat ETick (t * S m))) = SCORING
    ∧ galleryTimer (run g (repeat ETick (t * S m))) = TimerCleared
    ∧ pending (run g (repeat ETick (t * S m))) = pending g ++ [TEvaluate]
    ∧ artworks (run g (repeat ETick (t * S m))) = artworks g
    ∧ players (run g (repeat ETick (t * S m))) = players g
    ∧ (∃ extra, votes (run g (repeat ETick (t * S m))) = votes g ++ extra)
    ∧ (∀ p a j, p ∈ players g → (galleryIndex g <= j)%nat → artworks g !! j = Some a →
         existsb (vote_matches (pid p) (aid a)) (votes (run g (repeat ETick (t * S m))))
         = true).
Proof.
  intros HT Ht. induction m as [|m IH]; intros g Hlive Htime Hidx [rd Hrd].
  - destruct (countdown_expires g t HT Ht Hlive Htime) as [Hrun Hen].
    rewrite Nat.mul_1_r, Hrun.
    destruct (lookup_lt_is_Some_2 (artworks g) (galleryIndex g)) as [cur Hcur]; [lia|].
    rewrite (forced_advance g cur Hlive Hcur). cbv zeta.
    destruct (Z.ltb_spec (Z.of_nat (galleryIndex g)) (Z.of_nat (length (artworks g)) - 1))
      as [Hlt | Hge]; [lia|].
    destruct (synthesize_extends (aid cur) (players g) (votes g)) as (extra & Hext & _).
    assert (Hall : ∀ p a j, p ∈ players g → (galleryIndex g <= j)%nat →
              artworks g !! j = Some a →
              existsb (vote_matches (pid p) (aid a))
                (synthesize (aid cur) (players g) (votes g)) = true).
    { intros p a j Hp Hj Ha.
      assert (j = galleryIndex g) as -> by (apply lookup_lt_Some in Ha; lia).
      rewrite Hcur in Ha. injection Ha as <-. apply synthesize_covers, Hp. }
    clear Hrun. unfold runArtEvaluation. destruct g. simpl in *. subst roundData0. simpl.
    repeat apply conj; try reflexivity; [exact Hen | eauto | exact Hall].
  - destruct (countdown_expires g t HT Ht Hlive Htime) as [Hrun Hen].
    replace (t * S (S m))%nat with (t + t * S m)%nat by lia.
    rewrite repeat_app, run_app, Hrun.
    destruct (lookup_lt_is_Some_2 (artworks g) (galleryIndex g)) as [cur Hcur]; [lia|].
    remember (final (nextGalleryItem (set_galleryTime 0 g))) as g1 eqn:Eg1.
    assert (Hg1 : g1 = startGalleryTimer
                         (set_galleryIndex (S (galleryIndex g))
                            (set_votes (synthesize (aid cur) (players g) (votes g))
                               (set_galleryTimer TimerCleared (set_galleryTime 0 g))))).
    { rewrite Eg1, (forced_advance g cur Hlive Hcur). cbv zeta.
      destruct (Z.ltb_spec (Z.of_nat (galleryIndex g)) (Z.of_nat (length (artworks g)) - 1))
        as [Hlt | Hge]; [reflexivity | lia]. }
    assert (Hfields : galleryTimer g1 = TimerLive ∧ galleryTime g1 = GALLERY_TIMER_SECONDS
              ∧ galleryIndex g1 = S (galleryIndex g) ∧ artworks g1 = artworks g
              ∧ players g1 = players g ∧ roundData g1 = roundData g
              ∧ pending g1 = pending g
              ∧ votes g1 = synthesize (aid cur) (players g) (votes g)).
    { rewrite Hg1. destruct g. repeat split. }
    destruct Hfields as (F1 & F2 & F3 & F4 & F5 & F6 & F7 & F8).
    destruct (IH g1) as (I1 & I2 & I3 & I4 & I5 & I6 & (extra' & I7) & I8);
      [exact F1 | exact F2 | rewrite F3, F4; lia | rewrite F6; eauto |].
    destruct (synthesize_extends (aid cur) (players g) (votes g)) as (extra & Hext & _).
    split; [apply EnabledAll_app; [exact Hen | rewrite Hrun; exact I1]|].
    split; [exact I2|]. split; [exact I3|].
    split; [rewrite I4, F7; reflexivity|].
    split; [rewrite I5; exact F4|]. split; [rewrite I6; exact F5|].
    split.
    + exists (extra ++ extra'). rewrite I7, F8, Hext, app_assoc. reflexivity.
    + intros p a j Hp Hj Ha.
      destruct (decide (j = galleryIndex g)) as [-> | Hne].
      * rewrite Hcur in Ha. injection Ha as <-.
        rewrite I7, F8, existsb_app, (synthesize_covers (aid cur) (players g) (votes g) p Hp).
        reflexivity.
      * apply (I8 p a j); [rewrite F5; exact Hp | rewrite F3; lia | rewrite F4; exact Ha].
Qed.

(** X21.  A gallery nobody votes in finishes by itself.  With a duration
    of [t >= 1] seconds, a freshly started countdown on artifact [i] of
    [n], and round data present, [t * (n - i)] ticks can be delivered one
    after the other; they end in the scoring phase with the interval
    cleared and the evaluation requested, lose nothing of the ledger, and
    leave a vote by every player on every artifact from [i] on. *)
Theorem gallery_finishes_unattended (g : Game) (t : nat) :
  GALLERY_TIMER_SECONDS = Z.of_nat t → (1 <= t)%nat →
  galleryTimer g = TimerLive → galleryTime g = GALLERY_TIMER_SECONDS →
  (galleryIndex g < length (artworks g))%nat →
  is_Some (roundData g) →
  let ticks := repeat ETick (t * (length (artworks g) - galleryIndex g)) in
  EnabledAll g ticks
  ∧ state (run g ticks) = SCORING
  ∧ galleryTimer (run g ticks) = TimerCleared
  ∧ pending (run g ticks) = pending g ++ [TEvaluate]
  ∧ artworks (run g ticks) = artworks g
  ∧ players (run g ticks) = players g
  ∧ (∃ extra, votes (run g ticks) = votes g ++ extra)
  ∧ (∀ p a j, p ∈ players g → (galleryIndex g <= j)%nat → artworks g !! j = Some a →
       existsb (vote_matches (pid p) (aid a)) (votes (run g ticks)) = true).
Proof.
  intros HT Ht Hlive Htime Hidx Hrd ticks. unfold ticks.
  destruct (length (artworks g) - galleryIndex g)%nat as [|m] eqn:Hm; [lia|].
  apply gallery_walk; try assumption. lia.
Qed.

End Unattended.

(** * Further sample sessions *)

Section MoreSamples.

#[local] Existing Instance party.

Import Gemini Critic.

Lemma active_scoringGame : active scoringGame.
Proof. apply active_run; [apply active_galleryGame | run_conditions | run_conditions]. Qed.

Lemma serverReachable_created :
  serverReachable (serverStep ∅ (SCreate "ann" "Ann" [0; 1; 2; 3]%nat)).
Proof. apply serverReachable_step; [apply serverReachable_start | exact I]. Qed.

Lemma serverReachable_lobbyRegistry : serverReachable lobbyRegistry.
Proof. apply serverReachable_step; [apply serverReachable_created | exact I]. Qed.

Lemma lobbyRegistry_room :
  lobbyRegistry !! "ABCD"
  = Some (addPlayer "bob" "Bob" (addPlayer "ann" "Ann" (newGame "ABCD"))).
Proof. vm_compute. reflexivity. Qed.

Lemma seats_change_only_by_join_and_leave_witness :
  map seat (players (final (step galleryGame (EVote "ann" true))))
  = map seat (players galleryGame)
  ∧ roomId (final (step galleryGame (EVote "ann" true))) = roomId galleryGame
  ∧ ∀ socket, isHost socket (final (step galleryGame (EVote "ann" true)))
              = isHost socket galleryGame.
Proof.
  apply (seats_change_only_by_join_and_leave galleryGame (EVote "ann" true)). reflexivity.
Defined.

Lemma roster_never_exceeds_capacity_witness :
  (length (players galleryGame) <= TOTAL_PLAYERS)%nat
  ∧ (isFull galleryGame = true ↔ length (players galleryGame) = TOTAL_PLAYERS).
Proof. apply (roster_never_exceeds_capacity galleryGame), reachable_galleryGame. Defined.

Lemma scores_never_negative_witness : 0 <= score (mkPlayer "ann" "Ann" Dodger 9 true).
Proof.
  apply (scores_never_negative revealGame); [apply reachable_revealGame|].
  vm_compute. repeat constructor.
Defined.

Lemma round_counter_bounded_witness :
  (currentRound revealGame <= Nat.max 1 TOTAL_ROUNDS)%nat
  ∧ (state revealGame = GAME_OVER → (TOTAL_ROUNDS <= currentRound revealGame)%nat).
Proof. apply (round_counter_bounded revealGame), reachable_revealGame. Defined.

Lemma countdown_in_range_witness :
  0 <= galleryTime galleryGame <= GALLERY_TIMER_SECONDS
  ∧ (galleryTimer galleryGame = TimerLive → 0 < galleryTime galleryGame).
Proof.
  apply (countdown_in_range galleryGame); [reflexivity | apply reachable_galleryGame].
Defined.

Lemma cursor_stays_in_range_witness :
  (galleryIndex galleryGame = 0 ∨ galleryIndex galleryGame < length (artworks galleryGame))%nat
  ∧ (∀ voter yes, raised (handleVote voter yes galleryGame) = true ↔ artworks galleryGame = [])
  ∧ (raised (nextGalleryItem galleryGame) = true ↔ artworks galleryGame = []).
Proof. apply (cursor_stays_in_range galleryGame), reachable_galleryGame. Defined.

Lemma artwork_ids_are_one_to_n_witness :
  map aid (artworks galleryGame) ≡ₚ seqZ 1 (Z.of_nat (length (artworks galleryGame))).
Proof. apply (artwork_ids_are_one_to_n galleryGame), reachable_galleryGame. Defined.

Lemma votes_target_listed_artifacts_witness :
  ∃ a, a ∈ artworks scoringGame ∧ aid a = artworkId (mkVote "ann" 1 true)
       ∧ List.find (fun x => Z.eqb (aid x) (artworkId (mkVote "ann" 1 true)))
           (artworks scoringGame) = Some a.
Proof.
  apply (votes_target_listed_artifacts scoringGame); [apply reachable_scoringGame|].
  vm_compute. repeat constructor.
Defined.

Lemma countdown_lasts_full_duration_witness :
  run (startGalleryTimer galleryGame) (repeat ETick 59)
  = set_galleryTime (GALLERY_TIMER_SECONDS - Z.of_nat 59) (startGalleryTimer galleryGame)
  ∧ EnabledAll (startGalleryTimer galleryGame) (repeat ETick 59)
  ∧ (Z.of_nat 59 + 1 = GALLERY_TIMER_SECONDS →
     step (run (startGalleryTimer galleryGame) (repeat ETick 59)) ETick
     = nextGalleryItem (set_galleryTime 0 (startGalleryTimer galleryGame))).
Proof. apply (countdown_lasts_full_duration galleryGame 59). reflexivity. Defined.

Lemma withRetry_attempts_witness :
  ∃ k, (k < 3)%nat ∧ thirdTimeLucky k = Resolved 7%nat
       ∧ ∀ j, (j < k)%nat →
              ∃ e, thirdTimeLucky j = Rejected e ∧ isRateLimitError e = true.
Proof.
  apply (proj1 (proj2 (withRetry_attempts thirdTimeLucky))). vm_compute. reflexivity.
Defined.

Lemma evaluateArtworks_always_ranks_witness :
  ∃ q o, evaluateArtworks (fun _ => Rejected BadMessage) threeFailures (fun l => l) (@rev Z)
           [art1; art2] = Resolved (q, o)
         ∧ Permutation (map aid [art1; art2]) q ∧ Permutation (map aid [art1; art2]) o.
Proof.
  apply (proj2 (evaluateArtworks_always_ranks (fun _ => Rejected BadMessage) threeFailures
                  (fun l => l) (@rev Z) [art1; art2]
                  (fun l => Permutation_refl l) (fun l => Permutation_rev l))).
  exists (ErrorObj "quota: RESOURCE_EXHAUSTED"). vm_compute. reflexivity.
Defined.

Lemma ranked_bonuses_total_witness :
  totalQuality (artworks (calculateScores [1; 2] [2; 1] scoringGame))
  = podium (length (artworks scoringGame))
  ∧ totalOriginality (artworks (calculateScores [1; 2] [2; 1] scoringGame))
    = podium (length (artworks scoringGame)).
Proof.
  apply (ranked_bonuses_total scoringGame [1; 2] [2; 1]).
  - apply reachable_scoringGame.
  - vm_compute. apply Permutation_refl.
  - vm_compute. apply perm_swap.
  - vm_compute. eauto.
Defined.

Lemma reveal_message_matches_detection_point_witness :
  userCorrectlyIdentifiedDodger (Some (mkPlayer "bob" "Bob" Artist 0 true))
    (getSerializableState scoringGame)
  = match List.find (vote_matches "bob" 1) (votes scoringGame) with
    | Some v => isYes v
    | None => false
    end.
Proof.
  apply (reveal_message_matches_detection_point scoringGame
           (mkPlayer "bob" "Bob" Artist 0 true) art1).
  - apply active_scoringGame.
  - vm_compute. reflexivity.
Defined.

Lemma createGame_opens_fresh_room_witness :
  (∅ : gmap string Game) !! "ABCD" = None
  ∧ (Forall (fun i => (i < 26)%nat) [0; 1; 2; 3]%nat → String.length "ABCD" = 4%nat)
  ∧ (∀ other, other ≠ "ABCD" →
       serverStep ∅ (SCreate "ann" "Ann" [0; 1; 2; 3]%nat) !! other
       = (∅ : gmap string Game) !! other)
  ∧ ∃ game, serverStep ∅ (SCreate "ann" "Ann" [0; 1; 2; 3]%nat) !! "ABCD" = Some game
      ∧ roomId game = "ABCD" ∧ state game = LOBBY
      ∧ ((1 <= TOTAL_PLAYERS)%nat → map seat (players game) = [("ann", "Ann")]).
Proof.
  apply (createGame_opens_fresh_room "ann" "Ann" [0; 1; 2; 3]%nat ∅
           (serverStep ∅ (SCreate "ann" "Ann" [0; 1; 2; 3]%nat)) "ABCD").
  vm_compute. reflexivity.
Defined.

Lemma registered_games_are_reachable_witness :
  reachable (addPlayer "bob" "Bob" (addPlayer "ann" "Ann" (newGame "ABCD")))
  ∧ roomId (addPlayer "bob" "Bob" (addPlayer "ann" "Ann" (newGame "ABCD"))) = "ABCD".
Proof.
  apply (registered_games_are_reachable lobbyRegistry "ABCD").
  - apply serverReachable_lobbyRegistry.
  - vm_compute. reflexivity.
Defined.

Lemma registered_rooms_have_a_host_witness :
  (1 <= length (players (addPlayer "bob" "Bob" (addPlayer "ann" "Ann" (newGame "ABCD")))))%nat
  ∧ is_Some (isHost "bob" (addPlayer "bob" "Bob" (addPlayer "ann" "Ann" (newGame "ABCD"))))
  ∧ raised (on_startGame "bob"
              (addPlayer "bob" "Bob" (addPlayer "ann" "Ann" (newGame "ABCD")))) = false
  ∧ raised (on_playAgain "bob"
              (addPlayer "bob" "Bob" (addPlayer "ann" "Ann" (newGame "ABCD")))) = false.
Proof.
  apply (registered_rooms_have_a_host lobbyRegistry "ABCD").
  - simpl. lia.
  - apply serverReachable_lobbyRegistry.
  - vm_compute. reflexivity.
Defined.

Lemma joinGame_seats_last_witness :
  "ABCD" = "ABCD"
  ∧ ∃ game game',
      serverStep ∅ (SCreate "ann" "Ann" [0; 1; 2; 3]%nat) !! "ABCD" = Some game
      ∧ lobbyRegistry !! "ABCD" = Some game'
      ∧ (length (players game) < TOTAL_PLAYERS)%nat
      ∧ map seat (players game') = map seat (players game) ++ [("bob", "Bob")]
      ∧ (∀ s, isHost s game' = isHost s game)
      ∧ ∀ other, other ≠ "ABCD" →
          lobbyRegistry !! other
          = serverStep ∅ (SCreate "ann" "Ann" [0; 1; 2; 3]%nat) !! other.
Proof.
  apply (joinGame_seats_last (serverStep ∅ (SCreate "ann" "Ann" [0; 1; 2; 3]%nat))
           lobbyRegistry "bob" "Bob" "ABCD" (Some "ABCD")).
  - simpl. lia.
  - apply serverReachable_created.
  - vm_compute. reflexivity.
Defined.

Lemma players_leave_only_by_resolved_disconnect_witness :
  ∃ game' extra,
    serverStep lobbyRegistry (SDisconnect "bob" []) !! "ABCD" = Some game'
    ∧ map seat (players game')
      = map seat (players (addPlayer "bob" "Bob" (addPlayer "ann" "Ann" (newGame "ABCD"))))
        ++ extra
    ∧ roomId game'
      = roomId (addPlayer "bob" "Bob" (addPlayer "ann" "Ann" (newGame "ABCD"))).
Proof.
  apply (players_leave_only_by_resolved_disconnect lobbyRegistry (SDisconnect "bob" [])
           "ABCD" (addPlayer "bob" "Bob" (addPlayer "ann" "Ann" (newGame "ABCD")))).
  - exact I.
  - reflexivity.
  - apply lobbyRegistry_room.
Defined.

Lemma gallery_finishes_unattended_witness :
  state (run galleryGame
           (repeat ETick (60 * (length (artworks galleryGame) - galleryIndex galleryGame))))
  = SCORING.
Proof.
  apply (gallery_finishes_unattended galleryGame 60).
  - reflexivity.
  - lia.
  - vm_compute. reflexivity.
  - vm_compute. reflexivity.
  - vm_compute. lia.
  - vm_compute. eauto.
Defined.

End MoreSamples.
